(** * Entity normalization helpers: a shallow embedding and its properties

    The development follows [src/utils/normalize.ts] ([normalize],
    [denormalize], [extractEntities]), [src/hooks/useNormalizedState.ts]
    (the state updaters of the hook) and [src/stores/postsStore.ts].

    JavaScript values are embedded as a small tree type: [undefined],
    [null], booleans, integer-valued numbers, strings and plain objects.
    A plain object is the list of its own enumerable string-keyed
    properties, kept in the order in which the language enumerates them
    (array-index keys in ascending numeric order, then the remaining keys
    in creation order).  Every record has the prototype
    [Object.prototype]: a read [o[k]] and a test [k in o] that find no
    own property go on to the members of [Object.prototype], and an
    assignment [o["__proto__"] = v] to an object without such an own
    property runs the prototype setter, which creates no property and
    puts [v] in the place of [Object.prototype].  Only the maps that the
    functions fill by assignment can get another prototype that way.
    Arrays, symbols and user-defined accessors are outside the model; a
    record used as an identifier is taken to print as [[object Object]]
    (it does not redefine [toString] or [valueOf]), and numbers stand
    for the integers that print as their decimal numeral (the safe
    integers).

    The functions are embedded twice: as functions on trees, which is
    what the statements about their results use, and as computations
    over a store of mutable objects (module [Heap]), which is what the
    statement about their effects uses.  The two are connected: the
    result of a store computation, read back as a tree, is the result of
    the function on trees. *)

From Stdlib Require Import List String Ascii ZArith NArith Bool Lia Permutation.
From Stdlib Require Import DecimalString.
From Stdlib Require DecimalZ DecimalPos.
Import ListNotations.
Open Scope string_scope.
Open Scope list_scope.

(** ** Values *)

#[local] Set Warnings "-register-all".

(** What a plain object inherits: [Object.prototype] itself (which the
    accessor [__proto__] reads) and its function members. *)
Inductive builtin : Type :=
| ObjectPrototype
| BuiltinFunction (name : string).

Inductive value : Type :=
| VUndefined
| VNull
| VBool (b : bool)
| VNum (n : Z)
| VStr (s : string)
| VObj (o : list (string * value))
| VBuiltin (b : builtin).

(** A record of the data model: field name to value. *)
Definition record : Type := list (string * value).

(** The text of a built-in function, as V8 prints it. *)
Definition function_text (name : string) : string :=
  "function " ++ name ++ "() { [native code] }".

(** [String(v)], which is also how a computed property key [[v]] is
    turned into a property name. *)
Definition to_key (v : value) : string :=
  match v with
  | VUndefined => "undefined"
  | VNull => "null"
  | VBool true => "true"
  | VBool false => "false"
  | VNum n => NilZero.string_of_int (Z.to_int n)
  | VStr s => s
  | VObj _ => "[object Object]"
  | VBuiltin ObjectPrototype => "[object Object]"
  | VBuiltin (BuiltinFunction name) => function_text name
  end.

(** [!!v] *)
Definition truthy (v : value) : bool :=
  match v with
  | VUndefined | VNull => false
  | VBool b => b
  | VNum n => negb (Z.eqb n 0)
  | VStr s => negb (String.eqb s "")
  | VObj _ => true
  | VBuiltin _ => true
  end.

(** [typeof v] *)
Definition typeof (v : value) : string :=
  match v with
  | VUndefined => "undefined"
  | VNull => "object"
  | VBool _ => "boolean"
  | VNum _ => "number"
  | VStr _ => "string"
  | VObj _ => "object"
  | VBuiltin ObjectPrototype => "object"
  | VBuiltin (BuiltinFunction _) => "function"
  end.

(** [v === undefined || v === null] *)
Definition is_nullish (v : value) : bool :=
  match v with
  | VUndefined | VNull => true
  | _ => false
  end.

(** ** The members of [Object.prototype] *)

(** The member of [Object.prototype] that a plain object inherits under
    the name [k]: reading [__proto__] gives the prototype, [constructor]
    is the function [Object], the other members are functions named as
    their property. *)
Definition prototype_member (k : string) : option builtin :=
  if String.eqb k "__proto__" then Some ObjectPrototype
  else if String.eqb k "constructor" then Some (BuiltinFunction "Object")
  else if existsb (String.eqb k)
            [ "__defineGetter__"; "__defineSetter__"; "hasOwnProperty";
              "__lookupGetter__"; "__lookupSetter__"; "isPrototypeOf";
              "propertyIsEnumerable"; "toString"; "valueOf"; "toLocaleString" ]
  then Some (BuiltinFunction k)
  else None.

(** [k] names a member of [Object.prototype]. *)
Definition inherited (k : string) : bool :=
  match prototype_member k with Some _ => true | None => false end.

(** What [Object.prototype[k]] reads: the prototype of [Object.prototype]
    is [null]. *)
Definition prototype_read (k : string) : value :=
  if String.eqb k "__proto__" then VNull
  else match prototype_member k with
       | Some b => VBuiltin b
       | None => VUndefined
       end.

(** ** Property lists in enumeration order *)

(** An array index is a canonical numeric string whose value is at most
    [2^32 - 2]. *)
Definition array_index (k : string) : option N :=
  match NilZero.uint_of_string k with
  | Some u =>
      let n := N.of_uint u in
      if String.eqb (NilZero.string_of_uint (N.to_uint n)) k && N.ltb n 4294967295
      then Some n else None
  | None => None
  end.

Module Props.
Section WithValues.
Context {A : Type}.

Definition t : Type := list (string * A).

Definition empty : t := [].

(** own property lookup *)
Fixpoint lookup (k : string) (o : t) : option A :=
  match o with
  | [] => None
  | (k', v) :: o' => if String.eqb k k' then Some v else lookup k o'
  end.

(** [k in o] for own properties *)
Definition has (k : string) (o : t) : bool :=
  match lookup k o with Some _ => true | None => false end.

(** overwrite the value of an existing property; its place is kept *)
Fixpoint replace (k : string) (v : A) (o : t) : t :=
  match o with
  | [] => []
  | (k', v') :: o' =>
      if String.eqb k k' then (k, v) :: o' else (k', v') :: replace k v o'
  end.

(** create an array-index property: it is enumerated after the smaller
    indices and before everything else *)
Fixpoint insert_index (n : N) (k : string) (v : A) (o : t) : t :=
  match o with
  | [] => [(k, v)]
  | (k', v') :: o' =>
      match array_index k' with
      | Some m =>
          if N.ltb m n then (k', v') :: insert_index n k v o'
          else (k, v) :: o
      | None => (k, v) :: o
      end
  end.

(** define the own property [k]: a computed key [[k]: v] of an object
    literal, or one property copied by a spread *)
Definition set (k : string) (v : A) (o : t) : t :=
  if has k o then replace k v o
  else match array_index k with
       | Some n => insert_index n k v o
       | None => o ++ [(k, v)]
       end.

(** The assignment [o[k] = v] to an object whose prototype is
    [Object.prototype] runs the setter of the accessor [__proto__]: [k]
    is [__proto__] and [o] has no own property of that name. *)
Definition sets_prototype (k : string) (o : t) : bool :=
  negb (has k o) && String.eqb k "__proto__".

(** The own properties after the assignment [o[k] = v] to an object
    whose prototype is [Object.prototype]: the setter creates none. *)
Definition put (k : string) (v : A) (o : t) : t :=
  if sets_prototype k o then o else set k v o.

(** An object that assignments fill: its own properties and its
    prototype slot, [None] for [Object.prototype] and [Some p] once an
    assignment has put the object [p] there.  The prototype of [p] is
    [Object.prototype]. *)
Record obj : Type := Obj { own : t; proto : option A }.

(** [{}] *)
Definition fresh : obj := {| own := empty; proto := None |}.

(** The assignment [o[k] = v] of an object [v].  The assignment looks for
    the name along the prototype chain: it reaches the accessor
    [__proto__] of [Object.prototype], and runs its setter, when neither
    [o] nor the object in its prototype slot has an own property of that
    name ([shadows p] says that [p] has one); in every other case it
    defines or overwrites the own property. *)
Definition write (shadows : A -> bool) (k : string) (v : A) (o : obj) : obj :=
  let shadowed := match proto o with
                  | Some p => shadows p
                  | None => false
                  end in
  if sets_prototype k (own o) && negb shadowed
  then {| own := own o; proto := Some v |}
  else {| own := set k v (own o); proto := proto o |}.

(** [delete o[k]] *)
Fixpoint delete (k : string) (o : t) : t :=
  match o with
  | [] => []
  | (k', v) :: o' =>
      if String.eqb k k' then delete k o' else (k', v) :: delete k o'
  end.

(** [Object.keys(o)] and [Object.values(o)] *)
Definition keys (o : t) : list string := map fst o.
Definition values (o : t) : list A := map snd o.

(** [{...o}]: a fresh object with the same properties in the same
    enumeration order *)
Definition spread (o : t) : t := o.

(** [{...o, ...u}] continued: the properties of [u] are defined on the
    copy one by one *)
Definition assign (o u : t) : t :=
  fold_left (fun acc kv => set (fst kv) (snd kv) acc) u o.

End WithValues.
Arguments t : clear implicits.
Arguments obj : clear implicits.
End Props.

(** [o[k]]: the own property, or else the inherited member, or else
    [undefined]. *)
Definition get (k : string) (o : record) : value :=
  match Props.lookup k o with
  | Some v => v
  | None => match prototype_member k with
            | Some b => VBuiltin b
            | None => VUndefined
            end
  end.

(** [k in o] *)
Definition has_property {A : Type} (k : string) (o : Props.t A) : bool :=
  Props.has k o || inherited k.

(** An entity map: property name (stringified identifier) to record. *)
Definition entity_map : Type := Props.t record.

(** ** [normalize] and [denormalize] *)

(** One [console.warn] call: the message and the offending item. *)
Record diagnostic : Type := Warn { warn_message : string; warn_item : record }.

Definition dquote : string := String (ascii_of_nat 34) EmptyString.

Definition missing_key_message (key : string) : string :=
  "normalize: item missing key " ++ dquote ++ key ++ dquote.

(** The reducer passed to [arr.reduce]; the console is threaded along
    with the accumulator. *)
Definition normalize_step (key : string)
    (st : entity_map * list diagnostic) (item : record)
    : entity_map * list diagnostic :=
  let (acc, console) := st in
  let keyValue := get key item in
  if is_nullish keyValue
  then (acc, console ++ [Warn (missing_key_message key) item])
  else (Props.set (to_key keyValue) item (Props.spread acc), console).

Definition normalize_run (arr : list record) (key : string)
    : entity_map * list diagnostic :=
  fold_left (normalize_step key) arr (Props.empty, []).

Definition normalize (arr : list record) (key : string) : entity_map :=
  fst (normalize_run arr key).

Definition normalize_warnings (arr : list record) (key : string)
    : list diagnostic :=
  snd (normalize_run arr key).

Definition denormalize {A : Type} (obj : Props.t A) : list A :=
  Props.values obj.

(** ** [extractEntities] *)

(** [k in v]; the source only evaluates it on a value whose [typeof]
    is ["object"]. *)
Definition in_op (k : string) (v : value) : bool :=
  match v with
  | VObj e => has_property k e
  | VBuiltin ObjectPrototype => inherited k
  | _ => false
  end.

(** [v[k]]; the source only evaluates it on a value whose [typeof] is
    ["object"]. *)
Definition member (k : string) (v : value) : value :=
  match v with
  | VObj e => get k e
  | VBuiltin ObjectPrototype => prototype_read k
  | _ => VUndefined
  end.

(** The result: the own properties of the two maps that the call
    returns.  The nested entity is stored as the value found under
    [entityKey]; the copies of the items are records. *)
Record extracted : Type := Extracted {
  items : Props.t record;
  entities : Props.t value
}.

(** The two maps while the loop fills them, [entities] and
    [normalizedItems]: both are filled by assignment, so that an
    assignment to the name [__proto__] can replace the prototype of the
    map instead of adding a property. *)
Module Loop.
Record state : Type := State {
  normalizedItems : Props.obj record;
  entities : Props.obj value
}.
End Loop.

(** The value is a record with an own property named [__proto__]. *)
Definition owns_proto (v : value) : bool :=
  match v with
  | VObj e => Props.has "__proto__" e
  | _ => false
  end.

(** The guard of line 71: [entity && typeof entity === 'object' && idKey in entity]. *)
Definition has_entity (idKey : string) (entity : value) : bool :=
  truthy entity && String.eqb (typeof entity) "object" && in_op idKey entity.

(** The body of the [forEach] callback. *)
Definition extract_step (entityKey idKey : string)
    (st : Loop.state) (item : record) : Loop.state :=
  let entity := get entityKey item in
  let itemCopy := Props.spread item in
  let (entities1, itemCopy1) :=
    if has_entity idKey entity then
      let entityId := member idKey entity in
      (Props.write owns_proto (to_key entityId) entity (Loop.entities st),
       Props.put (entityKey ++ "Id") entityId (Props.delete entityKey itemCopy))
    else (Loop.entities st, itemCopy) in
  {| Loop.normalizedItems :=
       Props.write (Props.has "__proto__") (to_key (get idKey item)) itemCopy1
                   (Loop.normalizedItems st);
     Loop.entities := entities1 |}.

Definition extract_loop (items0 : list record) (entityKey idKey : string)
    : Loop.state :=
  fold_left (extract_step entityKey idKey) items0
            {| Loop.normalizedItems := Props.fresh; Loop.entities := Props.fresh |}.

Definition extractEntities (items0 : list record) (entityKey idKey : string)
    : extracted :=
  let st := extract_loop items0 entityKey idKey in
  {| items := Props.own (Loop.normalizedItems st);
     entities := Props.own (Loop.entities st) |}.

(** ** The updaters of [useNormalizedState]

    The hook keeps one entity map in component state; every callback
    hands an updater [prev => next] to [setState].  An identifier is a
    string or a number, embedded as a [value].  The state is the list of
    the own properties of the state object, whose prototype is
    [Object.prototype]. *)

Definition addEntity (entity : record) (prev : entity_map) : entity_map :=
  Props.set (to_key (get "id" entity)) entity (Props.spread prev).

(** [newState[entity.id] = entity] is an assignment: the new state is
    returned with its prototype slot, which holds an entity once an
    assignment has run the prototype setter. *)
Definition addEntities (ents : list record) (prev : entity_map)
    : Props.obj record :=
  fold_left (fun newState entity =>
               Props.write (Props.has "__proto__") (to_key (get "id" entity))
                           entity newState)
            ents {| Props.own := Props.spread prev; Props.proto := None |}.

Definition removeEntity (id : value) (prev : entity_map) : entity_map :=
  Props.delete (to_key id) (Props.spread prev).

(** [state[id]]: the stored entity, or else the inherited member, or
    else [undefined]. *)
Definition getEntity (id : value) (state : entity_map) : value :=
  match Props.lookup (to_key id) state with
  | Some entity => VObj entity
  | None => match prototype_member (to_key id) with
            | Some b => VBuiltin b
            | None => VUndefined
            end
  end.

(** The own enumerable properties that a spread [{...v}] copies: those
    of a record; a member of [Object.prototype] has none. *)
Definition own_properties (v : value) : record :=
  match v with
  | VObj e => e
  | _ => []
  end.

Definition updateEntity (id : value) (updates : record) (prev : entity_map)
    : entity_map :=
  let entity := getEntity id prev in
  if negb (truthy entity) then prev
  else Props.set (to_key id)
                 (Props.assign (Props.spread (own_properties entity)) updates)
                 (Props.spread prev).

Definition clear (prev : entity_map) : entity_map := Props.empty.

Definition getAllEntities (state : entity_map) : list record :=
  Props.values state.

Definition entityIds (state : entity_map) : list string := Props.keys state.

(** [id in state] *)
Definition hasEntity (id : value) (state : entity_map) : bool :=
  has_property (to_key id) state.

Definition count (state : entity_map) : nat := List.length (entityIds state).

(** The calls a component can make, and the state after a sequence of
    them, starting from [initialState].  The states of a sequence are
    entity maps, objects whose prototype is [Object.prototype]: the
    sequence ends with [None] once a batch has left a state with another
    prototype. *)
Inductive action : Type :=
| SetState (s : entity_map)
| AddEntity (entity : record)
| AddEntities (ents : list record)
| RemoveEntity (id : value)
| UpdateEntity (id : value) (updates : record)
| Clear.

Definition dispatch (prev : entity_map) (a : action) : option entity_map :=
  match a with
  | SetState s => Some s
  | AddEntity entity => Some (addEntity entity prev)
  | AddEntities ents =>
      let newState := addEntities ents prev in
      match Props.proto newState with
      | None => Some (Props.own newState)
      | Some _ => None
      end
  | RemoveEntity id => Some (removeEntity id prev)
  | UpdateEntity id updates => Some (updateEntity id updates prev)
  | Clear => Some (clear prev)
  end.

Definition useNormalizedState (initialState : entity_map) (calls : list action)
    : option entity_map :=
  fold_left (fun state a =>
               match state with
               | Some prev => dispatch prev a
               | None => None
               end)
            calls (Some initialState).

(** ** The posts store

    The data slice of the store is the [posts] map; the store library
    replaces the slice by what the updater returns and keeps the state
    object when the updater returns it as it is.  A post identifier is a
    number: its name is a decimal numeral, which is not the name of a
    member of [Object.prototype], so that [posts[id]] reads an own
    property or nothing. *)

Record PostsState : Type := { posts : entity_map }.

Definition addPost (post : record) (state : PostsState) : PostsState :=
  {| posts := Props.set (to_key (get "id" post)) post (Props.spread (posts state)) |}.

Definition updatePost (id : Z) (updates : record) (state : PostsState)
    : PostsState :=
  match Props.lookup (to_key (VNum id)) (posts state) with
  | None => state
  | Some post =>
      {| posts := Props.set (to_key (VNum id))
                            (Props.assign (Props.spread post) updates)
                            (Props.spread (posts state)) |}
  end.

Definition removePost (id : Z) (state : PostsState) : PostsState :=
  {| posts := Props.delete (to_key (VNum id)) (Props.spread (posts state)) |}.

Definition getPost (id : Z) (state : PostsState) : option record :=
  Props.lookup (to_key (VNum id)) (posts state).

Definition getAllPosts (state : PostsState) : list record :=
  Props.values (posts state).

(** ** Vocabulary for the statements *)

(** The record has a usable identifier under [key]: the field is there
    and holds neither [undefined] nor [null]. *)
Definition has_identifier (key : string) (r : record) : bool :=
  negb (is_nullish (get key r)).

(** The property name under which the record is filed. *)
Definition identifier_key (key : string) (r : record) : string :=
  to_key (get key r).

(** The record is filed by [normalize] under the property name [k]. *)
Definition claims (key k : string) (r : record) : bool :=
  has_identifier key r && String.eqb (identifier_key key r) k.

(** The value is an object: a record or [Object.prototype]. *)
Definition is_object (v : value) : bool :=
  match v with
  | VObj _ => true
  | VBuiltin ObjectPrototype => true
  | _ => false
  end.

(** Filling an object by assignments, one after the other. *)
Definition write_each {A B : Type} (shadows : A -> bool)
    (kf : B -> string) (vf : B -> A) (l : list B) (acc : Props.obj A)
    : Props.obj A :=
  fold_left (fun a r => Props.write shadows (kf r) (vf r) a) l acc.

(** What [extractEntities] files for an item: lines 69 to 76 of the
    source, the copy with the nested entity replaced by its identifier
    when the guard holds and the plain copy otherwise. *)
Definition item_copy (entityKey idKey : string) (item : record) : record :=
  if has_entity idKey (get entityKey item)
  then Props.put (entityKey ++ "Id") (member idKey (get entityKey item))
                 (Props.delete entityKey (Props.spread item))
  else Props.spread item.

(** The property name under which a nested entity is filed. *)
Definition entity_key (entityKey idKey : string) (item : record) : string :=
  to_key (member idKey (get entityKey item)).

(** Two property lists have the same names in the same order and related
    values. *)
Definition rel_props {A B : Type} (R : A -> B -> Prop)
    (o : Props.t A) (r : Props.t B) : Prop :=
  Forall2 (fun a b => fst a = fst b /\ R (snd a) (snd b)) o r.

Definition rel_option {A B : Type} (R : A -> B -> Prop)
    (x : option A) (y : option B) : Prop :=
  match x, y with
  | Some a, Some b => R a b
  | None, None => True
  | _, _ => False
  end.

(** Filing a list of things one after the other into a property list. *)
Definition set_each {A B : Type} (kf : B -> string) (vf : B -> A)
    (l : list B) (acc : Props.t A) : Props.t A :=
  fold_left (fun a r => Props.set (kf r) (vf r) a) l acc.

(** ** The three functions over a store of mutable objects

    To speak about what a call leaves untouched, the functions are
    embedded a second time over an explicit store: objects live at
    locations, a field holds a primitive or a reference, arrays (the
    collections) live in their own table, and the console collects the
    [console.warn] calls.  A computation either fails (a [TypeError]) or
    returns a result and the store it leaves behind. *)

Module Heap.

Definition loc : Type := nat.

Inductive hvalue : Type :=
| HUndefined
| HNull
| HBool (b : bool)
| HNum (n : Z)
| HStr (s : string)
| HRef (l : loc)
| HBuiltin (b : builtin).

Definition hobject : Type := Props.t hvalue.

Record store : Type := Store {
  objects : list hobject;
  arrays : list (list hvalue);
  console : list (string * hvalue)
}.

(** What [String], [!], [typeof] and the comparison with [undefined] and
    [null] see of a value: a reference is some object. *)
Definition shallow (v : hvalue) : value :=
  match v with
  | HUndefined => VUndefined
  | HNull => VNull
  | HBool b => VBool b
  | HNum n => VNum n
  | HStr s => VStr s
  | HRef _ => VObj []
  | HBuiltin b => VBuiltin b
  end.

Definition hkey (v : hvalue) : string := to_key (shallow v).

(** [o[k]]: the own property, or else the inherited member, or else
    [undefined] *)
Definition hget (k : string) (o : hobject) : hvalue :=
  match Props.lookup k o with
  | Some v => v
  | None => match prototype_member k with
            | Some b => HBuiltin b
            | None => HUndefined
            end
  end.

(** [Object.prototype[k]] *)
Definition hprototype_read (k : string) : hvalue :=
  if String.eqb k "__proto__" then HNull
  else match prototype_member k with
       | Some b => HBuiltin b
       | None => HUndefined
       end.

(** *** Computations *)

Definition M (A : Type) : Type := store -> option (A * store).

Definition ret {A : Type} (a : A) : M A := fun s => Some (a, s).

Definition bind {A B : Type} (m : M A) (f : A -> M B) : M B :=
  fun s => match m s with
           | Some (a, s') => f a s'
           | None => None
           end.

Definition throw {A : Type} : M A := fun _ => None.

Notation "x <- m ;; k" := (bind m (fun x => k))
  (at level 61, m at next level, right associativity).
Notation "m ;;; k" := (bind m (fun _ => k))
  (at level 61, right associativity).

Fixpoint update_nth {A : Type} (n : nat) (x : A) (l : list A) : list A :=
  match l, n with
  | [], _ => []
  | _ :: l', O => x :: l'
  | y :: l', S n' => y :: update_nth n' x l'
  end.

(** [{}] and object literals: a fresh object *)
Definition new_object (o : hobject) : M loc :=
  fun s => Some (List.length (objects s),
                 {| objects := objects s ++ [o];
                    arrays := arrays s;
                    console := console s |}).

(** a fresh array *)
Definition new_array (xs : list hvalue) : M nat :=
  fun s => Some (List.length (arrays s),
                 {| objects := objects s;
                    arrays := arrays s ++ [xs];
                    console := console s |}).

Definition read_object (l : loc) : M hobject :=
  fun s => match nth_error (objects s) l with
           | Some o => Some (o, s)
           | None => None
           end.

Definition put_object (l : loc) (o : hobject) (s : store) : store :=
  {| objects := update_nth l o (objects s);
     arrays := arrays s;
     console := console s |}.

Definition write_object (l : loc) (o : hobject) : M unit :=
  fun s => if Nat.ltb l (List.length (objects s))
           then Some (tt, put_object l o s)
           else None.

(** an assignment to or deletion of a property of the object at [l] *)
Definition modify (l : loc) (f : hobject -> hobject) : M unit :=
  o <- read_object l ;; write_object l (f o).

Definition read_array (a : nat) : M (list hvalue) :=
  fun s => match nth_error (arrays s) a with
           | Some xs => Some (xs, s)
           | None => None
           end.

(** the object a value refers to; reading a property of [undefined] or
    [null] throws, and the members of the collections are objects *)
Definition deref (v : hvalue) : M hobject :=
  match v with
  | HRef l => read_object l
  | _ => throw
  end.

Definition warn (message : string) (item : hvalue) : M unit :=
  fun s => Some (tt, {| objects := objects s;
                        arrays := arrays s;
                        console := console s ++ [(message, item)] |}).

(** [xs.reduce(f, init)] *)
Fixpoint reduce {A B : Type} (f : B -> A -> M B) (xs : list A) (init : B) : M B :=
  match xs with
  | [] => ret init
  | x :: xs' => acc <- f init x ;; reduce f xs' acc
  end.

(** [xs.forEach(f)] for a callback that updates local state *)
Fixpoint for_each {A S : Type} (xs : list A) (f : S -> A -> M S) (st : S) : M S :=
  match xs with
  | [] => ret st
  | x :: xs' => st' <- f st x ;; for_each xs' f st'
  end.

(** *** The functions *)

Definition normalize_step (key : string) (acc : loc) (item : hvalue) : M loc :=
  o <- deref item ;;
  let keyValue := hget key o in
  if is_nullish (shallow keyValue)
  then warn (missing_key_message key) item ;;; ret acc
  else accObj <- read_object acc ;;
       new_object (Props.set (hkey keyValue) item (Props.spread accObj)).

Definition normalize (arr : nat) (key : string) : M hvalue :=
  xs <- read_array arr ;;
  init <- new_object Props.empty ;;
  acc <- reduce (normalize_step key) xs init ;;
  ret (HRef acc).

Definition denormalize (obj : hvalue) : M nat :=
  o <- deref obj ;;
  new_array (Props.values o).

(** [k in v] and [v[k]] on a value whose [typeof] is ["object"]: a
    stored object or [Object.prototype] *)
Definition has_in (k : string) (v : hvalue) : M bool :=
  match v with
  | HRef l => o <- read_object l ;; ret (has_property k o)
  | HBuiltin ObjectPrototype => ret (inherited k)
  | _ => throw
  end.

Definition read_member (k : string) (v : hvalue) : M hvalue :=
  match v with
  | HRef l => o <- read_object l ;; ret (hget k o)
  | HBuiltin ObjectPrototype => ret (hprototype_read k)
  | _ => ret HUndefined
  end.

(** the value is a stored object with an own property named [k] *)
Definition owns (k : string) (v : hvalue) : M bool :=
  match v with
  | HRef l => o <- read_object l ;; ret (Props.has k o)
  | _ => ret false
  end.

(** The prototype slot of an object that the call allocates: [None] for
    [Object.prototype], [Some p] once an assignment has put [p] there.
    The slots of the two maps are local state of the loop; every other
    object of the store has the prototype [Object.prototype]. *)
Definition slot : Type := option hvalue.

(** The assignment [o[k] = v] of an object [v] to the object at [l]
    whose prototype slot is [p]; the result is the slot afterwards. *)
Definition write (l : loc) (p : slot) (k : string) (v : hvalue) : M slot :=
  o <- read_object l ;;
  shadowed <- match p with
              | Some q => owns "__proto__" q
              | None => ret false
              end ;;
  if Props.sets_prototype k o && negb shadowed
  then ret (Some v)
  else write_object l (Props.set k v o) ;;; ret p.

(** The conditional of lines 71 to 76. *)
Definition extract_nested (entityKey idKey : string)
    (entities : loc) (entitiesProto : slot) (itemCopy : loc) (entity : hvalue)
    : M slot :=
  if truthy (shallow entity) && String.eqb (typeof (shallow entity)) "object"
  then present <- has_in idKey entity ;;
       if present : bool
       then entityId <- read_member idKey entity ;;
            entitiesProto' <- write entities entitiesProto (hkey entityId) entity ;;
            modify itemCopy (Props.delete entityKey) ;;;
            modify itemCopy (Props.put (entityKey ++ "Id") entityId) ;;;
            ret entitiesProto'
       else ret entitiesProto
  else ret entitiesProto.

(** The callback; the state it updates is the pair of the prototype
    slots of [entities] and [normalizedItems]. *)
Definition extract_step (entityKey idKey : string)
    (entities normalizedItems : loc) (protos : slot * slot) (item : hvalue)
    : M (slot * slot) :=
  o <- deref item ;;
  let entity := hget entityKey o in
  itemCopy <- new_object (Props.spread o) ;;
  entitiesProto <- extract_nested entityKey idKey entities (fst protos)
                                  itemCopy entity ;;
  itemsProto <- write normalizedItems (snd protos) (hkey (hget idKey o))
                      (HRef itemCopy) ;;
  ret (entitiesProto, itemsProto).

(** The result refers to the two maps; the store keeps their own
    properties. *)
Definition extractEntities (items0 : nat) (entityKey idKey : string) : M hvalue :=
  xs <- read_array items0 ;;
  entities <- new_object Props.empty ;;
  normalizedItems <- new_object Props.empty ;;
  for_each xs (extract_step entityKey idKey entities normalizedItems)
           (None, None) ;;;
  result <- new_object [("items", HRef normalizedItems);
                        ("entities", HRef entities)] ;;
  ret (HRef result).

(** *** Reading a value back out of the store *)

Fixpoint reify_fields (f : hvalue -> option value) (o : hobject) : option record :=
  match o with
  | [] => Some []
  | (k, hv) :: o' =>
      match f hv, reify_fields f o' with
      | Some v, Some r => Some ((k, v) :: r)
      | _, _ => None
      end
  end.

(** The tree below a value, looked up to the given depth. *)
Fixpoint reify (depth : nat) (s : store) (hv : hvalue) : option value :=
  match hv with
  | HUndefined => Some VUndefined
  | HNull => Some VNull
  | HBool b => Some (VBool b)
  | HNum n => Some (VNum n)
  | HStr x => Some (VStr x)
  | HBuiltin b => Some (VBuiltin b)
  | HRef l =>
      match depth with
      | O => None
      | S d =>
          match nth_error (objects s) l with
          | Some o => option_map VObj (reify_fields (reify d s) o)
          | None => None
          end
      end
  end.

(** The array [arr] of the store holds the records [rs]. *)
Definition holds_collection (depth : nat) (s : store) (arr : nat)
    (rs : list record) : Prop :=
  exists xs, nth_error (arrays s) arr = Some xs /\
             Forall2 (fun x r => reify depth s x = Some (VObj r)) xs rs.

(** Every object and every array of [s] is the same in [s']. *)
Definition unchanged (s s' : store) : Prop :=
  (forall l o, nth_error (objects s) l = Some o ->
               nth_error (objects s') l = Some o) /\
  (forall a xs, nth_error (arrays s) a = Some xs ->
                nth_error (arrays s') a = Some xs).

End Heap.

(** The own properties of the [entities] map of the pure loop. *)
Definition entities_of (st : Loop.state) : Props.t value :=
  Props.own (Loop.entities st).

(** The own properties of the [normalizedItems] map of the pure loop. *)
Definition items_of (st : Loop.state) : Props.t record :=
  Props.own (Loop.normalizedItems st).

(** *** What the loops maintain

    [s0] is the store at the call, [d] bounds the depth of the fields of
    the items, and the records in the statements are the items already
    visited, as trees. *)

(** A value of the store stands for a tree of depth at most [d]. *)
Definition stands_for (d : nat) (s0 : Heap.store) (hv : Heap.hvalue) (v : value)
    : Prop :=
  Heap.reify d s0 hv = Some v.

(** A member of a collection stands for a record. *)
Definition item_for (d : nat) (s0 : Heap.store) (x : Heap.hvalue) (r : record)
    : Prop :=
  Heap.reify (S d) s0 x = Some (VObj r).

(** A console line stands for a diagnostic. *)
Definition line_for (d : nat) (s0 : Heap.store)
    (hw : string * Heap.hvalue) (w : diagnostic) : Prop :=
  fst hw = warn_message w /\ item_for d s0 (snd hw) (warn_item w).

(** The console of [s] is the console of [s0] followed by lines for the
    diagnostics [ws]. *)
Definition console_grows (d : nat) (s0 s : Heap.store) (ws : list diagnostic)
    : Prop :=
  exists cw, Heap.console s = (Heap.console s0 ++ cw)%list /\
             Forall2 (line_for d s0) cw ws.

(** Invariant of the [reduce] of [normalize]: [st] is the state of the
    pure loop after the same items. *)
Definition normalize_inv (d : nat) (s0 : Heap.store)
    (st : entity_map * list diagnostic) (acc : Heap.loc) (s : Heap.store)
    : Prop :=
  Heap.unchanged s0 s /\
  console_grows d s0 s (snd st) /\
  exists ao, nth_error (Heap.objects s) acc = Some ao /\
             rel_props (item_for d s0) ao (fst st).

(** A property of the items map refers to a copy, an object other than
    the two maps, whose fields stand for the fields of the pure copy. *)
Definition copy_for (d : nat) (s0 s : Heap.store) (entities normalizedItems : Heap.loc)
    (hv : Heap.hvalue) (r : record) : Prop :=
  exists c co, hv = Heap.HRef c /\ c <> entities /\ c <> normalizedItems /\
               nth_error (Heap.objects s) c = Some co /\
               rel_props (stands_for d s0) co r.

(** Invariant of the [forEach] of [extractEntities]: [st] is the state
    of the pure loop after the same items, prototype slots included. *)
Definition extract_inv (d : nat) (s0 : Heap.store) (st : Loop.state)
    (entities normalizedItems : Heap.loc) (protos : Heap.slot * Heap.slot)
    (s : Heap.store) : Prop :=
  Heap.unchanged s0 s /\
  Heap.console s = Heap.console s0 /\
  List.length (Heap.objects s0) <= entities /\
  List.length (Heap.objects s0) <= normalizedItems /\
  entities <> normalizedItems /\
  (exists eo, nth_error (Heap.objects s) entities = Some eo /\
              rel_props (stands_for d s0) eo (entities_of st)) /\
  (exists io, nth_error (Heap.objects s) normalizedItems = Some io /\
              rel_props (copy_for d s0 s entities normalizedItems) io (items_of st)) /\
  rel_option (stands_for d s0) (fst protos) (Props.proto (Loop.entities st)) /\
  rel_option (copy_for d s0 s entities normalizedItems) (snd protos)
             (Props.proto (Loop.normalizedItems st)).

(** An entity map and the result of [extractEntities] as values. *)
Definition map_value (m : Props.t record) : value :=
  VObj (map (fun kv => (fst kv, VObj (snd kv))) m).

Definition extracted_value (x : extracted) : value :=
  VObj [("items", map_value (items x)); ("entities", VObj (entities x))].

(** A store with the two posts of the documentation. *)
Definition posts_store : Heap.store :=
  {| Heap.objects :=
       [ [("id", Heap.HNum 10); ("name", Heap.HStr "John")];
         [("id", Heap.HNum 1); ("title", Heap.HStr "P1"); ("author", Heap.HRef 0)];
         [("id", Heap.HNum 2); ("title", Heap.HStr "P2"); ("author", Heap.HRef 0)] ];
     Heap.arrays := [ [Heap.HRef 1; Heap.HRef 2] ];
     Heap.console := [] |}.

(** ** Enumeration order

    [k] may come before [k'] in the enumeration of one object: array
    indices come in ascending numeric order and before every other name,
    and no name comes twice. *)
Definition precedes (k k' : string) : Prop :=
  match array_index k, array_index k' with
  | Some n, Some m => (n < m)%N
  | Some _, None => True
  | None, Some _ => False
  | None, None => k <> k'
  end.

Fixpoint ordered_keys (ks : list string) : Prop :=
  match ks with
  | [] => True
  | k :: ks' => Forall (precedes k) ks' /\ ordered_keys ks'
  end.

(** The property list is one that an object can enumerate. *)
Definition canonical {A : Type} (o : Props.t A) : Prop :=
  ordered_keys (Props.keys o).

(** Every record of the map is filed under the name of its own
    identifier. *)
Definition self_keyed (key : string) (m : entity_map) : Prop :=
  forall k r, In (k, r) m ->
              has_identifier key r = true /\ identifier_key key r = k.

(** ** The authentication store ([src/stores/authStore.ts])

    Both actions hand the store library a partial state that names every
    data field, so the merge replaces both. *)

Module AuthStore.

Record AuthState : Type := { user : value; isAuthenticated : bool }.

Definition initial : AuthState := {| user := VNull; isAuthenticated := false |}.

Definition setUser (u : value) (state : AuthState) : AuthState :=
  {| user := u; isAuthenticated := truthy u |}.

Definition logout (state : AuthState) : AuthState :=
  {| user := VNull; isAuthenticated := false |}.

Inductive call : Type :=
| SetUser (u : value)
| Logout.

Definition step (state : AuthState) (c : call) : AuthState :=
  match c with
  | SetUser u => setUser u state
  | Logout => logout state
  end.

Definition run (calls : list call) : AuthState := fold_left step calls initial.

End AuthStore.

(** ** The interface store ([stores/uiStore.ts])

    An action hands the store library a partial state; the library
    merges it into the state, so the field that is not named is kept. *)

Module UIStore.

Inductive Theme : Type := light | dark.

Record UIState : Type := { theme : Theme; sidebarOpen : bool }.

Definition initial : UIState := {| theme := light; sidebarOpen := true |}.

Definition toggleTheme (state : UIState) : UIState :=
  {| theme := match theme state with light => dark | dark => light end;
     sidebarOpen := sidebarOpen state |}.

Definition toggleSidebar (state : UIState) : UIState :=
  {| theme := theme state; sidebarOpen := negb (sidebarOpen state) |}.

Definition setTheme (t : Theme) (state : UIState) : UIState :=
  {| theme := t; sidebarOpen := sidebarOpen state |}.

Inductive call : Type :=
| ToggleTheme
| ToggleSidebar
| SetTheme (t : Theme).

Definition step (state : UIState) (c : call) : UIState :=
  match c with
  | ToggleTheme => toggleTheme state
  | ToggleSidebar => toggleSidebar state
  | SetTheme t => setTheme t state
  end.

Definition run (calls : list call) (state : UIState) : UIState :=
  fold_left step calls state.

Definition is_toggle_sidebar (c : call) : bool :=
  match c with ToggleSidebar => true | _ => false end.

End UIStore.

(** ** Vocabulary for the stateful wrapper *)

(** Every entity of the state is filed under the name of its own [id]
    (whatever the [id] is). *)
Definition filed_by_id (m : entity_map) : Prop :=
  forall k e, In (k, e) m -> identifier_key "id" e = k.

(** The calls that file by [id]: everything but a raw [setState], a
    batch with an [id] named [__proto__], an update that overwrites the
    [id] field and an update under the name of a member of
    [Object.prototype]. *)
Definition keeps_filing (a : action) : bool :=
  match a with
  | SetState _ => false
  | AddEntities ents =>
      forallb (fun e => negb (String.eqb (identifier_key "id" e) "__proto__")) ents
  | UpdateEntity id updates =>
      negb (Props.has "id" updates) && negb (inherited (to_key id))
  | _ => true
  end.

(** The identifier is a number, respectively a string. *)
Definition is_number (v : value) : bool :=
  match v with VNum _ => true | _ => false end.

Definition is_string (v : value) : bool :=
  match v with VStr _ => true | _ => false end.

(** ** Vocabulary for sharing in the store *)

(** The value is a reference to an object of the store. *)
Definition object_ref (s : Heap.store) (v : Heap.hvalue) : Prop :=
  exists l o, v = Heap.HRef l /\ nth_error (Heap.objects s) l = Some o.

(** The value is a reference to an object allocated after [s0]. *)
Definition fresh_ref (s0 : Heap.store) (v : Heap.hvalue) : Prop :=
  exists c, v = Heap.HRef c /\ List.length (Heap.objects s0) <= c.

(** No field of the store holds a dangling reference. *)
Definition closed (s : Heap.store) : Prop :=
  forall l o k l', nth_error (Heap.objects s) l = Some o ->
                   In (k, Heap.HRef l') o ->
                   l' < List.length (Heap.objects s).

(** What the [reduce] of [normalize] maintains about sharing: the
    accumulator is an object allocated by the call, and its values are
    members of the collection. *)
Definition normalize_shares (s0 : Heap.store) (xs : list Heap.hvalue)
    (acc : Heap.loc) (s : Heap.store) : Prop :=
  Heap.unchanged s0 s /\
  List.length (Heap.objects s0) <= acc /\
  exists ao, nth_error (Heap.objects s) acc = Some ao /\
             forall v, In v (Props.values ao) -> In v xs.

(** The value is an object that the nested field of an item of the
    caller can hold: an object of the caller, or [Object.prototype]. *)
Definition nested_ref (s0 : Heap.store) (v : Heap.hvalue) : Prop :=
  object_ref s0 v \/ v = Heap.HBuiltin ObjectPrototype.

(** The prototype slot holds nothing, or a value like [v]. *)
Definition slot_of (P : Heap.hvalue -> Prop) (p : Heap.slot) : Prop :=
  match p with
  | Some v => P v
  | None => True
  end.

(** The value is a reference to an object of [s] other than the two maps. *)
Definition copy_ref (s : Heap.store) (entities normalizedItems : Heap.loc)
    (v : Heap.hvalue) : Prop :=
  exists c, v = Heap.HRef c /\ c <> entities /\ c <> normalizedItems /\
            c < List.length (Heap.objects s).

(** What the [forEach] of [extractEntities] maintains about sharing:
    the entities map refers to objects of the caller, the items map to
    objects allocated by the call. *)
Definition extract_shares (s0 : Heap.store) (entities normalizedItems : Heap.loc)
    (protos : Heap.slot * Heap.slot) (s : Heap.store) : Prop :=
  Heap.unchanged s0 s /\
  Heap.console s = Heap.console s0 /\
  List.length (Heap.objects s0) <= entities /\
  List.length (Heap.objects s0) <= normalizedItems /\
  entities <> normalizedItems /\
  (exists eo, nth_error (Heap.objects s) entities = Some eo /\
              forall v, In v (Props.values eo) -> nested_ref s0 v) /\
  (exists io, nth_error (Heap.objects s) normalizedItems = Some io /\
              forall v, In v (Props.values io) -> fresh_ref s0 v) /\
  slot_of (nested_ref s0) (fst protos) /\
  slot_of (copy_ref s entities normalizedItems) (snd protos).

(** ** Example data of the documentation *)

Definition users_example : list record :=
  [ [("id", VNum 1); ("name", VStr "John")];
    [("id", VNum 2); ("name", VStr "Jane")] ].

Definition john : value := VObj [("id", VNum 10); ("name", VStr "John")].

Definition posts_example : list record :=
  [ [("id", VNum 1); ("title", VStr "P1"); ("author", john)];
    [("id", VNum 2); ("title", VStr "P2"); ("author", john)] ].

(** Two records whose identifiers differ as values ([1] and ["1"]) and
    agree as property names. *)
Definition clash_example : list record :=
  [ [("id", VNum 1); ("name", VStr "a")];
    [("id", VStr "1"); ("name", VStr "b")] ].

(** A record whose identifier field is present and holds [null]. *)
Definition null_example : list record :=
  [ [("id", VNull); ("name", VStr "a")] ].

(** Two records with the same identifier and different fields. *)
Definition duplicate_example : list record :=
  [ [("id", VNum 1); ("name", VStr "a")];
    [("id", VNum 1); ("name", VStr "b")] ].

(** A record with a usable identifier and a record without the field. *)
Definition mixed_example : list record :=
  [ [("id", VNum 1); ("name", VStr "John")];
    [("name", VStr "Nobody")] ].

(** A record without identifier; it inherits the members of
    [Object.prototype], as every record does. *)
Definition inherited_example : list record :=
  [ [("a", VNum 1)] ].

(** Two records with the identifier [1] followed by a record with the
    identifier ["1"]. *)
Definition triple_example : list record :=
  [ [("id", VNum 1); ("name", VStr "a")];
    [("id", VNum 1); ("name", VStr "b")];
    [("id", VStr "1"); ("name", VStr "c")] ].

(** A post whose author has the identifier ["__proto__"]. *)
Definition proto_example : list record :=
  [ [("id", VNum 1); ("title", VStr "P1");
     ("author", VObj [("id", VStr "__proto__"); ("name", VStr "John")])] ].

(** A store whose only object refers to itself. *)
Definition cyclic_store : Heap.store :=
  {| Heap.objects := [ [("id", Heap.HNum 1); ("self", Heap.HRef 0)] ];
     Heap.arrays := [ [Heap.HRef 0] ];
     Heap.console := [] |}.

(** * Properties *)

(** ** Facts about property lists *)

Module PropsFacts.
Import Props.
Section WithValues.
Context {A : Type}.
Implicit Types (o : Props.t A) (k : string) (v : A).

Lemma has_true_iff k o : has k o = true <-> exists v, lookup k o = Some v.
Proof.
  unfold has. destruct (lookup k o) as [x|]; split; intros H;
    try discriminate; eauto. destruct H as [? H]; discriminate.
Qed.

Lemma has_false_iff k o : has k o = false <-> lookup k o = None.
Proof.
  unfold has. destruct (lookup k o); split; intros H; congruence.
Qed.

Lemma lookup_None_keys k o : lookup k o = None <-> ~ In k (keys o).
Proof.
  induction o as [|[k' x] o IH]; simpl.
  - tauto.
  - destruct (String.eqb_spec k k') as [->|Hne].
    + split; [discriminate | intros H; exfalso; apply H; now left].
    + rewrite IH. split; intros H; [intros [E|I]; [congruence | tauto] | tauto].
Qed.

Lemma lookup_Some_In k v o : lookup k o = Some v -> In (k, v) o.
Proof.
  induction o as [|[k' x] o IH]; simpl; [discriminate|].
  destruct (String.eqb_spec k k') as [->|Hne]; intros H.
  - left. congruence.
  - right. auto.
Qed.

Lemma In_lookup_Some k v o : NoDup (keys o) -> In (k, v) o -> lookup k o = Some v.
Proof.
  induction o as [|[k' x] o IH]; simpl; [tauto|].
  intros Hnd [E|I]; inversion Hnd as [|? ? Hni Hnd']; subst.
  - inversion E; subst. now rewrite String.eqb_refl.
  - destruct (String.eqb_spec k k') as [->|Hne]; [|auto].
    exfalso. apply Hni. change k' with (fst (k', v)). now apply in_map.
Qed.

Lemma lookup_Some_keys k v o : lookup k o = Some v -> In k (keys o).
Proof.
  intros H. apply lookup_Some_In in H. change k with (fst (k, v)).
  now apply in_map.
Qed.

(** *** [replace] *)

Lemma keys_replace k v o : keys (replace k v o) = keys o.
Proof.
  induction o as [|[k' x] o IH]; simpl; [reflexivity|].
  destruct (String.eqb_spec k k') as [->|Hne]; simpl; [reflexivity|].
  now rewrite IH.
Qed.

Lemma lookup_replace_eq k v o x :
  lookup k o = Some x -> lookup k (replace k v o) = Some v.
Proof.
  induction o as [|[k' y] o IH]; simpl; [discriminate|].
  destruct (String.eqb_spec k k') as [->|Hne]; simpl.
  - now rewrite String.eqb_refl.
  - destruct (String.eqb_spec k k'); [contradiction | auto].
Qed.

Lemma lookup_replace_ne k k' v o :
  k' <> k -> lookup k' (replace k v o) = lookup k' o.
Proof.
  intros Hne. induction o as [|[k0 y] o IH]; simpl; [reflexivity|].
  destruct (String.eqb_spec k k0) as [->|Hne0]; simpl.
  - destruct (String.eqb_spec k' k0); [contradiction | reflexivity].
  - now rewrite IH.
Qed.

Lemma In_values_replace k v o x :
  In x (values (replace k v o)) -> x = v \/ In x (values o).
Proof.
  induction o as [|[k' y] o IH]; simpl; [tauto|].
  destruct (String.eqb_spec k k') as [->|Hne]; simpl.
  - intros [E|I]; auto.
  - intros [E|I]; auto. destruct (IH I); auto.
Qed.

(** *** [insert_index] *)

Lemma insert_index_Permutation n k v o :
  Permutation (insert_index n k v o) ((k, v) :: o).
Proof.
  induction o as [|[k' y] o IH]; simpl; [reflexivity|].
  destruct (array_index k') as [m|]; [|reflexivity].
  destruct (N.ltb m n); [|reflexivity].
  rewrite IH. apply perm_swap.
Qed.

Lemma lookup_insert_index_eq n k v o :
  lookup k o = None -> lookup k (insert_index n k v o) = Some v.
Proof.
  induction o as [|[k' y] o IH]; simpl.
  - now rewrite String.eqb_refl.
  - destruct (String.eqb_spec k k') as [->|Hne]; [discriminate|]. intros H.
    destruct (array_index k') as [m|]; [destruct (N.ltb m n)|]; simpl;
      rewrite ?String.eqb_refl; auto.
    destruct (String.eqb_spec k k'); [contradiction | auto].
Qed.

Lemma lookup_insert_index_ne n k k' v o :
  k' <> k -> lookup k' (insert_index n k v o) = lookup k' o.
Proof.
  intros Hne. induction o as [|[k0 y] o IH]; simpl.
  - destruct (String.eqb_spec k' k); [contradiction | reflexivity].
  - destruct (array_index k0) as [m|]; [destruct (N.ltb m n)|]; simpl;
      try (destruct (String.eqb_spec k' k); [contradiction | reflexivity]).
    now rewrite IH.
Qed.

(** *** appending a property *)

Lemma lookup_app_eq k v o :
  lookup k o = None -> lookup k (o ++ [(k, v)]) = Some v.
Proof.
  induction o as [|[k' y] o IH]; simpl.
  - now rewrite String.eqb_refl.
  - destruct (String.eqb_spec k k'); [discriminate | auto].
Qed.

Lemma lookup_app_ne k k' v o :
  k' <> k -> lookup k' (o ++ [(k, v)]) = lookup k' o.
Proof.
  intros Hne. induction o as [|[k0 y] o IH]; simpl.
  - destruct (String.eqb_spec k' k); [contradiction | reflexivity].
  - now rewrite IH.
Qed.

(** *** [set] *)

Lemma lookup_set_eq k v o : lookup k (set k v o) = Some v.
Proof.
  unfold set, has. destruct (lookup k o) as [x|] eqn:E.
  - eapply lookup_replace_eq; eauto.
  - destruct (array_index k).
    + now apply lookup_insert_index_eq.
    + now apply lookup_app_eq.
Qed.

Lemma lookup_set_ne k k' v o : k' <> k -> lookup k' (set k v o) = lookup k' o.
Proof.
  intros Hne. unfold set. destruct (has k o).
  - now apply lookup_replace_ne.
  - destruct (array_index k).
    + now apply lookup_insert_index_ne.
    + now apply lookup_app_ne.
Qed.


Lemma set_fresh_Permutation k v o :
  lookup k o = None -> Permutation (set k v o) ((k, v) :: o).
Proof.
  intros H. unfold set, has. rewrite H. destruct (array_index k).
  - apply insert_index_Permutation.
  - rewrite Permutation_app_comm. reflexivity.
Qed.

Lemma keys_set_present k v o x : lookup k o = Some x -> keys (set k v o) = keys o.
Proof. intros H. unfold set, has. rewrite H. apply keys_replace. Qed.

Lemma keys_set_fresh k v o :
  lookup k o = None -> Permutation (keys (set k v o)) (k :: keys o).
Proof.
  intros H. unfold keys.
  rewrite (Permutation_map fst (set_fresh_Permutation k v o H)). reflexivity.
Qed.

Lemma In_keys_set k k' v o :
  In k' (keys (set k v o)) <-> k' = k \/ In k' (keys o).
Proof.
  destruct (lookup k o) as [x|] eqn:E.
  - rewrite (keys_set_present _ _ _ _ E). split; [tauto|].
    intros [->|I]; [|assumption]. eapply lookup_Some_keys; eauto.
  - split; intros H.
    + apply (Permutation_in _ (keys_set_fresh k v o E)) in H.
      destruct H; [left; congruence | now right].
    + apply (Permutation_in _ (Permutation_sym (keys_set_fresh k v o E))).
      destruct H; [left; congruence | now right].
Qed.

Lemma NoDup_keys_set k v o : NoDup (keys o) -> NoDup (keys (set k v o)).
Proof.
  intros Hnd. destruct (lookup k o) as [x|] eqn:E.
  - now rewrite (keys_set_present _ _ _ _ E).
  - apply (Permutation_NoDup (Permutation_sym (keys_set_fresh k v o E))).
    constructor; [|assumption]. now apply lookup_None_keys.
Qed.

Lemma In_values_set k v o x :
  In x (values (set k v o)) -> x = v \/ In x (values o).
Proof.
  destruct (lookup k o) as [y|] eqn:E; unfold set, has; rewrite E.
  - apply In_values_replace.
  - intros H.
    assert (P : Permutation (values (set k v o)) (v :: values o)).
    { unfold values.
      rewrite (Permutation_map snd (set_fresh_Permutation k v o E)).
      reflexivity. }
    unfold set, has in P; rewrite E in P.
    apply (Permutation_in _ P) in H. destruct H; [left; congruence | now right].
Qed.

Lemma values_set_fresh k v o :
  lookup k o = None -> Permutation (values (set k v o)) (v :: values o).
Proof.
  intros H. unfold values.
  rewrite (Permutation_map snd (set_fresh_Permutation k v o H)). reflexivity.
Qed.

(** *** [delete] *)

Lemma lookup_delete_eq k o : lookup k (delete k o) = None.
Proof.
  induction o as [|[k' y] o IH]; simpl; [reflexivity|].
  destruct (String.eqb_spec k k') as [->|Hne]; [assumption|].
  simpl. destruct (String.eqb_spec k k'); [contradiction | assumption].
Qed.

Lemma lookup_delete_ne k k' o : k' <> k -> lookup k' (delete k o) = lookup k' o.
Proof.
  intros Hne. induction o as [|[k0 y] o IH]; simpl; [reflexivity|].
  destruct (String.eqb_spec k k0) as [->|Hne0]; simpl.
  - destruct (String.eqb_spec k' k0); [contradiction | assumption].
  - now rewrite IH.
Qed.


Lemma In_replace_inv k0 v o k x :
  In (k, x) (replace k0 v o) -> (k = k0 /\ x = v) \/ In (k, x) o.
Proof.
  induction o as [|[k' y] o IH]; simpl; [tauto|].
  destruct (String.eqb k0 k'); simpl.
  - intros [E|I]; [inversion E; auto | auto].
  - intros [E|I]; [auto|]. destruct (IH I); auto.
Qed.

Lemma In_set_inv k0 v o k x :
  In (k, x) (set k0 v o) -> (k = k0 /\ x = v) \/ In (k, x) o.
Proof.
  unfold set. destruct (has k0 o); [apply In_replace_inv|].
  destruct (array_index k0); intros H.
  - apply (Permutation_in _ (insert_index_Permutation _ _ _ _)) in H.
    destruct H as [E|I]; [inversion E; auto | auto].
  - apply in_app_or in H. destruct H as [I|[E|[]]]; [auto | inversion E; auto].
Qed.

Lemma In_delete_inv k0 o k x :
  In (k, x) (delete k0 o) -> In (k, x) o.
Proof.
  induction o as [|[k' y] o IH]; simpl; [tauto|].
  destruct (String.eqb k0 k'); simpl; intuition.
Qed.

(** *** assignment *)

Lemma sets_prototype_plain k o : k <> "__proto__" -> sets_prototype k o = false.
Proof.
  intros H. unfold sets_prototype. apply String.eqb_neq in H. rewrite H.
  apply andb_false_r.
Qed.

Lemma sets_prototype_true k o :
  sets_prototype k o = true -> k = "__proto__" /\ has "__proto__" o = false.
Proof.
  unfold sets_prototype. intros H. apply andb_true_iff in H. destruct H as [H1 H2].
  apply String.eqb_eq in H2. subst k. split; [reflexivity|].
  now apply negb_true_iff in H1.
Qed.

Lemma put_plain k v o : k <> "__proto__" -> put k v o = set k v o.
Proof. intros H. unfold put. now rewrite sets_prototype_plain. Qed.

Lemma write_plain (sh : A -> bool) k v (m : obj A) :
  k <> "__proto__" ->
  write sh k v m = {| own := set k v (own m); proto := proto m |}.
Proof. intros H. unfold write. now rewrite sets_prototype_plain. Qed.

Lemma write_cases (sh : A -> bool) k v (m : obj A) :
  (k = "__proto__" /\ has "__proto__" (own m) = false /\
   write sh k v m = {| own := own m; proto := Some v |}) \/
  write sh k v m = {| own := set k v (own m); proto := proto m |}.
Proof.
  unfold write.
  destruct (sets_prototype k (own m)) eqn:E; [|now right].
  destruct (negb _); [|now right].
  apply sets_prototype_true in E. destruct E as [-> E]. left. auto.
Qed.

Lemma lookup_write_eq (sh : A -> bool) k v (m : obj A) :
  k <> "__proto__" -> lookup k (own (write sh k v m)) = Some v.
Proof. intros H. rewrite write_plain by assumption. apply lookup_set_eq. Qed.

Lemma lookup_write_ne (sh : A -> bool) k k' v (m : obj A) :
  k' <> k -> lookup k' (own (write sh k v m)) = lookup k' (own m).
Proof.
  intros H. destruct (write_cases sh k v m) as [(_ & _ & ->)| ->]; simpl.
  - reflexivity.
  - now apply lookup_set_ne.
Qed.

Lemma In_write_inv (sh : A -> bool) k0 v (m : obj A) k x :
  In (k, x) (own (write sh k0 v m)) -> (k = k0 /\ x = v) \/ In (k, x) (own m).
Proof.
  destruct (write_cases sh k0 v m) as [(_ & _ & ->)| ->]; simpl.
  - auto.
  - apply In_set_inv.
Qed.

Lemma NoDup_keys_write (sh : A -> bool) k v (m : obj A) :
  NoDup (keys (own m)) -> NoDup (keys (own (write sh k v m))).
Proof.
  destruct (write_cases sh k v m) as [(_ & _ & ->)| ->]; simpl.
  - auto.
  - apply NoDup_keys_set.
Qed.

End WithValues.
End PropsFacts.

(** ** Facts about inherited names *)

Lemma inherited_false k : inherited k = false <-> prototype_member k = None.
Proof.
  unfold inherited. destruct (prototype_member k); split; congruence.
Qed.

Lemma get_own k o v : Props.lookup k o = Some v -> get k o = v.
Proof. intros H. unfold get. now rewrite H. Qed.

Lemma get_absent k o :
  has_property k o = false -> get k o = VUndefined.
Proof.
  unfold has_property, Props.has, get. intros H.
  apply orb_false_iff in H. destruct H as [H1 H2].
  destruct (Props.lookup k o); [discriminate|].
  apply inherited_false in H2. now rewrite H2.
Qed.

Lemma has_property_false {A : Type} k (o : Props.t A) :
  has_property k o = false <-> Props.lookup k o = None /\ inherited k = false.
Proof.
  unfold has_property. rewrite orb_false_iff, PropsFacts.has_false_iff. tauto.
Qed.

Lemma append_Id_plain (s : string) : (s ++ "Id")%string <> "__proto__".
Proof.
  intros E.
  do 9 (destruct s as [|? s]; [simpl in E; discriminate E|];
        simpl in E; injection E as _ E).
  destruct s; simpl in E; discriminate E.
Qed.

Lemma put_Id {A : Type} (s : string) (v : A) (o : Props.t A) :
  Props.put (s ++ "Id") v o = Props.set (s ++ "Id") v o.
Proof. apply PropsFacts.put_plain, append_Id_plain. Qed.

(** ** Facts about filling an object by assignments *)

Section WriteEach.
Import Props PropsFacts.
Context {A B : Type} (sh : A -> bool) (kf : B -> string) (vf : B -> A).

Lemma write_each_app l1 l2 (acc : Props.obj A) :
  write_each sh kf vf (l1 ++ l2) acc =
  write_each sh kf vf l2 (write_each sh kf vf l1 acc).
Proof. unfold write_each. apply fold_left_app. Qed.

(** Under a name other than [__proto__], the last element assigned
    wins. *)
Lemma lookup_write_each k l (acc : Props.obj A) :
  k <> "__proto__" ->
  lookup k (own (write_each sh kf vf l acc)) =
  match find (fun r => String.eqb (kf r) k) (rev l) with
  | Some r => Some (vf r)
  | None => lookup k (own acc)
  end.
Proof.
  intros Hk. revert acc. induction l as [|r l IH] using rev_ind; intros acc.
  - reflexivity.
  - rewrite write_each_app, rev_app_distr. simpl.
    destruct (String.eqb_spec (kf r) k) as [E|Hne].
    + subst k. now apply lookup_write_eq.
    + rewrite lookup_write_ne by congruence. apply IH.
Qed.

(** Every own property was assigned, or was there before. *)
Lemma In_write_each_inv k x l (acc : Props.obj A) :
  In (k, x) (own (write_each sh kf vf l acc)) ->
  (exists r, In r l /\ kf r = k /\ vf r = x) \/ In (k, x) (own acc).
Proof.
  revert acc. induction l as [|r l IH]; intros acc; simpl; [auto|].
  change (fold_left _ l ?a) with (write_each sh kf vf l a).
  intros H. apply IH in H. destruct H as [(r' & Hin & Hk & Hv)|H].
  - left. exists r'. auto.
  - apply In_write_inv in H. destruct H as [[-> ->]|H]; [|auto].
    left. exists r. auto.
Qed.

Lemma NoDup_keys_write_each l (acc : Props.obj A) :
  NoDup (keys (own acc)) -> NoDup (keys (own (write_each sh kf vf l acc))).
Proof.
  revert acc. induction l as [|r l IH]; intros acc H; simpl; [assumption|].
  apply IH. now apply NoDup_keys_write.
Qed.

End WriteEach.

(** ** Facts about filing a list into a property list *)

Section SetEach.
Import Props PropsFacts.
Context {A B : Type} (kf : B -> string) (vf : B -> A).

Lemma set_each_app l1 l2 (acc : Props.t A) :
  set_each kf vf (l1 ++ l2) acc = set_each kf vf l2 (set_each kf vf l1 acc).
Proof. unfold set_each. apply fold_left_app. Qed.

(** The last element filed under a name wins. *)
Lemma lookup_set_each k l (acc : Props.t A) :
  lookup k (set_each kf vf l acc) =
  match find (fun r => String.eqb (kf r) k) (rev l) with
  | Some r => Some (vf r)
  | None => lookup k acc
  end.
Proof.
  revert acc. induction l as [|r l IH] using rev_ind; intros acc.
  - reflexivity.
  - rewrite set_each_app, rev_app_distr. simpl.
    destruct (String.eqb_spec (kf r) k) as [<-|Hne].
    + apply lookup_set_eq.
    + rewrite lookup_set_ne by congruence. apply IH.
Qed.

Lemma NoDup_keys_set_each l (acc : Props.t A) :
  NoDup (keys acc) -> NoDup (keys (set_each kf vf l acc)).
Proof.
  revert acc. induction l as [|r l IH]; intros acc H; simpl; [assumption|].
  apply IH. now apply NoDup_keys_set.
Qed.

Lemma In_keys_set_each k l (acc : Props.t A) :
  In k (keys (set_each kf vf l acc)) <-> In k (map kf l) \/ In k (keys acc).
Proof.
  revert acc. induction l as [|r l IH]; intros acc; simpl; [tauto|].
  change (fold_left _ l ?a) with (set_each kf vf l a).
  rewrite IH, In_keys_set. intuition congruence.
Qed.

(** Assignments under names other than [__proto__] define properties. *)
Lemma write_each_plain (sh : A -> bool) l (acc : Props.obj A) :
  (forall r, In r l -> kf r <> "__proto__") ->
  write_each sh kf vf l acc =
  {| own := set_each kf vf l (own acc); proto := proto acc |}.
Proof.
  revert acc. induction l as [|r l IH]; intros acc H; simpl.
  - now destruct acc.
  - change (fold_left _ l ?a) with (write_each sh kf vf l a).
    rewrite write_plain by (apply H; now left).
    rewrite IH by (intros x Hx; apply H; now right). reflexivity.
Qed.

(** The names assigned, [__proto__] apart, are names of the object. *)
Lemma In_keys_write_each (sh : A -> bool) k l (acc : Props.obj A) :
  (In k (keys (own (write_each sh kf vf l acc))) ->
   In k (map kf l) \/ In k (keys (own acc))) /\
  (k <> "__proto__" -> In k (map kf l) \/ In k (keys (own acc)) ->
   In k (keys (own (write_each sh kf vf l acc)))).
Proof.
  split.
  - intros H. unfold keys in H. apply in_map_iff in H.
    destruct H as [[k' x] [E H]]. simpl in E. subst k'.
    apply In_write_each_inv in H. destruct H as [(r & Hin & <- & _)|H].
    + left. now apply in_map.
    + right. unfold keys. change k with (fst (k, x)). now apply in_map.
  - intros Hk H.
    destruct (lookup k (own (write_each sh kf vf l acc))) as [x|] eqn:E.
    + eapply lookup_Some_keys; eauto.
    + exfalso. rewrite lookup_write_each in E by assumption.
      destruct (find _ (rev l)) as [r|] eqn:F; [discriminate|].
      destruct H as [H|H].
      * apply in_map_iff in H. destruct H as (r & <- & Hin).
        apply in_rev in Hin. pose proof (find_none _ _ F r Hin) as N.
        simpl in N. now rewrite String.eqb_refl in N.
      * apply lookup_None_keys in E. contradiction.
Qed.

(** Without collisions nothing is lost. *)
Lemma values_set_each_Permutation l (acc : Props.t A) :
  NoDup (map kf l) ->
  (forall r, In r l -> lookup (kf r) acc = None) ->
  Permutation (values (set_each kf vf l acc)) (values acc ++ map vf l).
Proof.
  revert acc. induction l as [|r l IH]; intros acc Hnd Hfresh; simpl.
  - now rewrite app_nil_r.
  - change (fold_left _ l ?a) with (set_each kf vf l a).
    inversion Hnd as [|? ? Hni Hnd']; subst.
    rewrite IH; trivial.
    + rewrite (values_set_fresh (kf r) (vf r) acc) by (apply Hfresh; now left).
      simpl. apply Permutation_middle.
    + intros r' Hr'. rewrite lookup_set_ne.
      * apply Hfresh. now right.
      * intros E. apply Hni. rewrite <- E. now apply in_map.
Qed.

End SetEach.

(** ** [normalize] *)

Section Normalize.
Import Props PropsFacts.
Variable key : string.

Lemma normalize_fold arr acc console :
  fold_left (normalize_step key) arr (acc, console) =
  (set_each (identifier_key key) (fun r => r) (filter (has_identifier key) arr) acc,
   console ++ map (Warn (missing_key_message key))
                  (filter (fun r => is_nullish (get key r)) arr)).
Proof.
  revert acc console. induction arr as [|r arr IH]; intros acc console; simpl.
  - now rewrite app_nil_r.
  - unfold has_identifier at 1. destruct (is_nullish (get key r)); simpl.
    + rewrite IH, <- app_assoc. reflexivity.
    + rewrite IH. reflexivity.
Qed.

Lemma normalize_set_each arr :
  normalize arr key =
  set_each (identifier_key key) (fun r => r) (filter (has_identifier key) arr) empty.
Proof. unfold normalize, normalize_run. now rewrite normalize_fold. Qed.

Lemma normalize_warnings_filter arr :
  normalize_warnings arr key =
  map (Warn (missing_key_message key)) (filter (fun r => is_nullish (get key r)) arr).
Proof. unfold normalize_warnings, normalize_run. now rewrite normalize_fold. Qed.

Lemma find_rev_filter {X : Type} (p q : X -> bool) (l : list X) :
  find (fun x => q x) (rev (filter p l)) = find (fun x => p x && q x) (rev l).
Proof.
  induction l as [|x l IH] using rev_ind; [reflexivity|].
  rewrite filter_app, !rev_app_distr. simpl.
  destruct (p x); simpl; [|assumption].
  destruct (q x); [reflexivity | assumption].
Qed.

(** The map sends a property name to the last record that claims it. *)
Lemma lookup_normalize k arr :
  lookup k (normalize arr key) = find (claims key k) (rev arr).
Proof.
  rewrite normalize_set_each, lookup_set_each.
  rewrite (find_rev_filter (has_identifier key)
             (fun r => String.eqb (identifier_key key r) k)).
  unfold claims. now destruct (find _ (rev arr)).
Qed.

Lemma NoDup_keys_normalize arr : NoDup (keys (normalize arr key)).
Proof. rewrite normalize_set_each. apply NoDup_keys_set_each. constructor. Qed.

Lemma In_keys_normalize k arr :
  In k (keys (normalize arr key)) <->
  In k (map (identifier_key key) (filter (has_identifier key) arr)).
Proof.
  rewrite normalize_set_each, In_keys_set_each. simpl. tauto.
Qed.

(** Every stored record is stored under its own identifier. *)
Lemma In_values_normalize r arr :
  In r (values (normalize arr key)) ->
  has_identifier key r = true /\
  lookup (identifier_key key r) (normalize arr key) = Some r.
Proof.
  intros H. unfold values in H. apply in_map_iff in H.
  destruct H as [[k r'] [E I]]. simpl in E. subst r'.
  apply In_lookup_Some in I; [|apply NoDup_keys_normalize].
  pose proof I as I'. rewrite lookup_normalize in I'.
  apply find_some in I'. destruct I' as [_ C]. unfold claims in C.
  apply andb_true_iff in C. destruct C as [C1 C2].
  apply String.eqb_eq in C2. now rewrite C2.
Qed.

Lemma find_rev_last {X : Type} (p : X -> bool) (l1 l2 : list X) (x : X) :
  p x = true -> (forall y, In y l2 -> p y = false) ->
  find p (rev (l1 ++ x :: l2)) = Some x.
Proof.
  intros Hx Hl2. rewrite rev_app_distr. simpl. rewrite <- app_assoc. simpl.
  induction l2 as [|y l2 IH] using rev_ind; simpl.
  - now rewrite Hx.
  - rewrite rev_app_distr. simpl. rewrite (Hl2 y) by (apply in_or_app; right; now left).
    apply IH. intros z Hz. apply Hl2. apply in_or_app. now left.
Qed.

End Normalize.

Lemma filter_all_true {X : Type} (p : X -> bool) (l : list X) :
  (forall x, In x l -> p x = true) -> filter p l = l.
Proof.
  induction l as [|x l IH]; intros H; simpl; [reflexivity|].
  rewrite (H x) by now left. rewrite IH; [reflexivity|].
  intros y Hy. apply H. now right.
Qed.

Example normalize_users_example :
  normalize users_example "id" =
  [ ("1", [("id", VNum 1); ("name", VStr "John")]);
    ("2", [("id", VNum 2); ("name", VStr "Jane")]) ].
Proof. reflexivity. Qed.

(** Enumeration order is by array index first: the round trip does not
    keep the order of the collection. *)
Example denormalize_reorders :
  denormalize (normalize [ [("id", VNum 2)]; [("id", VNum 1)] ] "id") =
  [ [("id", VNum 1)]; [("id", VNum 2)] ].
Proof. reflexivity. Qed.

(** C1, as amended: for every collection in which every record holds an
    identifier that is neither undefined nor null, and in which the
    property names of the identifiers are pairwise distinct,
    [denormalize (normalize C)] is a rearrangement of [C]: it has exactly
    the records of [C]. *)
Theorem normalize_denormalize_roundtrip (C : list record) (key : string) :
  (forall r, In r C -> has_identifier key r = true) ->
  NoDup (map (identifier_key key) C) ->
  Permutation (denormalize (normalize C key)) C /\
  (forall r, In r (denormalize (normalize C key)) <-> In r C).
Proof.
  intros Hid Hnd.
  assert (P : Permutation (denormalize (normalize C key)) C).
  { unfold denormalize. rewrite normalize_set_each.
    rewrite (filter_all_true _ _ Hid).
    rewrite values_set_each_Permutation; simpl; trivial.
    now rewrite map_id. }
  split; [exact P|].
  intros r. split; intros H.
  - exact (Permutation_in _ P H).
  - exact (Permutation_in _ (Permutation_sym P) H).
Qed.

Lemma normalize_denormalize_roundtrip_witness :
  Permutation (denormalize (normalize users_example "id")) users_example /\
  (forall r, In r (denormalize (normalize users_example "id")) <->
             In r users_example).
Proof.
  apply (normalize_denormalize_roundtrip users_example "id").
  - intros r [<-|[<-|[]]]; reflexivity.
  - repeat constructor; simpl; intuition discriminate.
Defined.

(** C1 as stated fails: the two records of [clash_example] carry the
    identifier field with distinct values, and the first one is lost; the
    record of [null_example] carries the field and is lost as well. *)
Lemma normalize_denormalize_roundtrip_counterexample :
  ((forall r, In r clash_example -> Props.has "id" r = true) /\
   NoDup (map (get "id") clash_example) /\
   ~ (forall r, In r (denormalize (normalize clash_example "id")) <->
                In r clash_example)) /\
  ((forall r, In r null_example -> Props.has "id" r = true) /\
   NoDup (map (get "id") null_example) /\
   denormalize (normalize null_example "id") = []).
Proof.
  split; [|split; [|split]];
    [| intros r [<-|[]]; reflexivity
     | repeat constructor; simpl; tauto
     | reflexivity ].
  split; [|split].
  - intros r [<-|[<-|[]]]; reflexivity.
  - repeat constructor; simpl; intuition discriminate.
  - intros H.
    assert (I : In [("id", VNum 1); ("name", VStr "a")]
                   (denormalize (normalize clash_example "id"))).
    { apply H. now left. }
    simpl in I. destruct I as [E|[]]. discriminate E.
Qed.

(** C2, as amended: when the identifier field is not the name of a member
    of [Object.prototype], [normalize] keeps no record that lacks the
    field; the size of the resulting map is the number of distinct
    property names among the identifiers that are neither undefined nor
    null, and when no two such records share a property name it is the
    number of those records. *)
Theorem normalize_skips_and_size (C : list record) (key : string) :
  (inherited key = false ->
   forall r, In r C -> Props.has key r = false ->
             ~ In r (Props.values (normalize C key))) /\
  List.length (Props.keys (normalize C key)) =
    List.length (nodup string_dec
                   (map (identifier_key key) (filter (has_identifier key) C))) /\
  (NoDup (map (identifier_key key) (filter (has_identifier key) C)) ->
   List.length (Props.keys (normalize C key)) =
     List.length (filter (has_identifier key) C)).
Proof.
  assert (L : List.length (Props.keys (normalize C key)) =
    List.length (nodup string_dec
                   (map (identifier_key key) (filter (has_identifier key) C)))).
  { apply Permutation_length, NoDup_Permutation.
    - apply NoDup_keys_normalize.
    - apply NoDup_nodup.
    - intros k. rewrite In_keys_normalize, nodup_In. tauto. }
  split; [|split].
  - intros Hkey r _ Hlack Hin. apply In_values_normalize in Hin.
    destruct Hin as [Hid _]. unfold has_identifier in Hid.
    rewrite get_absent in Hid; [discriminate|].
    unfold has_property. now rewrite Hlack, Hkey.
  - exact L.
  - intros Hnd. rewrite L, nodup_fixed_point by assumption. apply length_map.
Qed.

Lemma normalize_skips_and_size_witness :
  ~ In [("name", VStr "Nobody")] (Props.values (normalize mixed_example "id")) /\
  List.length (Props.keys (normalize mixed_example "id")) =
  List.length (filter (has_identifier "id") mixed_example).
Proof.
  destruct (normalize_skips_and_size mixed_example "id") as (H1 & _ & H3).
  split.
  - apply H1; [reflexivity | right; left; reflexivity | reflexivity].
  - apply H3. repeat constructor; simpl; intuition discriminate.
Defined.

(** C2 as stated fails: both records of [duplicate_example] have the
    identifier field, and the map has one entry; the record of
    [null_example] has the field, and the map is empty; the record of
    [inherited_example] has no field [constructor], and it is in the map
    that [normalize] builds for that field, filed under the text of the
    inherited function. *)
Lemma normalize_skips_and_size_counterexample :
  List.length (Props.keys (normalize duplicate_example "id")) <>
    List.length (filter (Props.has "id") duplicate_example) /\
  List.length (Props.keys (normalize null_example "id")) <>
    List.length (filter (Props.has "id") null_example) /\
  (forall r, In r inherited_example -> Props.has "constructor" r = false) /\
  In [("a", VNum 1)] (Props.values (normalize inherited_example "constructor")).
Proof.
  split; [|split; [|split]]; try (simpl; discriminate).
  - intros r [<-|[]]. reflexivity.
  - left. reflexivity.
Qed.

(** C3, as amended: when two records of a collection carry the same
    identifier and no record after the later one is filed under the same
    property name, [normalize] maps the identifier to the later record;
    the earlier one, if its fields differ, is not in the map.
    [normalize] is a total function: there is no error outcome. *)
Theorem normalize_last_write_wins (key : string)
    (l1 : list record) (r1 : record) (l2 : list record) (r2 : record)
    (l3 : list record) :
  has_identifier key r1 = true ->
  get key r1 = get key r2 ->
  (forall r, In r l3 -> claims key (identifier_key key r2) r = false) ->
  Props.lookup (identifier_key key r2)
               (normalize (l1 ++ r1 :: l2 ++ r2 :: l3) key) = Some r2 /\
  (r1 <> r2 ->
   ~ In r1 (Props.values (normalize (l1 ++ r1 :: l2 ++ r2 :: l3) key))).
Proof.
  intros Hid Hsame Hlast.
  assert (L : Props.lookup (identifier_key key r2)
               (normalize (l1 ++ r1 :: l2 ++ r2 :: l3) key) = Some r2).
  { rewrite lookup_normalize.
    change (l1 ++ r1 :: l2 ++ r2 :: l3) with (l1 ++ (r1 :: l2) ++ r2 :: l3).
    rewrite app_assoc. apply find_rev_last; [|assumption].
    unfold claims, has_identifier, identifier_key in *.
    rewrite <- Hsame, Hid. simpl. apply String.eqb_refl. }
  split; [exact L|].
  intros Hne Hin. apply In_values_normalize in Hin. destruct Hin as [_ Hin].
  unfold identifier_key in Hin, L. rewrite Hsame in Hin. congruence.
Qed.

Lemma normalize_last_write_wins_witness :
  Props.lookup "1" (normalize duplicate_example "id") =
    Some [("id", VNum 1); ("name", VStr "b")] /\
  ~ In [("id", VNum 1); ("name", VStr "a")]
       (Props.values (normalize duplicate_example "id")).
Proof.
  destruct (normalize_last_write_wins "id" []
              [("id", VNum 1); ("name", VStr "a")] []
              [("id", VNum 1); ("name", VStr "b")] []) as [H1 H2].
  - reflexivity.
  - reflexivity.
  - intros r [].
  - split; [exact H1|]. apply H2. discriminate.
Defined.

(** C3 as stated fails: the first two records of [triple_example] carry
    the same identifier value [1] and different fields, and [normalize]
    maps that identifier to neither of them, for the third record, whose
    identifier is the string ["1"], is filed under the same name. *)
Lemma normalize_last_write_wins_counterexample :
  triple_example =
    [ [("id", VNum 1); ("name", VStr "a")];
      [("id", VNum 1); ("name", VStr "b")];
      [("id", VStr "1"); ("name", VStr "c")] ] /\
  Props.lookup (to_key (VNum 1)) (normalize triple_example "id") =
    Some [("id", VStr "1"); ("name", VStr "c")] /\
  ~ In [("id", VNum 1); ("name", VStr "b")]
       (Props.values (normalize triple_example "id")).
Proof.
  split; [reflexivity | split; [reflexivity|]].
  simpl. intros [E|[]]. discriminate E.
Qed.

(** C10, as amended: a record whose identifier field holds [null] is
    treated exactly like a record in which the field is missing, own and
    inherited: it is left out of the map and one diagnostic is emitted
    for it; a record whose identifier is [0] or the empty string is
    filed (under ["0"], respectively [""]) and no diagnostic is emitted
    for it. *)
Theorem normalize_null_like_missing (key : string)
    (l1 : list record) (r : record) (l2 : list record) :
  (Props.lookup key r = Some VNull \/ has_property key r = false ->
   normalize (l1 ++ r :: l2) key = normalize (l1 ++ l2) key /\
   normalize_warnings (l1 ++ r :: l2) key =
     normalize_warnings l1 key ++
     Warn (missing_key_message key) r :: normalize_warnings l2 key) /\
  (get key r = VNum 0 \/ get key r = VStr "" ->
   Props.has (identifier_key key r) (normalize (l1 ++ r :: l2) key) = true /\
   normalize_warnings (l1 ++ r :: l2) key =
     normalize_warnings l1 key ++ normalize_warnings l2 key /\
   ((forall r', In r' l2 -> claims key (identifier_key key r) r' = false) ->
    Props.lookup (identifier_key key r) (normalize (l1 ++ r :: l2) key) = Some r)).
Proof.
  split.
  - intros H.
    assert (N : is_nullish (get key r) = true).
    { destruct H as [H|H].
      - now rewrite (get_own _ _ _ H).
      - now rewrite (get_absent _ _ H). }
    rewrite !normalize_set_each, !normalize_warnings_filter, !filter_app. simpl.
    unfold has_identifier at 2. rewrite N. simpl.
    now rewrite map_app.
  - intros H.
    assert (N : is_nullish (get key r) = false).
    { destruct H as [-> | ->]; reflexivity. }
    assert (Cl : claims key (identifier_key key r) r = true).
    { unfold claims, has_identifier. rewrite N. simpl. apply String.eqb_refl. }
    split; [|split].
    + apply PropsFacts.has_true_iff. rewrite lookup_normalize.
      destruct (find _ _) as [x|] eqn:E; [eauto|].
      exfalso. rewrite (find_none _ _ E r) in Cl; [discriminate|].
      apply in_rev. rewrite rev_involutive. apply in_or_app. right. now left.
    + rewrite !normalize_warnings_filter, !filter_app. simpl. rewrite N.
      now rewrite map_app.
    + intros Hlast. rewrite lookup_normalize. now apply find_rev_last.
Qed.

Lemma normalize_null_like_missing_witness :
  (normalize null_example "id" = [] /\
   normalize_warnings null_example "id" =
     [Warn (missing_key_message "id") [("id", VNull); ("name", VStr "a")]]) /\
  (normalize [ [("name", VStr "a")] ] "id" = [] /\
   normalize_warnings [ [("name", VStr "a")] ] "id" =
     [Warn (missing_key_message "id") [("name", VStr "a")]]) /\
  Props.lookup "0" (normalize [ [("id", VNum 0)] ] "id") = Some [("id", VNum 0)].
Proof.
  split; [|split].
  - apply (normalize_null_like_missing "id" []
             [("id", VNull); ("name", VStr "a")] []).
    left. reflexivity.
  - apply (normalize_null_like_missing "id" [] [("name", VStr "a")] []).
    right. reflexivity.
  - apply (normalize_null_like_missing "id" [] [("id", VNum 0)] []).
    + left. reflexivity.
    + intros r' [].
Defined.

(** C10 as stated fails: the record of [inherited_example] has no field
    [constructor]; a record whose field [constructor] holds [null] is
    skipped with a diagnostic, and this one is filed without a
    diagnostic, under the text of the function that it inherits. *)
Lemma normalize_null_like_missing_counterexample :
  Props.has "constructor" [("a", VNum 1)] = false /\
  normalize inherited_example "constructor" =
    [(function_text "Object", [("a", VNum 1)])] /\
  normalize_warnings inherited_example "constructor" = [] /\
  normalize [ [("constructor", VNull); ("a", VNum 1)] ] "constructor" = [] /\
  normalize_warnings [ [("constructor", VNull); ("a", VNum 1)] ] "constructor" =
    [Warn (missing_key_message "constructor") [("constructor", VNull); ("a", VNum 1)]].
Proof. repeat split. Qed.

(** ** [extractEntities] *)

Section ExtractEntities.
Import Props PropsFacts.
Variables entityKey idKey : string.

Lemma extract_fold l st :
  fold_left (extract_step entityKey idKey) l st =
  {| Loop.normalizedItems :=
       write_each (has "__proto__") (identifier_key idKey)
                  (item_copy entityKey idKey) l (Loop.normalizedItems st);
     Loop.entities :=
       write_each owns_proto (entity_key entityKey idKey) (get entityKey)
                  (filter (fun r => has_entity idKey (get entityKey r)) l)
                  (Loop.entities st) |}.
Proof.
  revert st. induction l as [|r l IH]; intros st; simpl.
  - now destruct st.
  - rewrite IH. unfold extract_step, item_copy, identifier_key, entity_key.
    destruct (has_entity idKey (get entityKey r)); reflexivity.
Qed.

Lemma items_extractEntities l :
  items (extractEntities l entityKey idKey) =
  own (write_each (has "__proto__") (identifier_key idKey)
                  (item_copy entityKey idKey) l fresh).
Proof. unfold extractEntities, extract_loop. now rewrite extract_fold. Qed.

Lemma entities_extractEntities l :
  entities (extractEntities l entityKey idKey) =
  own (write_each owns_proto (entity_key entityKey idKey) (get entityKey)
                  (filter (fun r => has_entity idKey (get entityKey r)) l) fresh).
Proof. unfold extractEntities, extract_loop. now rewrite extract_fold. Qed.

(** Without an identifier named [__proto__] the maps are filled as
    [normalize] fills its map. *)
Lemma items_extractEntities_plain l :
  (forall r, In r l -> identifier_key idKey r <> "__proto__") ->
  items (extractEntities l entityKey idKey) =
  set_each (identifier_key idKey) (item_copy entityKey idKey) l empty.
Proof. intros H. rewrite items_extractEntities, write_each_plain; trivial. Qed.

(** The items map sends a property name to the copy of the last item
    whose identifier has that name. *)
Lemma lookup_items_last l1 r l2 :
  identifier_key idKey r <> "__proto__" ->
  (forall r', In r' l2 -> identifier_key idKey r' <> identifier_key idKey r) ->
  lookup (identifier_key idKey r)
         (items (extractEntities (l1 ++ r :: l2) entityKey idKey)) =
  Some (item_copy entityKey idKey r).
Proof.
  intros Hk Hlast. rewrite items_extractEntities, lookup_write_each by assumption.
  rewrite (find_rev_last
             (fun x => String.eqb (identifier_key idKey x) (identifier_key idKey r))
             l1 l2 r); trivial.
  - apply String.eqb_refl.
  - intros y Hy. apply String.eqb_neq. now apply Hlast.
Qed.

Lemma has_items_key l1 r l2 :
  identifier_key idKey r <> "__proto__" ->
  has (identifier_key idKey r)
      (items (extractEntities (l1 ++ r :: l2) entityKey idKey)) = true.
Proof.
  intros Hk. apply has_true_iff.
  destruct (lookup _ _) as [x|] eqn:E; [eauto|]. exfalso.
  apply lookup_None_keys in E. apply E.
  rewrite items_extractEntities. apply In_keys_write_each; [assumption|]. left.
  apply in_map, in_or_app. right. now left.
Qed.

Lemma guard_is_object v :
  truthy v && String.eqb (typeof v) "object" = is_object v.
Proof. destruct v as [| | | | | |[|]]; simpl; rewrite ?andb_false_r; reflexivity. Qed.

Lemma has_entity_is_object v :
  has_entity idKey v = is_object v && in_op idKey v.
Proof. unfold has_entity. now rewrite guard_is_object. Qed.

Lemma has_entity_record e :
  has idKey e = true -> has_entity idKey (VObj e) = true.
Proof.
  intros H. rewrite has_entity_is_object. simpl. unfold has_property. now rewrite H.
Qed.


Lemma item_copy_nested r :
  has_entity idKey (get entityKey r) = true ->
  item_copy entityKey idKey r =
  set (entityKey ++ "Id") (member idKey (get entityKey r)) (delete entityKey r).
Proof. intros G. unfold item_copy. rewrite G. apply put_Id. Qed.

Lemma item_copy_plain r :
  has_entity idKey (get entityKey r) = false -> item_copy entityKey idKey r = r.
Proof. intros G. unfold item_copy. now rewrite G. Qed.

End ExtractEntities.

Lemma append_ne (s t : string) : t <> "" -> (s ++ t)%string <> s.
Proof.
  intros Ht. induction s as [|c s IH]; simpl.
  - exact Ht.
  - intros E. inversion E. contradiction.
Qed.




(** C5: [extractEntities] turns the two-post example of the documentation
    into the stated items and entities.  It does not key every extracted
    sub-record by its identifier: for the post of [proto_example], whose
    author has the identifier ["__proto__"], the filed copy has the
    [authorId] field ["__proto__"] and the entities map has no entry at
    all, for the assignment to that name has replaced the prototype of
    the map; [normalize] files the same author under ["__proto__"]. *)
Theorem extractEntities_loses_proto_entity :
  extractEntities posts_example "author" "id" =
    {| items :=
         [ ("1", [("id", VNum 1); ("title", VStr "P1"); ("authorId", VNum 10)]);
           ("2", [("id", VNum 2); ("title", VStr "P2"); ("authorId", VNum 10)]) ];
       entities := [ ("10", VObj [("id", VNum 10); ("name", VStr "John")]) ] |} /\
  extractEntities proto_example "author" "id" =
    {| items :=
         [ ("1", [("id", VNum 1); ("title", VStr "P1");
                  ("authorId", VStr "__proto__")]) ];
       entities := [] |} /\
  normalize [ [("id", VStr "__proto__"); ("name", VStr "John")] ] "id" =
    [ ("__proto__", [("id", VStr "__proto__"); ("name", VStr "John")]) ].
Proof. repeat split. Qed.

(** An item whose identifier is ["__proto__"] gets no entry in the items
    map: the assignment makes its copy the prototype of the map. *)
Example extractEntities_proto_item :
  extractEntities [ [("id", VStr "__proto__")]; [("id", VStr "x")] ] "author" "id" =
    {| items := [ ("x", [("id", VStr "x")]) ]; entities := [] |}.
Proof. reflexivity. Qed.

(** Once the prototype of the items map is a copy that has an own
    property [__proto__], a second assignment to that name finds the
    property on the way to [Object.prototype] and defines an entry. *)
Example extractEntities_shadowed_proto :
  extractEntities [ [("id", VStr "__proto__"); ("__proto__", VNum 5)];
                    [("id", VStr "__proto__")] ] "author" "id" =
    {| items := [ ("__proto__", [("id", VStr "__proto__")]) ]; entities := [] |}.
Proof. reflexivity. Qed.

(** The name under which a record without the identifier field is filed
    is never [__proto__]. *)
Lemma unidentified_key_plain (idKey : string) (r : record) :
  Props.has idKey r = false -> identifier_key idKey r <> "__proto__".
Proof.
  intros H. apply PropsFacts.has_false_iff in H.
  unfold identifier_key, get. rewrite H.
  destruct (prototype_member idKey) as [[|name]|]; simpl; discriminate.
Qed.

(** C9, as amended: [extractEntities] has no skip-and-warn policy for the
    outer records: a record without the identifier field is filed in the
    items map all the same, and the name under which it is filed is in
    the output map whatever follows.  When the identifier field is not
    the name of a member of [Object.prototype], that name is
    ["undefined"], and it holds the copy of the record unless a later
    record is filed under the same name. *)
Theorem extractEntities_keeps_unidentified (entityKey idKey : string)
    (l1 : list record) (r : record) (l2 : list record) :
  Props.has idKey r = false ->
  Props.lookup (identifier_key idKey r)
    (items (extractEntities (l1 ++ [r]) entityKey idKey)) =
    Some (item_copy entityKey idKey r) /\
  Props.has (identifier_key idKey r)
    (items (extractEntities (l1 ++ r :: l2) entityKey idKey)) = true /\
  (inherited idKey = false ->
   identifier_key idKey r = "undefined" /\
   ((forall r', In r' l2 -> identifier_key idKey r' <> "undefined") ->
    Props.lookup "undefined"
      (items (extractEntities (l1 ++ r :: l2) entityKey idKey)) =
      Some (item_copy entityKey idKey r))).
Proof.
  intros H. pose proof (unidentified_key_plain idKey r H) as P.
  split; [|split].
  - apply lookup_items_last; [exact P | intros r' []].
  - now apply has_items_key.
  - intros Hi.
    assert (K : identifier_key idKey r = "undefined").
    { unfold identifier_key. rewrite get_absent; [reflexivity|].
      unfold has_property. now rewrite H, Hi. }
    split; [exact K|]. rewrite <- K.
    intros Hlast. now apply lookup_items_last.
Qed.

Lemma extractEntities_keeps_unidentified_witness :
  Props.lookup "undefined"
    (items (extractEntities [ [("title", VStr "P")] ] "author" "id")) =
  Some [("title", VStr "P")].
Proof.
  destruct (extractEntities_keeps_unidentified "author" "id" []
              [("title", VStr "P")] [] eq_refl) as (_ & _ & H).
  destruct (H eq_refl) as (_ & H').
  apply H'. intros r' [].
Defined.

(** C9 as stated fails: the record of [inherited_example] has no field
    [toString]; with that field as the identifier field it is filed
    under the text of the function that it inherits, and the items map
    has no property ["undefined"]. *)
Lemma extractEntities_keeps_unidentified_counterexample :
  Props.has "toString" [("a", VNum 1)] = false /\
  items (extractEntities inherited_example "author" "toString") =
    [(function_text "toString", [("a", VNum 1)])] /\
  Props.has "undefined"
    (items (extractEntities inherited_example "author" "toString")) = false.
Proof. repeat split. Qed.

(** ** The stateful wrapper and the posts store *)

Lemma getEntity_absent (id : value) (state : entity_map) :
  hasEntity id state = false -> getEntity id state = VUndefined.
Proof.
  unfold hasEntity, getEntity. intros H. apply has_property_false in H.
  destruct H as [H1 H2]. apply inherited_false in H2. now rewrite H1, H2.
Qed.

(** The name of a number is not the name of a member of
    [Object.prototype]: under a numeric identifier, [state[id]] reads an
    own property or nothing, as the posts store takes it. *)
Lemma number_not_inherited (n : Z) : inherited (to_key (VNum n)) = false.
Proof.
  unfold to_key, inherited, prototype_member.
  destruct (Z.to_int n) as [u|u]; [destruct u|]; reflexivity.
Qed.

Lemma getEntity_number (n : Z) (state : entity_map) :
  getEntity (VNum n) state =
  match Props.lookup (to_key (VNum n)) state with
  | Some entity => VObj entity
  | None => VUndefined
  end.
Proof.
  unfold getEntity. destruct (Props.lookup _ state); [reflexivity|].
  pose proof (number_not_inherited n) as H. apply inherited_false in H.
  now rewrite H.
Qed.

(** C6, as amended: [updateEntity id updates] on a state in which [id] is
    not present, own and inherited ([hasEntity id] is false), returns the
    very same map, and so does a component that makes this one call;
    [updatePost] of the posts store does the same for an absent post.
    The updaters are total functions: there is no error outcome. *)
Theorem updateEntity_absent_noop (id : value) (updates : record)
    (state : entity_map) :
  hasEntity id state = false ->
  updateEntity id updates state = state /\
  useNormalizedState state [UpdateEntity id updates] = Some state /\
  (forall (pid : Z) (st : PostsState),
     Props.has (to_key (VNum pid)) (posts st) = false ->
     updatePost pid updates st = st).
Proof.
  intros H.
  assert (U : updateEntity id updates state = state).
  { unfold updateEntity. now rewrite (getEntity_absent _ _ H). }
  split; [exact U | split].
  - change (useNormalizedState state [UpdateEntity id updates])
      with (Some (updateEntity id updates state)).
    now rewrite U.
  - intros pid st Hp. apply PropsFacts.has_false_iff in Hp.
    unfold updatePost. now rewrite Hp.
Qed.

Lemma updateEntity_absent_noop_witness :
  updateEntity (VNum 2) [("name", VStr "Z")]
    [("1", [("id", VNum 1); ("name", VStr "John")])] =
  [("1", [("id", VNum 1); ("name", VStr "John")])].
Proof.
  apply (updateEntity_absent_noop (VNum 2) [("name", VStr "Z")]
           [("1", [("id", VNum 1); ("name", VStr "John")])]).
  reflexivity.
Defined.

(** C6 as stated fails: the map with the one entity [1] has no entry
    [toString], and [updateEntity] for that identifier adds one, made of
    the fields of the update alone. *)
Lemma updateEntity_absent_noop_counterexample :
  Props.has "toString" [("1", [("id", VNum 1); ("name", VStr "John")])] = false /\
  updateEntity (VStr "toString") [("name", VStr "Z")]
    [("1", [("id", VNum 1); ("name", VStr "John")])] =
  [("1", [("id", VNum 1); ("name", VStr "John")]);
   ("toString", [("name", VStr "Z")])].
Proof. split; reflexivity. Qed.

(** [hasEntity] and [getEntity] see the members of [Object.prototype] in
    every state. *)
Example hasEntity_inherited :
  hasEntity (VStr "toString") (removeEntity (VStr "toString") Props.empty) = true /\
  getEntity (VStr "toString") Props.empty = VBuiltin (BuiltinFunction "toString") /\
  count (removeEntity (VStr "toString") Props.empty) = 0.
Proof. repeat split. Qed.

(** An update of a present entity merges the partial fields into it. *)
Example updateEntity_present :
  updateEntity (VNum 1) [("name", VStr "John Doe")]
    [("1", [("id", VNum 1); ("name", VStr "John")])] =
  [("1", [("id", VNum 1); ("name", VStr "John Doe")])].
Proof. reflexivity. Qed.

Lemma set_empty {A : Type} (k : string) (v : A) :
  Props.set k v Props.empty = [(k, v)].
Proof. unfold Props.set. simpl. now destruct (array_index k). Qed.

(** C7: starting from the empty map, after [addEntity] of an entity and
    [removeEntity] of its identifier, the state is the empty map again:
    [count] is 0, and [hasEntity] of that identifier is false when the
    identifier is not the name of a member of [Object.prototype], as is
    the case for the identifier [1]. *)
Theorem add_then_remove (entity : record) (id : value) :
  get "id" entity = id ->
  inherited (to_key id) = false ->
  exists state,
    useNormalizedState Props.empty [AddEntity entity; RemoveEntity id] =
      Some state /\
    hasEntity id state = false /\
    count state = 0.
Proof.
  intros H Hid. eexists. split; [reflexivity|].
  unfold addEntity, removeEntity, Props.spread.
  rewrite H, set_empty. simpl. rewrite String.eqb_refl.
  unfold hasEntity, has_property. rewrite Hid. split; reflexivity.
Qed.

Lemma add_then_remove_witness :
  exists state,
    useNormalizedState Props.empty
      [AddEntity [("id", VNum 1); ("name", VStr "John")];
       RemoveEntity (VNum 1)] = Some state /\
    hasEntity (VNum 1) state = false /\
    count state = 0.
Proof.
  apply (add_then_remove [("id", VNum 1); ("name", VStr "John")] (VNum 1)).
  - reflexivity.
  - reflexivity.
Defined.

(** ** Property lists with related values *)

Section RelProps.
Import Props.
Context {A B : Type} (R : A -> B -> Prop).
Implicit Types (o : Props.t A) (r : Props.t B).

Lemma rel_lookup k o r :
  rel_props R o r -> rel_option R (lookup k o) (lookup k r).
Proof.
  induction 1 as [|[k1 a] [k2 b] o r [E Hab] _ IH]; simpl in *; [exact I|].
  subst k2. destruct (String.eqb k k1); [exact Hab | exact IH].
Qed.

Lemma rel_has k o r : rel_props R o r -> has k o = has k r.
Proof.
  intros H. apply (rel_lookup k) in H. unfold has.
  destruct (lookup k o), (lookup k r); simpl in H; tauto.
Qed.

Lemma rel_replace k a b o r :
  R a b -> rel_props R o r -> rel_props R (replace k a o) (replace k b r).
Proof.
  intros Hab. induction 1 as [|[k1 a1] [k2 b1] o r [E H1] H IH]; simpl in *.
  - constructor.
  - subst k2. destruct (String.eqb k k1); constructor; simpl; auto.
Qed.

Lemma rel_insert_index n k a b o r :
  R a b -> rel_props R o r ->
  rel_props R (insert_index n k a o) (insert_index n k b r).
Proof.
  intros Hab. induction 1 as [|[k1 a1] [k2 b1] o r [E H1] H IH]; simpl in *.
  - repeat constructor; simpl; auto.
  - subst k2. destruct (array_index k1) as [m|]; [destruct (N.ltb m n)|];
      repeat (constructor; simpl; auto).
Qed.

Lemma rel_snoc k a b o r :
  R a b -> rel_props R o r -> rel_props R (o ++ [(k, a)]) (r ++ [(k, b)]).
Proof.
  intros Hab H. apply Forall2_app; [exact H|]. repeat constructor; simpl; auto.
Qed.

Lemma rel_set k a b o r :
  R a b -> rel_props R o r -> rel_props R (set k a o) (set k b r).
Proof.
  intros Hab H. unfold set. rewrite <- (rel_has k o r H).
  destruct (has k o).
  - now apply rel_replace.
  - destruct (array_index k).
    + now apply rel_insert_index.
    + now apply rel_snoc.
Qed.

Lemma rel_delete k o r :
  rel_props R o r -> rel_props R (delete k o) (delete k r).
Proof.
  induction 1 as [|[k1 a1] [k2 b1] o r [E H1] H IH]; simpl in *.
  - constructor.
  - subst k2. destruct (String.eqb k k1); [exact IH|].
    constructor; simpl; auto.
Qed.

Lemma rel_values o r : rel_props R o r -> Forall2 R (values o) (values r).
Proof.
  induction 1 as [|[k1 a1] [k2 b1] o r [E H1] H IH]; simpl; constructor; auto.
Qed.

Lemma rel_props_impl (R' : A -> B -> Prop) o r :
  (forall a b, R a b -> R' a b) -> rel_props R o r -> rel_props R' o r.
Proof.
  intros HR H. unfold rel_props in *.
  eapply Forall2_impl; [|exact H]. simpl. intros a b [E Hab]. auto.
Qed.

End RelProps.

(** ** Facts about the store *)

Section StoreFacts.

Lemma nth_error_update_nth_eq {X : Type} (l : list X) n x :
  n < List.length l -> nth_error (Heap.update_nth n x l) n = Some x.
Proof.
  revert n. induction l as [|y l IH]; intros [|n] H; simpl in *; try lia.
  - reflexivity.
  - apply IH. lia.
Qed.

Lemma nth_error_update_nth_ne {X : Type} (l : list X) n m x :
  n <> m -> nth_error (Heap.update_nth n x l) m = nth_error l m.
Proof.
  revert n m. induction l as [|y l IH]; intros [|n] [|m] H; simpl;
    try reflexivity; try congruence.
  apply IH. congruence.
Qed.

Lemma length_update_nth {X : Type} (l : list X) n x :
  List.length (Heap.update_nth n x l) = List.length l.
Proof.
  revert n. induction l as [|y l IH]; intros [|n]; simpl; auto.
Qed.

Lemma nth_error_snoc_old {X : Type} (l : list X) n x y :
  nth_error l n = Some x -> nth_error (l ++ [y]) n = Some x.
Proof.
  intros H. rewrite nth_error_app1; [exact H|].
  apply nth_error_Some. congruence.
Qed.

Lemma nth_error_snoc_new {X : Type} (l : list X) y :
  nth_error (l ++ [y]) (List.length l) = Some y.
Proof. rewrite nth_error_app2, Nat.sub_diag by lia. reflexivity. Qed.

Lemma bind_run {X Y : Type} (m : Heap.M X) (f : X -> Heap.M Y) s a s1 res :
  m s = Some (a, s1) -> f a s1 = res -> Heap.bind m f s = res.
Proof. intros H1 H2. unfold Heap.bind. now rewrite H1. Qed.

Lemma deref_run l s o :
  nth_error (Heap.objects s) l = Some o ->
  Heap.deref (Heap.HRef l) s = Some (o, s).
Proof. intros H. simpl. unfold Heap.read_object. now rewrite H. Qed.

Lemma read_array_run a s xs :
  nth_error (Heap.arrays s) a = Some xs ->
  Heap.read_array a s = Some (xs, s).
Proof. intros H. unfold Heap.read_array. now rewrite H. Qed.

Lemma unchanged_refl s : Heap.unchanged s s.
Proof. split; auto. Qed.

Lemma unchanged_trans s1 s2 s3 :
  Heap.unchanged s1 s2 -> Heap.unchanged s2 s3 -> Heap.unchanged s1 s3.
Proof. intros [A1 B1] [A2 B2]. split; auto. Qed.

Lemma reify_fields_rel f o r :
  Heap.reify_fields f o = Some r <-> rel_props (fun hv v => f hv = Some v) o r.
Proof.
  revert r. induction o as [|[k hv] o IH]; intros r; simpl.
  - split; intros H.
    + inversion H. constructor.
    + inversion H. reflexivity.
  - split; intros H.
    + destruct (f hv) as [v|] eqn:E; [|discriminate].
      destruct (Heap.reify_fields f o) as [r'|]; [|discriminate].
      inversion H; subst. constructor; [simpl; auto|]. now apply IH.
    + inversion H as [|? [k' v] ? r' [E1 E2] H']; subst. simpl in *. subst k'.
      rewrite E2. apply IH in H'. now rewrite H'.
Qed.

Lemma reify_ref_intro d s l o r :
  nth_error (Heap.objects s) l = Some o ->
  rel_props (stands_for d s) o r ->
  Heap.reify (S d) s (Heap.HRef l) = Some (VObj r).
Proof.
  intros Hl Hr. simpl. rewrite Hl.
  apply reify_fields_rel in Hr. now rewrite Hr.
Qed.

Lemma reify_obj_inv d s hv r :
  Heap.reify d s hv = Some (VObj r) ->
  exists d' l o, d = S d' /\ hv = Heap.HRef l /\
                 nth_error (Heap.objects s) l = Some o /\
                 rel_props (stands_for d' s) o r.
Proof.
  destruct d as [|d']; destruct hv as [| | | | |l|b]; simpl; try discriminate.
  destruct (nth_error (Heap.objects s) l) as [o|] eqn:E; [|discriminate].
  destruct (Heap.reify_fields (Heap.reify d' s) o) as [r'|] eqn:F; [|discriminate].
  simpl. intros H. inversion H; subst.
  exists d', l, o. repeat split; trivial. now apply reify_fields_rel.
Qed.

(** Looking a value up in a larger store, or deeper, finds the same tree. *)
Lemma reify_mono d s s' hv v :
  (forall l o, nth_error (Heap.objects s) l = Some o ->
               nth_error (Heap.objects s') l = Some o) ->
  Heap.reify d s hv = Some v -> Heap.reify d s' hv = Some v.
Proof.
  intros Hs. revert hv v.
  induction d as [|d IH]; intros hv v; destruct hv as [| | | | |l|b]; simpl; trivial.
  destruct (nth_error (Heap.objects s) l) as [o|] eqn:E; [|discriminate].
  rewrite (Hs _ _ E).
  destruct (Heap.reify_fields (Heap.reify d s) o) as [r|] eqn:F; [|discriminate].
  apply reify_fields_rel in F.
  assert (F' : Heap.reify_fields (Heap.reify d s') o = Some r).
  { apply reify_fields_rel. eapply rel_props_impl; [|exact F]. simpl. auto. }
  now rewrite F'.
Qed.

Lemma reify_deeper d s hv v :
  Heap.reify d s hv = Some v -> Heap.reify (S d) s hv = Some v.
Proof.
  revert hv v.
  induction d as [|d IH]; intros hv v; destruct hv as [| | | | |l|b];
    try (simpl; trivial; fail); try discriminate.
  intros H. simpl in H.
  destruct (nth_error (Heap.objects s) l) as [o|] eqn:E; [|discriminate].
  destruct (Heap.reify_fields (Heap.reify d s) o) as [r|] eqn:F; [|discriminate].
  apply reify_fields_rel in F.
  assert (F' : Heap.reify_fields (Heap.reify (S d) s) o = Some r).
  { apply reify_fields_rel. eapply rel_props_impl; [|exact F]. simpl. auto. }
  change (Heap.reify (S (S d)) s (Heap.HRef l))
    with (match nth_error (Heap.objects s) l with
          | Some o => option_map VObj (Heap.reify_fields (Heap.reify (S d) s) o)
          | None => None
          end).
  rewrite E, F'. exact H.
Qed.

(** The tests of the source see the same thing in a value of the store
    and in the tree it stands for. *)
Lemma reify_shallow d s hv v :
  Heap.reify d s hv = Some v ->
  to_key (Heap.shallow hv) = to_key v /\
  is_nullish (Heap.shallow hv) = is_nullish v /\
  truthy (Heap.shallow hv) = truthy v /\
  typeof (Heap.shallow hv) = typeof v.
Proof.
  destruct d; destruct hv as [| | | | |l|b]; simpl;
    try (intros H; inversion H; subst; auto; fail).
  destruct (nth_error (Heap.objects s) l); [|discriminate].
  destruct (Heap.reify_fields _ _); [|discriminate].
  simpl. intros H. inversion H; subst. auto.
Qed.

Lemma stands_for_hget d s k o r :
  rel_props (stands_for d s) o r -> stands_for d s (Heap.hget k o) (get k r).
Proof.
  intros H. apply (rel_lookup _ k) in H. unfold Heap.hget, get.
  destruct (Props.lookup k o), (Props.lookup k r); simpl in H; try tauto.
  unfold stands_for. destruct (prototype_member k); now destruct d.
Qed.

End StoreFacts.

(** ** [normalize] and [denormalize] over the store *)

Section NormalizeStore.
Variables (d : nat) (s0 : Heap.store) (key : string).

Lemma normalize_step_sim st acc s x r :
  normalize_inv d s0 st acc s ->
  item_for d s0 x r ->
  exists acc' s',
    Heap.normalize_step key acc x s = Some (acc', s') /\
    normalize_inv d s0 (normalize_step key st r) acc' s'.
Proof.
  intros (Hun & (cw & Hc & Hcw) & ao & Hacc & Hrel) Hx.
  destruct (reify_obj_inv _ _ _ _ Hx) as (d' & l & o & Ed & -> & Hl & Ho).
  injection Ed as <-.
  pose proof (proj1 Hun _ _ Hl) as Hl'.
  pose proof (stands_for_hget d s0 key o r Ho) as Hk.
  destruct (reify_shallow _ _ _ _ Hk) as (K1 & K2 & _ & _).
  unfold Heap.normalize_step, Heap.bind, Heap.deref, Heap.read_object.
  rewrite Hl', K2. destruct st as [pacc pcons]. unfold normalize_step.
  simpl fst in Hrel. simpl snd in Hcw.
  destruct (is_nullish (get key r)) eqn:N.
  - simpl. eexists _, _. split; [reflexivity|]. split; [|split].
    + split; simpl; apply Hun.
    + exists (cw ++ [(missing_key_message key, Heap.HRef l)])%list. simpl. split.
      * now rewrite Hc, app_assoc.
      * apply Forall2_app; [exact Hcw|]. repeat constructor. exact Hx.
    + exists ao. simpl. auto.
  - rewrite Hacc. simpl. eexists _, _. split; [reflexivity|]. split; [|split].
    + split; simpl; intros; [apply nth_error_snoc_old|]; now apply Hun.
    + exists cw. simpl. auto.
    + eexists. simpl. split; [apply nth_error_snoc_new|].
      unfold Heap.hkey. rewrite K1. apply rel_set; assumption.
Qed.

Lemma normalize_reduce_sim xs rs :
  Forall2 (item_for d s0) xs rs ->
  forall st acc s,
    normalize_inv d s0 st acc s ->
    exists acc' s',
      Heap.reduce (Heap.normalize_step key) xs acc s = Some (acc', s') /\
      normalize_inv d s0 (fold_left (normalize_step key) rs st) acc' s'.
Proof.
  induction 1 as [|x r xs rs Hx _ IH]; intros st acc s Hinv; simpl.
  - exists acc, s. split; [reflexivity | exact Hinv].
  - destruct (normalize_step_sim st acc s x r Hinv Hx) as (acc1 & s1 & E1 & Hinv1).
    unfold Heap.bind. rewrite E1. apply IH. exact Hinv1.
Qed.

Lemma reify_fields_records f (o : Heap.hobject) (m : entity_map) :
  rel_props (fun hv r => f hv = Some (VObj r)) o m ->
  Heap.reify_fields f o = Some (map (fun kv => (fst kv, VObj (snd kv))) m).
Proof.
  induction 1 as [|[k hv] [k' r] o m [E H1] _ IH]; simpl in *; [reflexivity|].
  subst k'. now rewrite H1, IH.
Qed.

Lemma normalize_sim arr rs :
  Heap.holds_collection (S d) s0 arr rs ->
  exists res s',
    Heap.normalize arr key s0 = Some (res, s') /\
    Heap.unchanged s0 s' /\
    console_grows d s0 s' (normalize_warnings rs key) /\
    Heap.reify (S (S d)) s' res = Some (map_value (normalize rs key)).
Proof.
  intros (xs & Harr & Hxs).
  unfold Heap.normalize, Heap.bind, Heap.read_array. rewrite Harr.
  unfold Heap.new_object. cbv beta iota.
  match goal with |- context [Heap.reduce _ _ _ ?s] => set (s1 := s) end.
  assert (Hinv : normalize_inv d s0 (Props.empty, []) (List.length (Heap.objects s0)) s1).
  { split; [|split].
    - split; simpl; intros; [apply nth_error_snoc_old|]; assumption.
    - exists []. simpl. split; [now rewrite app_nil_r | constructor].
    - exists Props.empty. simpl. split; [apply nth_error_snoc_new | constructor]. }
  destruct (normalize_reduce_sim xs rs Hxs _ _ _ Hinv)
    as (acc & s' & E & Hun & Hcons & ao & Hacc & Hrel).
  exists (Heap.HRef acc), s'. split; [now rewrite E|].
  split; [exact Hun | split; [exact Hcons|]].
  change (Heap.reify (S (S d)) s' (Heap.HRef acc))
    with (match nth_error (Heap.objects s') acc with
          | Some o => option_map VObj (Heap.reify_fields (Heap.reify (S d) s') o)
          | None => None
          end).
  rewrite Hacc.
  rewrite (reify_fields_records _ ao (normalize rs key)); [reflexivity|].
  eapply rel_props_impl; [|exact Hrel]. intros hv r H.
  exact (reify_mono _ _ _ _ _ (proj1 Hun) H).
Qed.

End NormalizeStore.

Lemma denormalize_sim (d : nat) (s0 : Heap.store) (obj : Heap.hvalue) (m : record) :
  Heap.reify (S d) s0 obj = Some (VObj m) ->
  exists arr ys s',
    Heap.denormalize obj s0 = Some (arr, s') /\
    Heap.unchanged s0 s' /\
    Heap.console s' = Heap.console s0 /\
    nth_error (Heap.arrays s') arr = Some ys /\
    Forall2 (stands_for d s') ys (denormalize m).
Proof.
  intros H.
  destruct (reify_obj_inv _ _ _ _ H) as (d' & l & o & Ed & -> & Hl & Ho).
  injection Ed as <-.
  unfold Heap.denormalize, Heap.bind, Heap.deref, Heap.read_object. rewrite Hl.
  simpl. eexists _, _, _. split; [reflexivity|]. split; [|split; [|split]].
  - split; simpl; intros; [|apply nth_error_snoc_old]; assumption.
  - reflexivity.
  - simpl. apply nth_error_snoc_new.
  - unfold denormalize. apply rel_values.
    eapply rel_props_impl; [|exact Ho]. intros hv v Hv.
    eapply reify_mono; [|exact Hv]. auto.
Qed.

(** ** [extractEntities] over the store *)

Section ExtractStore.
Variables (d : nat) (s0 : Heap.store) (entityKey idKey : string).

Lemma modify_run l f s o :
  nth_error (Heap.objects s) l = Some o ->
  Heap.modify l f s = Some (tt, Heap.put_object l (f o) s).
Proof.
  intros H. unfold Heap.modify, Heap.bind, Heap.read_object, Heap.write_object.
  rewrite H.
  assert (L : l < List.length (Heap.objects s)) by (apply nth_error_Some; congruence).
  apply Nat.ltb_lt in L. now rewrite L.
Qed.

Lemma nth_put_eq l o o' s :
  nth_error (Heap.objects s) l = Some o ->
  nth_error (Heap.objects (Heap.put_object l o' s)) l = Some o'.
Proof.
  intros H. simpl. apply nth_error_update_nth_eq.
  apply nth_error_Some. congruence.
Qed.

Lemma nth_put_ne l l' o' s :
  l <> l' ->
  nth_error (Heap.objects (Heap.put_object l o' s)) l' =
  nth_error (Heap.objects s) l'.
Proof. intros H. simpl. now apply nth_error_update_nth_ne. Qed.

Lemma unchanged_length s :
  Heap.unchanged s0 s ->
  List.length (Heap.objects s0) <= List.length (Heap.objects s).
Proof.
  intros [H _].
  destruct (Nat.le_gt_cases (List.length (Heap.objects s0))
                            (List.length (Heap.objects s))) as [L|L]; [exact L|].
  destruct (nth_error (Heap.objects s0) (List.length (Heap.objects s))) as [o|] eqn:E.
  - apply H in E. assert (N : nth_error (Heap.objects s) (List.length (Heap.objects s)) = None)
      by (apply nth_error_None; lia).
    congruence.
  - apply nth_error_None in E. lia.
Qed.

Lemma extract_step_pure st r :
  extract_step entityKey idKey st r =
  {| Loop.normalizedItems :=
       Props.write (Props.has "__proto__") (identifier_key idKey r)
                   (item_copy entityKey idKey r) (Loop.normalizedItems st);
     Loop.entities :=
       if has_entity idKey (get entityKey r)
       then Props.write owns_proto (entity_key entityKey idKey r) (get entityKey r)
                        (Loop.entities st)
       else Loop.entities st |}.
Proof.
  unfold extract_step, item_copy, identifier_key, entity_key.
  now destruct (has_entity idKey (get entityKey r)).
Qed.

(** What the tests on the nested entity see in the store. *)
Lemma owns_stands_for k hv v s :
  Heap.unchanged s0 s -> stands_for d s0 hv v ->
  Heap.owns k hv s =
  Some (match v with VObj e => Props.has k e | _ => false end, s).
Proof.
  intros Hun H. unfold stands_for in H.
  destruct hv as [| | | | |l|b];
    try (destruct d; simpl in H; inversion H; subst; reflexivity).
  destruct d as [|d']; simpl in H; [discriminate|].
  destruct (nth_error (Heap.objects s0) l) as [o|] eqn:Hl; [|discriminate].
  destruct (Heap.reify_fields (Heap.reify d' s0) o) as [e|] eqn:F; [|discriminate].
  inversion H; subst. apply reify_fields_rel in F.
  simpl. unfold Heap.bind, Heap.read_object. rewrite (proj1 Hun _ _ Hl).
  unfold Heap.ret. now rewrite (rel_has _ k o e F).
Qed.

Lemma stands_for_object hv v :
  stands_for d s0 hv v -> is_object v = true ->
  (exists d' l o e, d = S d' /\ hv = Heap.HRef l /\ v = VObj e /\
                    nth_error (Heap.objects s0) l = Some o /\
                    rel_props (stands_for d' s0) o e) \/
  (hv = Heap.HBuiltin ObjectPrototype /\ v = VBuiltin ObjectPrototype).
Proof.
  intros H Hobj. destruct v as [| | | | |e|[|]]; try discriminate.
  - left. destruct (reify_obj_inv _ _ _ _ H) as (d' & l & o & Ed & -> & Hl & Ho).
    exists d', l, o, e. auto.
  - right. unfold stands_for in H.
    destruct hv as [| | | | |l|b]; try (destruct d; discriminate).
    + destruct d as [|d']; simpl in H; [discriminate|].
      destruct (nth_error (Heap.objects s0) l); [|discriminate].
      destruct (Heap.reify_fields _ _); discriminate.
    + assert (b = ObjectPrototype) by (destruct d; simpl in H; congruence).
      subst b. auto.
Qed.

Lemma has_in_run k hv v s :
  Heap.unchanged s0 s -> stands_for d s0 hv v -> is_object v = true ->
  Heap.has_in k hv s = Some (in_op k v, s).
Proof.
  intros Hun H Hobj.
  destruct (stands_for_object hv v H Hobj)
    as [(d' & l & o & e & _ & -> & -> & Hl & Ho)|[-> ->]]; [|reflexivity].
  simpl. unfold Heap.bind, Heap.read_object. rewrite (proj1 Hun _ _ Hl).
  unfold Heap.ret, has_property. now rewrite (rel_has _ k o e Ho).
Qed.

Lemma read_member_run k hv v s :
  Heap.unchanged s0 s -> stands_for d s0 hv v -> is_object v = true ->
  exists hid, Heap.read_member k hv s = Some (hid, s) /\
              stands_for d s0 hid (member k v).
Proof.
  intros Hun H Hobj.
  destruct (stands_for_object hv v H Hobj)
    as [(d' & l & o & e & Ed & -> & -> & Hl & Ho)|[-> ->]].
  - exists (Heap.hget k o). split.
    + simpl. unfold Heap.bind, Heap.read_object. now rewrite (proj1 Hun _ _ Hl).
    + subst d. apply reify_deeper. now apply stands_for_hget.
  - exists (Heap.hprototype_read k). split; [reflexivity|].
    simpl member. unfold Heap.hprototype_read, prototype_read, stands_for.
    destruct (String.eqb k "__proto__"); [now destruct d|].
    destruct (prototype_member k); now destruct d.
Qed.

(** An assignment in the store does what the assignment on the tree
    does, to the own properties and to the prototype slot. *)
Lemma write_run {A : Type} (R : Heap.hvalue -> A -> Prop) (sh : A -> bool)
    l p k hv v (m : Props.obj A) s o :
  nth_error (Heap.objects s) l = Some o ->
  rel_props R o (Props.own m) ->
  rel_option R p (Props.proto m) ->
  (forall q a, R q a -> Heap.owns "__proto__" q s = Some (sh a, s)) ->
  R hv v ->
  exists p' s',
    Heap.write l p k hv s = Some (p', s') /\
    Heap.console s' = Heap.console s /\
    Heap.arrays s' = Heap.arrays s /\
    (forall l', l' <> l ->
                nth_error (Heap.objects s') l' = nth_error (Heap.objects s) l') /\
    (exists o', nth_error (Heap.objects s') l = Some o' /\
                rel_props R o' (Props.own (Props.write sh k v m))) /\
    rel_option R p' (Props.proto (Props.write sh k v m)).
Proof.
  intros Hl Ho Hp Hsh Hv.
  pose (b := match Props.proto m with Some a => sh a | None => false end).
  assert (Hb : match p with
               | Some q => Heap.owns "__proto__" q
               | None => Heap.ret false
               end s = Some (b, s)).
  { unfold b. destruct p as [q|], (Props.proto m) as [a|]; simpl in Hp;
      try contradiction; [now apply Hsh | reflexivity]. }
  assert (L : l < List.length (Heap.objects s)) by (apply nth_error_Some; congruence).
  assert (E : Heap.write l p k hv s =
              if Props.sets_prototype k o && negb b
              then Some (Some hv, s)
              else Some (p, Heap.put_object l (Props.set k hv o) s)).
  { unfold Heap.write.
    eapply bind_run; [unfold Heap.read_object; rewrite Hl; reflexivity|]. cbv beta.
    eapply bind_run; [exact Hb|]. cbv beta.
    destruct (Props.sets_prototype k o && negb b); [reflexivity|].
    eapply bind_run; [|reflexivity].
    unfold Heap.write_object. apply Nat.ltb_lt in L. now rewrite L. }
  rewrite E. unfold Props.write. fold b.
  assert (S : Props.sets_prototype k (Props.own m) = Props.sets_prototype k o).
  { unfold Props.sets_prototype. now rewrite (rel_has R k o (Props.own m) Ho). }
  rewrite S. destruct (Props.sets_prototype k o && negb b).
  - exists (Some hv), s. repeat split; trivial. exists o. split; assumption.
  - exists p, (Heap.put_object l (Props.set k hv o) s). repeat split; trivial.
    + intros l' N. now apply nth_put_ne.
    + eexists. split; [eapply nth_put_eq; exact Hl|]. simpl. now apply rel_set.
Qed.

(** The conditional of the callback: it touches the entities map and the
    copy, and nothing else. *)
Lemma extract_nested_sim st en ep c s1 o r :
  en <> c ->
  (exists eo, nth_error (Heap.objects s1) en = Some eo /\
              rel_props (stands_for d s0) eo (Props.own (Loop.entities st))) ->
  rel_option (stands_for d s0) ep (Props.proto (Loop.entities st)) ->
  nth_error (Heap.objects s1) c = Some o ->
  rel_props (stands_for d s0) o r ->
  Heap.unchanged s0 s1 ->
  exists ep' sA,
    Heap.extract_nested entityKey idKey en ep c (Heap.hget entityKey o) s1 =
      Some (ep', sA) /\
    Heap.console sA = Heap.console s1 /\
    Heap.arrays sA = Heap.arrays s1 /\
    (forall l', l' <> en -> l' <> c ->
                nth_error (Heap.objects sA) l' = nth_error (Heap.objects s1) l') /\
    (exists eo, nth_error (Heap.objects sA) en = Some eo /\
                rel_props (stands_for d s0) eo
                  (Props.own (Loop.entities (extract_step entityKey idKey st r)))) /\
    rel_option (stands_for d s0) ep'
      (Props.proto (Loop.entities (extract_step entityKey idKey st r))) /\
    (exists co, nth_error (Heap.objects sA) c = Some co /\
                rel_props (stands_for d s0) co (item_copy entityKey idKey r)).
Proof.
  intros Hne (eo & Hen & Heo) Hep Hc Ho Hun.
  pose proof (stands_for_hget d s0 entityKey o r Ho) as Hent.
  destruct (reify_shallow _ _ _ _ Hent) as (_ & _ & T1 & T2).
  unfold Heap.extract_nested.
  rewrite T1, T2, guard_is_object, extract_step_pure.
  unfold item_copy. simpl Loop.entities.
  rewrite (has_entity_is_object idKey (get entityKey r)).
  destruct (is_object (get entityKey r)) eqn:Hobj; cbv iota; simpl andb.
  2:{ exists ep, s1. repeat split; eauto. }
  pose proof (has_in_run idKey _ _ s1 Hun Hent Hobj) as Hin.
  destruct (in_op idKey (get entityKey r)) eqn:Ein.
  2:{ exists ep, s1. split.
      { eapply bind_run; [exact Hin|]. reflexivity. }
      repeat split; eauto. }
  destruct (read_member_run idKey _ _ s1 Hun Hent Hobj) as (hid & Hrd & Hid).
  destruct (reify_shallow _ _ _ _ Hid) as (K & _).
  destruct (write_run (stands_for d s0) owns_proto en ep (Heap.hkey hid)
              (Heap.hget entityKey o) (get entityKey r) (Loop.entities st) s1 eo
              Hen Heo Hep
              (fun q a Hq => owns_stands_for "__proto__" q a s1 Hun Hq) Hent)
    as (ep' & s2 & E2 & C2 & A2 & F2 & (eo' & Hen2 & Heo2) & Hep2).
  unfold Heap.hkey in Heo2, Hep2. rewrite K in Heo2, Hep2.
  assert (Hc2 : nth_error (Heap.objects s2) c = Some o).
  { rewrite F2 by congruence. exact Hc. }
  set (s3 := Heap.put_object c (Props.delete entityKey o) s2).
  assert (Hc3 : nth_error (Heap.objects s3) c = Some (Props.delete entityKey o)).
  { unfold s3. eapply nth_put_eq. exact Hc2. }
  exists ep', (Heap.put_object c
                 (Props.put (entityKey ++ "Id") hid (Props.delete entityKey o)) s3).
  split.
  { eapply bind_run; [exact Hin|]. cbv beta iota.
    eapply bind_run; [exact Hrd|]. cbv beta.
    eapply bind_run; [exact E2|]. cbv beta.
    eapply bind_run; [exact (modify_run _ _ _ _ Hc2)|]. cbv beta. fold s3.
    eapply bind_run; [exact (modify_run _ _ _ _ Hc3)|]. reflexivity. }
  split; [simpl; exact C2|]. split; [simpl; exact A2|].
  split; [|split; [|split]].
  - intros l' N1 N2. rewrite nth_put_ne by congruence.
    unfold s3. rewrite nth_put_ne by congruence. now apply F2.
  - exists eo'. split; [|exact Heo2].
    rewrite nth_put_ne by congruence. unfold s3. rewrite nth_put_ne by congruence.
    exact Hen2.
  - exact Hep2.
  - eexists. split; [eapply nth_put_eq; exact Hc3|].
    rewrite !put_Id. unfold Props.spread.
    apply rel_set; [exact Hid|]. now apply rel_delete.
Qed.

Lemma copy_for_frame s s' en ni hv r :
  (forall c co, c <> en -> c <> ni ->
                nth_error (Heap.objects s) c = Some co ->
                nth_error (Heap.objects s') c = Some co) ->
  copy_for d s0 s en ni hv r -> copy_for d s0 s' en ni hv r.
Proof.
  intros Hf (c & co & -> & N1 & N2 & Hc & Hrel). exists c, co. repeat split; auto.
Qed.

Lemma copy_for_option_frame s s' en ni p q :
  (forall c co, c <> en -> c <> ni ->
                nth_error (Heap.objects s) c = Some co ->
                nth_error (Heap.objects s') c = Some co) ->
  rel_option (copy_for d s0 s en ni) p q ->
  rel_option (copy_for d s0 s' en ni) p q.
Proof.
  intros Hf. destruct p, q; simpl; trivial. now apply copy_for_frame.
Qed.

Lemma owns_copy_for s en ni q a :
  copy_for d s0 s en ni q a ->
  Heap.owns "__proto__" q s = Some (Props.has "__proto__" a, s).
Proof.
  intros (c & co & -> & _ & _ & Hc & Hrel). simpl.
  unfold Heap.bind, Heap.read_object. rewrite Hc. unfold Heap.ret.
  now rewrite (rel_has _ "__proto__" co a Hrel).
Qed.

Lemma extract_step_sim st en ni ps s x r :
  extract_inv d s0 st en ni ps s ->
  item_for d s0 x r ->
  exists ps' s',
    Heap.extract_step entityKey idKey en ni ps x s = Some (ps', s') /\
    extract_inv d s0 (extract_step entityKey idKey st r) en ni ps' s'.
Proof.
  intros (Hun & Hcon & Len & Lni & Hne & (eo & Hen & Heo) & (io & Hni & Hio)
          & Hep & Hip) Hx.
  unfold entities_of, items_of in *.
  destruct (reify_obj_inv _ _ _ _ Hx) as (d' & l & o & Ed & -> & Hl & Ho).
  injection Ed as <-.
  pose proof (proj1 Hun _ _ Hl) as Hl'.
  pose proof (unchanged_length s Hun) as Hlen.
  assert (Len' : en < List.length (Heap.objects s)) by (apply nth_error_Some; congruence).
  assert (Lni' : ni < List.length (Heap.objects s)) by (apply nth_error_Some; congruence).
  pose (c := List.length (Heap.objects s)).
  pose (s1 := {| Heap.objects := Heap.objects s ++ [o];
                 Heap.arrays := Heap.arrays s;
                 Heap.console := Heap.console s |}).
  assert (Hnew : Heap.new_object o s = Some (c, s1)) by reflexivity.
  assert (Hc : nth_error (Heap.objects s1) c = Some o)
    by (apply nth_error_snoc_new).
  assert (Hen1 : nth_error (Heap.objects s1) en = Some eo)
    by (now apply nth_error_snoc_old).
  assert (Hni1 : nth_error (Heap.objects s1) ni = Some io)
    by (now apply nth_error_snoc_old).
  assert (Hun1 : Heap.unchanged s0 s1).
  { split; simpl; intros; [apply nth_error_snoc_old|]; now apply Hun. }
  assert (Nec : en <> c) by (unfold c; lia).
  assert (Nic : ni <> c) by (unfold c; lia).
  destruct (extract_nested_sim st en (fst ps) c s1 o r Nec
              (ex_intro _ eo (conj Hen1 Heo)) Hep Hc Ho Hun1)
    as (ep' & sA & EA & CA & AA & FA & (eo' & Hen' & Heo') & Hep' & (co & Hco & Hcorel)).
  assert (HniA : nth_error (Heap.objects sA) ni = Some io).
  { rewrite FA by congruence. exact Hni1. }
  assert (FrameA : forall c' co', c' <> en -> c' <> ni ->
            nth_error (Heap.objects s) c' = Some co' ->
            nth_error (Heap.objects sA) c' = Some co').
  { intros c' co' N1 N2 H.
    assert (c' < c) by (apply nth_error_Some; congruence).
    rewrite FA by lia. now apply nth_error_snoc_old. }
  pose proof (stands_for_hget d s0 idKey o r Ho) as Hk.
  destruct (reify_shallow _ _ _ _ Hk) as (K & _).
  destruct (write_run (copy_for d s0 sA en ni) (Props.has "__proto__") ni (snd ps)
              (identifier_key idKey r) (Heap.HRef c) (item_copy entityKey idKey r)
              (Loop.normalizedItems st) sA io HniA)
    as (ip' & s' & E' & C' & A' & F' & (io' & Hni' & Hio') & Hip').
  { eapply rel_props_impl; [|exact Hio]. intros hv r'. now apply copy_for_frame. }
  { revert Hip. now apply copy_for_option_frame. }
  { intros q a. apply owns_copy_for. }
  { exists c, co. repeat split; trivial; congruence. }
  exists (ep', ip'), s'. split.
  { unfold Heap.extract_step.
    eapply bind_run; [apply deref_run; exact Hl'|]. cbv beta zeta.
    eapply bind_run; [exact Hnew|]. cbv beta.
    eapply bind_run; [exact EA|]. cbv beta.
    unfold Heap.hkey. rewrite K.
    eapply bind_run; [exact E'|]. reflexivity. }
  assert (Frame' : forall c' co', c' <> en -> c' <> ni ->
            nth_error (Heap.objects sA) c' = Some co' ->
            nth_error (Heap.objects s') c' = Some co').
  { intros c' co' N1 N2 H. now rewrite F'. }
  rewrite extract_step_pure in *. simpl Loop.entities in *.
  simpl Loop.normalizedItems in *.
  split; [|split; [|split; [|split; [|split; [|split; [|split; [|split]]]]]]];
    trivial.
  - split.
    + intros l' o' H.
      assert (l' < List.length (Heap.objects s0)) by (apply nth_error_Some; congruence).
      rewrite F' by lia. rewrite FA by (unfold c; lia).
      apply nth_error_snoc_old. now apply Hun.
    + intros a xs H. rewrite A', AA. simpl. now apply Hun.
  - rewrite C', CA. simpl. exact Hcon.
  - exists eo'. split; [|exact Heo']. rewrite F' by congruence. exact Hen'.
  - exists io'. split; [exact Hni'|].
    eapply rel_props_impl; [|exact Hio']. intros hv r'. now apply copy_for_frame.
  - revert Hip'. now apply copy_for_option_frame.
Qed.

Lemma extract_for_each_sim xs rs en ni :
  Forall2 (item_for d s0) xs rs ->
  forall st ps s,
    extract_inv d s0 st en ni ps s ->
    exists ps' s',
      Heap.for_each xs (Heap.extract_step entityKey idKey en ni) ps s =
        Some (ps', s') /\
      extract_inv d s0 (fold_left (extract_step entityKey idKey) rs st) en ni ps' s'.
Proof.
  induction 1 as [|x r xs rs Hx _ IH]; intros st ps s Hinv; simpl.
  - exists ps, s. split; [reflexivity | exact Hinv].
  - destruct (extract_step_sim st en ni ps s x r Hinv Hx) as (ps1 & s1 & E1 & Hinv1).
    unfold Heap.bind. rewrite E1. apply IH. exact Hinv1.
Qed.

Lemma rel_props_map_value n s (o : Heap.hobject) (m : Props.t record) :
  rel_props (fun hv r => stands_for n s hv (VObj r)) o m ->
  rel_props (stands_for n s) o (map (fun kv => (fst kv, VObj (snd kv))) m).
Proof.
  induction 1 as [|[k hv] [k' r] o m [E H1] _ IH]; simpl in *; constructor; auto.
Qed.

Lemma extract_sim arr rs :
  Heap.holds_collection (S d) s0 arr rs ->
  exists res s',
    Heap.extractEntities arr entityKey idKey s0 = Some (res, s') /\
    Heap.unchanged s0 s' /\
    Heap.console s' = Heap.console s0 /\
    Heap.reify (S (S (S d))) s' res =
      Some (extracted_value (extractEntities rs entityKey idKey)).
Proof.
  intros (xs & Harr & Hxs).
  pose (en := List.length (Heap.objects s0)).
  pose (s1 := {| Heap.objects := Heap.objects s0 ++ [Props.empty];
                 Heap.arrays := Heap.arrays s0;
                 Heap.console := Heap.console s0 |}).
  pose (ni := List.length (Heap.objects s1)).
  pose (s2 := {| Heap.objects := Heap.objects s1 ++ [Props.empty];
                 Heap.arrays := Heap.arrays s1;
                 Heap.console := Heap.console s1 |}).
  assert (Hn1 : Heap.new_object Props.empty s0 = Some (en, s1)) by reflexivity.
  assert (Hn2 : Heap.new_object Props.empty s1 = Some (ni, s2)) by reflexivity.
  assert (Eni : ni = S en) by (unfold ni, en; simpl; rewrite length_app; simpl; lia).
  assert (Hinv : extract_inv d s0
                   {| Loop.normalizedItems := Props.fresh;
                      Loop.entities := Props.fresh |}
                   en ni (None, None) s2).
  { split; [|split; [|split; [|split; [|split; [|split; [|split; [|split]]]]]]];
      try (unfold en in *; lia); trivial; try exact I.
    - split; simpl; intros; trivial.
      apply nth_error_snoc_old. now apply nth_error_snoc_old.
    - exists Props.empty. split; [|constructor]. simpl.
      apply nth_error_snoc_old. apply nth_error_snoc_new.
    - exists Props.empty. split; [|constructor]. simpl.
      apply (nth_error_snoc_new (Heap.objects s0 ++ [Props.empty])). }
  destruct (extract_for_each_sim xs rs en ni Hxs _ _ _ Hinv)
    as (ps' & s' & E & Hun & Hcon & _ & _ & _ & (eo & Hen & Heo) & (io & Hni & Hio) & _).
  fold (extract_loop rs entityKey idKey) in Heo, Hio.
  unfold entities_of, items_of in *.
  pose (result := [("items", Heap.HRef ni); ("entities", Heap.HRef en)]).
  pose (s3 := {| Heap.objects := Heap.objects s' ++ [result];
                 Heap.arrays := Heap.arrays s';
                 Heap.console := Heap.console s' |}).
  exists (Heap.HRef (List.length (Heap.objects s'))), s3.
  split.
  { unfold Heap.extractEntities.
    eapply bind_run; [apply read_array_run; exact Harr|]. cbv beta.
    eapply bind_run; [exact Hn1|]. cbv beta.
    eapply bind_run; [exact Hn2|]. cbv beta.
    eapply bind_run; [exact E|]. cbv beta.
    reflexivity. }
  assert (Hun3 : Heap.unchanged s0 s3).
  { split; simpl; intros; [apply nth_error_snoc_old|]; now apply Hun. }
  assert (Up : forall hv v, stands_for d s0 hv v -> stands_for d s3 hv v).
  { intros hv v H. exact (reify_mono _ _ _ _ _ (proj1 Hun3) H). }
  split; [exact Hun3 | split; [exact Hcon|]].
  apply reify_ref_intro with (o := result).
  { apply nth_error_snoc_new. }
  unfold extractEntities. cbv zeta.
  constructor; [|constructor; [|constructor]]; simpl fst; simpl snd; split; trivial.
  - unfold map_value. apply reify_ref_intro with (o := io).
    + simpl. now apply nth_error_snoc_old.
    + apply rel_props_map_value. eapply rel_props_impl; [|exact Hio].
      intros hv r (c & co & -> & _ & _ & Hc & Hrel).
      apply reify_ref_intro with (o := co).
      * simpl. now apply nth_error_snoc_old.
      * eapply rel_props_impl; [|exact Hrel]. exact Up.
  - apply reify_ref_intro with (o := eo).
    + simpl. now apply nth_error_snoc_old.
    + eapply rel_props_impl; [|exact Heo].
      intros hv v H. apply reify_deeper. now apply Up.
Qed.

End ExtractStore.

Lemma holds_collection_mono n s s' arr rs :
  Heap.unchanged s s' ->
  Heap.holds_collection n s arr rs -> Heap.holds_collection n s' arr rs.
Proof.
  intros [Ho Ha] (xs & Harr & Hxs). exists xs. split; [now apply Ha|].
  eapply Forall2_impl; [|exact Hxs]. simpl. intros x r H.
  exact (reify_mono _ _ _ _ _ Ho H).
Qed.

(** With [__proto__] as the nested field, an item without such a field
    reads [Object.prototype] as its nested entity, and the entities map
    of the store run refers to it. *)
Example extractEntities_store_prototype :
  match Heap.extractEntities 0 "__proto__" "toString"
          {| Heap.objects := [ [("id", Heap.HNum 1)] ];
             Heap.arrays := [ [Heap.HRef 0] ];
             Heap.console := [] |} with
  | Some (_, s) => nth_error (Heap.objects s) 1
  | None => None
  end = Some [(function_text "toString", Heap.HBuiltin ObjectPrototype)].
Proof. reflexivity. Qed.

(** The store run of the documented example, read back as a tree. *)
Example extractEntities_store_example :
  match Heap.extractEntities 0 "author" "id" posts_store with
  | Some (res, s) => Heap.reify 4 s res
  | None => None
  end = Some (extracted_value (extractEntities posts_example "author" "id")).
Proof. reflexivity. Qed.

(** C8: [normalize], [denormalize] and [extractEntities] are pure.  Run on
    a store whose array [arr] holds the records [rs] (for [denormalize]:
    on an object that stands for the map [m]), each call returns, leaves
    every object and every array of the store as it was (so the
    collection still holds the same records), and its result, read back
    from the store, is the value of the pure function on the records: a
    second call therefore returns an equal output.  The console is
    untouched by [denormalize] and [extractEntities]; [normalize] appends
    to it exactly the diagnostics for the records without identifier. *)
Theorem normalization_functions_pure (d : nat) (s0 : Heap.store) :
  (forall (arr : nat) (rs : list record) (key : string),
     Heap.holds_collection (S d) s0 arr rs ->
     exists res s1,
       Heap.normalize arr key s0 = Some (res, s1) /\
       Heap.unchanged s0 s1 /\
       Heap.holds_collection (S d) s1 arr rs /\
       console_grows d s0 s1 (normalize_warnings rs key) /\
       normalize_warnings rs key =
         map (Warn (missing_key_message key))
             (filter (fun r => is_nullish (get key r)) rs) /\
       Heap.reify (S (S d)) s1 res = Some (map_value (normalize rs key)) /\
       exists res' s2,
         Heap.normalize arr key s1 = Some (res', s2) /\
         Heap.reify (S (S d)) s2 res' = Some (map_value (normalize rs key))) /\
  (forall (obj : Heap.hvalue) (m : record),
     Heap.reify (S d) s0 obj = Some (VObj m) ->
     exists out ys s1,
       Heap.denormalize obj s0 = Some (out, s1) /\
       Heap.unchanged s0 s1 /\
       Heap.reify (S d) s1 obj = Some (VObj m) /\
       Heap.console s1 = Heap.console s0 /\
       nth_error (Heap.arrays s1) out = Some ys /\
       Forall2 (stands_for d s1) ys (denormalize m) /\
       exists out' ys' s2,
         Heap.denormalize obj s1 = Some (out', s2) /\
         nth_error (Heap.arrays s2) out' = Some ys' /\
         Forall2 (stands_for d s2) ys' (denormalize m)) /\
  (forall (arr : nat) (rs : list record) (entityKey idKey : string),
     Heap.holds_collection (S d) s0 arr rs ->
     exists res s1,
       Heap.extractEntities arr entityKey idKey s0 = Some (res, s1) /\
       Heap.unchanged s0 s1 /\
       Heap.holds_collection (S d) s1 arr rs /\
       Heap.console s1 = Heap.console s0 /\
       Heap.reify (S (S (S d))) s1 res =
         Some (extracted_value (extractEntities rs entityKey idKey)) /\
       exists res' s2,
         Heap.extractEntities arr entityKey idKey s1 = Some (res', s2) /\
         Heap.reify (S (S (S d))) s2 res' =
           Some (extracted_value (extractEntities rs entityKey idKey))).
Proof.
  split; [|split].
  - intros arr rs key Hrs.
    destruct (normalize_sim d s0 key arr rs Hrs) as (res & s1 & E & Hun & Hcon & Hres).
    pose proof (holds_collection_mono _ _ _ _ _ Hun Hrs) as Hrs1.
    destruct (normalize_sim d s1 key arr rs Hrs1) as (res' & s2 & E' & _ & _ & Hres').
    exists res, s1. repeat (split; [assumption|]).
    split; [apply normalize_warnings_filter|]. split; [assumption|].
    exists res', s2. now split.
  - intros obj m Hobj.
    destruct (denormalize_sim d s0 obj m Hobj)
      as (out & ys & s1 & E & Hun & Hcon & Hout & Hys).
    pose proof (reify_mono _ _ _ _ _ (proj1 Hun) Hobj) as Hobj1.
    destruct (denormalize_sim d s1 obj m Hobj1)
      as (out' & ys' & s2 & E' & _ & _ & Hout' & Hys').
    exists out, ys, s1. repeat (split; [assumption|]).
    exists out', ys', s2. repeat (split; [assumption|]). assumption.
  - intros arr rs entityKey idKey Hrs.
    destruct (extract_sim d s0 entityKey idKey arr rs Hrs)
      as (res & s1 & E & Hun & Hcon & Hres).
    pose proof (holds_collection_mono _ _ _ _ _ Hun Hrs) as Hrs1.
    destruct (extract_sim d s1 entityKey idKey arr rs Hrs1)
      as (res' & s2 & E' & _ & _ & Hres').
    exists res, s1. repeat (split; [assumption|]). exists res', s2. now split.
Qed.

Lemma normalization_functions_pure_witness :
  Heap.holds_collection 2 posts_store 0 posts_example /\
  exists res s1,
    Heap.extractEntities 0 "author" "id" posts_store = Some (res, s1) /\
    Heap.unchanged posts_store s1 /\
    Heap.holds_collection 2 s1 0 posts_example /\
    Heap.console s1 = Heap.console posts_store /\
    Heap.reify 4 s1 res =
      Some (extracted_value (extractEntities posts_example "author" "id")) /\
    exists res' s2,
      Heap.extractEntities 0 "author" "id" s1 = Some (res', s2) /\
      Heap.reify 4 s2 res' =
        Some (extracted_value (extractEntities posts_example "author" "id")).
Proof.
  assert (H1 : Heap.holds_collection 2 posts_store 0 posts_example).
  { exists [Heap.HRef 1; Heap.HRef 2]. split; [reflexivity|].
    repeat constructor. }
  split; [exact H1|].
  exact (proj2 (proj2 (normalization_functions_pure 1 posts_store))
           0 posts_example "author" "id" H1).
Defined.

(** * Further properties *)

(** ** Enumeration order is kept *)

Section Canonical.
Import Props PropsFacts.
Context {A : Type}.
Implicit Types (o : Props.t A) (k : string) (v : A).

Lemma array_index_name k n :
  array_index k = Some n -> k = NilZero.string_of_uint (N.to_uint n).
Proof.
  unfold array_index. destruct (NilZero.uint_of_string k) as [u|]; [|discriminate].
  destruct (String.eqb_spec (NilZero.string_of_uint (N.to_uint (N.of_uint u))) k)
    as [E|E]; simpl; [|discriminate].
  destruct (N.ltb (N.of_uint u) 4294967295); [|discriminate].
  intros H. inversion H; subst. now symmetry.
Qed.

Lemma array_index_inj k k' n :
  array_index k = Some n -> array_index k' = Some n -> k = k'.
Proof.
  intros H H'. rewrite (array_index_name _ _ H), (array_index_name _ _ H').
  reflexivity.
Qed.

Lemma precedes_ne k k' : precedes k k' -> k <> k'.
Proof.
  unfold precedes. intros H E. subst k'.
  destruct (array_index k); [lia | congruence].
Qed.

Lemma ordered_keys_NoDup ks : ordered_keys ks -> NoDup ks.
Proof.
  induction ks as [|k ks IH]; simpl; [constructor|].
  intros [H1 H2]. constructor; [|auto].
  intros I. rewrite Forall_forall in H1. exact (precedes_ne _ _ (H1 _ I) eq_refl).
Qed.

Lemma canonical_NoDup o : canonical o -> NoDup (keys o).
Proof. apply ordered_keys_NoDup. Qed.

Lemma ordered_keys_app_l ks1 ks2 : ordered_keys (ks1 ++ ks2) -> ordered_keys ks1.
Proof.
  induction ks1 as [|k ks1 IH]; simpl; [trivial|].
  intros [H1 H2]. split; [|auto].
  apply Forall_app in H1. tauto.
Qed.

Lemma ordered_keys_snoc ks k :
  ordered_keys ks -> Forall (fun k' => precedes k' k) ks -> ordered_keys (ks ++ [k]).
Proof.
  induction ks as [|k0 ks IH]; simpl; [auto|].
  intros [H1 H2] H. inversion H; subst. split; [|auto].
  apply Forall_app. split; [assumption | repeat constructor; assumption].
Qed.

Lemma In_keys_insert_index n k v o x :
  In x (keys (insert_index n k v o)) <-> x = k \/ In x (keys o).
Proof.
  pose proof (Permutation_map fst (insert_index_Permutation n k v o)) as P.
  simpl in P. split; intros H.
  - apply (Permutation_in _ P) in H. destruct H; [left; congruence | now right].
  - apply (Permutation_in _ (Permutation_sym P)).
    destruct H; [left; congruence | now right].
Qed.

Lemma canonical_insert_index n k v o :
  array_index k = Some n -> lookup k o = None ->
  canonical o -> canonical (insert_index n k v o).
Proof.
  intros Hk. unfold canonical.
  induction o as [|[k' v'] o IH]; simpl; intros Hfresh Hord.
  - split; constructor.
  - destruct (String.eqb_spec k k') as [|Hne]; [discriminate|].
    destruct Hord as [H1 H2].
    assert (Front : Forall (precedes k') (keys o) ->
                    precedes k k' ->
                    Forall (precedes k) (keys o)).
    { intros F P. rewrite Forall_forall in *. intros x Hx. specialize (F x Hx).
      unfold precedes in *. rewrite Hk in *.
      destruct (array_index k') as [m|], (array_index x);
        try lia; try exact I; contradiction. }
    destruct (array_index k') as [m|] eqn:Ek'.
    + destruct (N.ltb_spec m n) as [L|L]; simpl.
      * split; [|now apply IH].
        rewrite Forall_forall in *. intros x Hx.
        apply In_keys_insert_index in Hx. destruct Hx as [->|Hx]; [|auto].
        unfold precedes. now rewrite Ek', Hk.
      * assert (P : precedes k k').
        { unfold precedes. rewrite Hk, Ek'.
          assert (n <> m) by (intros ->; apply Hne; eapply array_index_inj; eauto).
          lia. }
        split; [constructor; [exact P | now apply Front] | split; assumption].
    + simpl. split; [|split; assumption].
      constructor.
      * unfold precedes. now rewrite Hk, Ek'.
      * rewrite Forall_forall in *. intros x Hx. specialize (H1 x Hx).
        unfold precedes in *. rewrite Hk. rewrite Ek' in H1.
        destruct (array_index x); [contradiction | exact I].
Qed.

Lemma canonical_snoc k v o :
  array_index k = None -> lookup k o = None ->
  canonical o -> canonical (o ++ [(k, v)]).
Proof.
  intros Hk Hfresh Hord. unfold canonical, keys in *. rewrite map_app. simpl.
  apply ordered_keys_snoc; [assumption|].
  apply lookup_None_keys in Hfresh. unfold keys in Hfresh.
  rewrite Forall_forall. intros x Hx. unfold precedes. rewrite Hk.
  destruct (array_index x); [exact I | congruence].
Qed.

Lemma canonical_set k v o : canonical o -> canonical (set k v o).
Proof.
  intros H. unfold set, has. destruct (lookup k o) eqn:E.
  - unfold canonical. now rewrite keys_replace.
  - destruct (array_index k) eqn:Ek.
    + now apply canonical_insert_index.
    + now apply canonical_snoc.
Qed.

Lemma In_keys_delete k o x : In x (keys (delete k o)) -> In x (keys o).
Proof.
  induction o as [|[k' v'] o IH]; simpl; [tauto|].
  destruct (String.eqb k k'); simpl; intuition.
Qed.

Lemma canonical_delete k o : canonical o -> canonical (delete k o).
Proof.
  unfold canonical. induction o as [|[k' v'] o IH]; simpl; [trivial|].
  intros [H1 H2]. destruct (String.eqb k k'); simpl; [auto|].
  split; [|auto]. rewrite Forall_forall in *. intros x Hx.
  apply H1. eapply In_keys_delete; eauto.
Qed.

(** Creating a property whose name is last in enumeration order puts it
    at the end. *)
Lemma set_last k v o : canonical (o ++ [(k, v)]) -> set k v o = o ++ [(k, v)].
Proof.
  intros H.
  assert (Hfresh : lookup k o = None).
  { apply lookup_None_keys. apply canonical_NoDup in H.
    unfold keys in *. rewrite map_app in H. simpl in H.
    apply NoDup_remove_2 in H. now rewrite app_nil_r in H. }
  unfold set, has. rewrite Hfresh.
  destruct (array_index k) as [n|] eqn:Ek; [|reflexivity].
  unfold canonical in H. revert H.
  induction o as [|[k' v'] o IH]; simpl in *; [reflexivity|].
  destruct (String.eqb k k'); [discriminate|].
  intros [H1 H2]. rewrite Forall_forall in H1.
  assert (P : precedes k' k).
  { apply H1. unfold keys. rewrite map_app. apply in_or_app. right. now left. }
  unfold precedes in P. rewrite Ek in P.
  destruct (array_index k') as [m|]; [|contradiction].
  apply N.ltb_lt in P. rewrite P. now rewrite IH.
Qed.

End Canonical.

Lemma canonical_set_each {A B : Type} (kf : B -> string) (vf : B -> A)
    (l : list B) (acc : Props.t A) :
  canonical acc -> canonical (set_each kf vf l acc).
Proof.
  revert acc. induction l as [|x l IH]; intros acc H; simpl; [assumption|].
  apply IH. now apply canonical_set.
Qed.

Lemma canonical_write_each {A B : Type} (sh : A -> bool)
    (kf : B -> string) (vf : B -> A) (l : list B) (acc : Props.obj A) :
  canonical (Props.own acc) ->
  canonical (Props.own (write_each sh kf vf l acc)).
Proof.
  revert acc. induction l as [|x l IH]; intros acc H; simpl; [assumption|].
  apply IH.
  destruct (PropsFacts.write_cases sh (kf x) (vf x) acc) as [(_ & _ & ->)| ->];
    simpl; [assumption | now apply canonical_set].
Qed.

(** Filing the properties of an object, in its enumeration order, into
    an empty object rebuilds it. *)
Lemma set_each_rebuild {A : Type} (m acc : Props.t A) :
  canonical (acc ++ m) -> set_each fst snd m acc = (acc ++ m)%list.
Proof.
  revert acc. induction m as [|[k v] m IH]; intros acc H; simpl.
  - now rewrite app_nil_r.
  - change (fold_left _ m ?a) with (set_each fst snd m a).
    assert (H' : canonical (acc ++ [(k, v)])).
    { unfold canonical, Props.keys in *.
      change (acc ++ (k, v) :: m)%list with (acc ++ [(k, v)] ++ m)%list in H.
      rewrite app_assoc, map_app in H. now apply ordered_keys_app_l in H. }
    rewrite (set_last k v acc H'). rewrite IH; rewrite <- app_assoc; [reflexivity|].
    exact H.
Qed.

Lemma set_each_map {A B C : Type} (kf : B -> string) (vf : B -> A) (g : C -> B)
    (l : list C) (acc : Props.t A) :
  set_each kf vf (map g l) acc = set_each (fun x => kf (g x)) (fun x => vf (g x)) l acc.
Proof.
  revert acc. induction l as [|x l IH]; intros acc; simpl; [reflexivity|]. apply IH.
Qed.

Lemma set_each_ext {A B : Type} (kf kf' : B -> string) (vf vf' : B -> A)
    (l : list B) (acc : Props.t A) :
  (forall x, In x l -> kf x = kf' x /\ vf x = vf' x) ->
  set_each kf vf l acc = set_each kf' vf' l acc.
Proof.
  revert acc. induction l as [|x l IH]; intros acc H; simpl; [reflexivity|].
  destruct (H x (or_introl eq_refl)) as [-> ->]. apply IH.
  intros y Hy. apply H. now right.
Qed.

(** ** More about [normalize] and [denormalize] *)

Lemma find_app {X : Type} (p : X -> bool) (l1 l2 : list X) :
  find p (l1 ++ l2) = match find p l1 with Some x => Some x | None => find p l2 end.
Proof.
  induction l1 as [|x l1 IH]; simpl; [reflexivity|].
  destruct (p x); [reflexivity | exact IH].
Qed.

(** X1. Normalizing two batches one after the other: a name is looked up in
    the later batch first, and in the earlier batch when the later one
    has no record for it. *)
Theorem normalize_app_lookup (key : string) (C1 C2 : list record) (k : string) :
  Props.lookup k (normalize (C1 ++ C2) key) =
  match Props.lookup k (normalize C2 key) with
  | Some r => Some r
  | None => Props.lookup k (normalize C1 key)
  end.
Proof. rewrite !lookup_normalize, rev_app_distr. apply find_app. Qed.

Lemma canonical_normalize (C : list record) (key : string) :
  canonical (normalize C key).
Proof. rewrite normalize_set_each. apply canonical_set_each. exact I. Qed.

Lemma self_keyed_normalize (C : list record) (key : string) :
  self_keyed key (normalize C key).
Proof.
  intros k r Hin.
  apply PropsFacts.In_lookup_Some in Hin; [|apply NoDup_keys_normalize].
  rewrite lookup_normalize in Hin. apply find_some in Hin.
  destruct Hin as [_ Hc]. unfold claims in Hc.
  apply andb_true_iff in Hc. destruct Hc as [H1 H2].
  apply String.eqb_eq in H2. auto.
Qed.

Lemma normalize_values_rebuild (m : entity_map) (key : string) :
  canonical m -> self_keyed key m -> normalize (Props.values m) key = m.
Proof.
  intros Hc Hs. rewrite normalize_set_each. unfold Props.values.
  rewrite (filter_all_true (has_identifier key)).
  - rewrite set_each_map.
    rewrite (set_each_ext _ fst _ snd m).
    + now apply (set_each_rebuild m []).
    + intros [k r] Hin. simpl. split; [|reflexivity]. now apply Hs.
  - intros r Hr. apply in_map_iff in Hr. destruct Hr as [[k r'] [E Hin]].
    simpl in E. subst r'. now apply (Hs k r).
Qed.

(** X2. The map built by [normalize] can be enumerated as it is listed (no
    name twice, array-index names first and ascending), and it files
    every record under the name of the record's own identifier. *)
Theorem normalize_canonical_self_keyed (C : list record) (key : string) :
  canonical (normalize C key) /\ self_keyed key (normalize C key).
Proof. split; [apply canonical_normalize | apply self_keyed_normalize]. Qed.

(** X3. The round trip in the other direction: for a map that an object can
    enumerate and whose records are filed under their own identifiers,
    [normalize (denormalize m)] is [m] itself, order included. *)
Theorem normalize_denormalize_map (m : entity_map) (key : string) :
  canonical m -> self_keyed key m -> normalize (denormalize m) key = m.
Proof. intros Hc Hs. unfold denormalize. now apply normalize_values_rebuild. Qed.

Lemma normalize_denormalize_map_witness :
  normalize (denormalize (normalize users_example "id")) "id" =
  normalize users_example "id".
Proof.
  apply (normalize_denormalize_map (normalize users_example "id") "id").
  - simpl. repeat split; repeat constructor; unfold precedes; simpl; lia.
  - intros k r [E|[E|[]]]; inversion E; subst; split; reflexivity.
Defined.

(** X4. Normalizing again what [denormalize] gives back changes nothing. *)
Theorem normalize_denormalize_normalize (C : list record) (key : string) :
  normalize (denormalize (normalize C key)) key = normalize C key.
Proof.
  unfold denormalize. apply normalize_values_rebuild.
  - apply canonical_normalize.
  - apply self_keyed_normalize.
Qed.

(** X5. The round trip through [normalize] and [denormalize] invents nothing:
    every record it returns is a record of the collection with a usable
    identifier, and it returns at most as many records as it was given. *)
Theorem denormalize_normalize_subset (C : list record) (key : string) :
  (forall r, In r (denormalize (normalize C key)) ->
             In r C /\ has_identifier key r = true) /\
  List.length (denormalize (normalize C key)) <= List.length C.
Proof.
  split.
  - intros r Hr. unfold denormalize in Hr.
    apply In_values_normalize in Hr. destruct Hr as [Hid Hl].
    split; [|exact Hid]. rewrite lookup_normalize in Hl.
    apply find_some in Hl. destruct Hl as [Hin _]. now apply in_rev.
  - unfold denormalize, Props.values. rewrite length_map.
    rewrite <- (length_map fst). change (map fst ?m) with (Props.keys m).
    transitivity (List.length (map (identifier_key key)
                                   (filter (has_identifier key) C))).
    + apply NoDup_incl_length; [apply NoDup_keys_normalize|].
      intros k Hk. now apply In_keys_normalize.
    + rewrite length_map. apply filter_length_le.
Qed.

Lemma filter_idem {X : Type} (p : X -> bool) (l : list X) :
  filter p (filter p l) = filter p l.
Proof.
  induction l as [|x l IH]; simpl; [reflexivity|].
  destruct (p x) eqn:E; simpl; [rewrite E|]; congruence.
Qed.

(** X6. Every record is either filed or reported, never both: the skipped
    records do not influence the map, and there is one diagnostic per
    skipped record, in the order of the collection. *)
Theorem normalize_files_or_reports (C : list record) (key : string) :
  normalize C key = normalize (filter (has_identifier key) C) key /\
  map warn_item (normalize_warnings C key) =
    filter (fun r => negb (has_identifier key r)) C /\
  normalize_warnings (filter (has_identifier key) C) key = [] /\
  List.length (normalize_warnings C key) +
    List.length (filter (has_identifier key) C) = List.length C.
Proof.
  assert (W : map warn_item (normalize_warnings C key) =
              filter (fun r => negb (has_identifier key r)) C).
  { rewrite normalize_warnings_filter, map_map. simpl. rewrite map_id.
    apply filter_ext. intros r. unfold has_identifier. now rewrite negb_involutive. }
  split; [|split; [|split]].
  - rewrite !normalize_set_each. now rewrite filter_idem.
  - exact W.
  - rewrite normalize_warnings_filter. clear W.
    induction C as [|r C IH]; simpl; [reflexivity|].
    destruct (has_identifier key r) eqn:E; simpl; [|exact IH].
    unfold has_identifier in E. apply negb_true_iff in E. now rewrite E.
  - rewrite <- (length_map warn_item), W. clear W.
    induction C as [|r C IH]; simpl; [reflexivity|].
    destruct (has_identifier key r); simpl; lia.
Qed.

(** ** More about [extractEntities] *)

Section ExtractMore.
Import Props PropsFacts.
Variables entityKey idKey : string.

Lemma lookup_items_inv C k c :
  lookup k (items (extractEntities C entityKey idKey)) = Some c ->
  exists r, In r C /\ c = item_copy entityKey idKey r /\ identifier_key idKey r = k.
Proof.
  rewrite items_extractEntities. intros H. apply lookup_Some_In in H.
  apply In_write_each_inv in H. destruct H as [(r & Hin & Hk & Hv)|[]].
  exists r. auto.
Qed.

Lemma lookup_entities_inv C k v :
  lookup k (entities (extractEntities C entityKey idKey)) = Some v ->
  exists r, In r C /\ v = get entityKey r /\
            has_entity idKey v = true /\ to_key (member idKey v) = k.
Proof.
  rewrite entities_extractEntities. intros H. apply lookup_Some_In in H.
  apply In_write_each_inv in H. destruct H as [(r & Hin & Hk & Hv)|[]].
  apply filter_In in Hin. destruct Hin as [Hin G].
  exists r. subst v. auto.
Qed.

Lemma lookup_entities_some C r :
  In r C -> has_entity idKey (get entityKey r) = true ->
  entity_key entityKey idKey r <> "__proto__" ->
  exists v, lookup (entity_key entityKey idKey r)
                   (entities (extractEntities C entityKey idKey)) = Some v.
Proof.
  intros Hin G Hk. rewrite entities_extractEntities, lookup_write_each by assumption.
  destruct (find _ (rev _)) as [r'|] eqn:E; [eauto|]. exfalso.
  assert (I : In r (rev (filter (fun x => has_entity idKey (get entityKey x)) C))).
  { apply in_rev. rewrite rev_involutive. apply filter_In. now split. }
  pose proof (find_none _ _ E r I) as N. simpl in N.
  now rewrite String.eqb_refl in N.
Qed.

End ExtractMore.

(** X8. Referential integrity: every item of the output comes from a record
    of the collection, and when that record carried a nested entity
    whose identifier is not named [__proto__], the [<nestedFieldName>Id]
    field of the item names an entry of the entities map that holds an
    entity with that very identifier. *)
Theorem extractEntities_references_resolve (entityKey idKey : string)
    (C : list record) (k : string) (c : record) :
  Props.lookup k (items (extractEntities C entityKey idKey)) = Some c ->
  exists r, In r C /\ c = item_copy entityKey idKey r /\
            identifier_key idKey r = k /\
            (has_entity idKey (get entityKey r) = true ->
             entity_key entityKey idKey r <> "__proto__" ->
             exists e,
               Props.lookup (to_key (get (entityKey ++ "Id") c))
                            (entities (extractEntities C entityKey idKey)) = Some e /\
               has_entity idKey e = true /\
               to_key (member idKey e) = to_key (get (entityKey ++ "Id") c)).
Proof.
  intros H. destruct (lookup_items_inv _ _ _ _ _ H) as (r & Hin & -> & Hk).
  exists r. repeat split; trivial. intros G P.
  assert (F : get (entityKey ++ "Id") (item_copy entityKey idKey r) =
              member idKey (get entityKey r)).
  { rewrite item_copy_nested by assumption.
    apply get_own, PropsFacts.lookup_set_eq. }
  rewrite F.
  destruct (lookup_entities_some entityKey idKey C r Hin G P) as [e He].
  exists e. split; [exact He|].
  destruct (lookup_entities_inv _ _ _ _ _ He) as (r' & _ & _ & G' & K').
  now split.
Qed.

Lemma extractEntities_references_resolve_witness :
  exists e,
    Props.lookup "10" (entities (extractEntities posts_example "author" "id")) = Some e /\
    has_entity "id" e = true /\ to_key (member "id" e) = "10".
Proof.
  destruct (extractEntities_references_resolve "author" "id" posts_example "2"
              [("id", VNum 2); ("title", VStr "P2"); ("authorId", VNum 10)]
              eq_refl) as (r & Hin & Hc & _ & H).
  assert (G : has_entity "id" (get "author" r) = true /\
              entity_key "author" "id" r <> "__proto__").
  { destruct Hin as [<-|[<-|[]]]; split; try reflexivity; discriminate. }
  destruct (H (proj1 G) (proj2 G)) as (e & H1 & H2 & H3). exists e. auto.
Defined.

(** X9. The copy keeps every other field of the item: only the nested field
    and the [<nestedFieldName>Id] field can differ from the source. *)
Theorem extractEntities_keeps_other_fields (entityKey idKey : string)
    (r : record) (k : string) :
  k <> entityKey -> k <> (entityKey ++ "Id")%string ->
  Props.lookup k (item_copy entityKey idKey r) = Props.lookup k r.
Proof.
  intros N1 N2. unfold item_copy, Props.spread.
  destruct (has_entity idKey (get entityKey r)); [|reflexivity].
  rewrite put_Id, PropsFacts.lookup_set_ne by assumption.
  now apply PropsFacts.lookup_delete_ne.
Qed.

Lemma extractEntities_keeps_other_fields_witness :
  Props.lookup "title"
    (item_copy "author" "id" [("id", VNum 1); ("title", VStr "P1"); ("author", john)]) =
  Some (VStr "P1").
Proof.
  rewrite (extractEntities_keeps_other_fields "author" "id"
             [("id", VNum 1); ("title", VStr "P1"); ("author", john)] "title").
  - reflexivity.
  - discriminate.
  - discriminate.
Defined.

(** X10. One level only: every entry of the entities map is the value found
    under the nested field of some record, stored as it was found and
    filed under its own identifier. *)
Theorem extractEntities_entities_are_nested_values (entityKey idKey : string)
    (C : list record) (k : string) (v : value) :
  Props.lookup k (entities (extractEntities C entityKey idKey)) = Some v ->
  exists r, In r C /\ v = get entityKey r /\
            has_entity idKey v = true /\ to_key (member idKey v) = k.
Proof. apply lookup_entities_inv. Qed.

Lemma extractEntities_entities_are_nested_values_witness :
  exists r, In r posts_example /\ john = get "author" r /\
            has_entity "id" john = true /\ to_key (member "id" john) = "10".
Proof.
  apply (extractEntities_entities_are_nested_values "author" "id" posts_example
           "10" john).
  reflexivity.
Defined.

(** X11. No outer record is skipped: every name of the items map is the name
    of the identifier of a record, and every such name other than
    [__proto__] (["undefined"] and ["null"] included) is a name of the
    items map; the map has no name twice and lists its names in
    enumeration order. *)
Theorem extractEntities_items_names (entityKey idKey : string) (C : list record) :
  (forall k, In k (Props.keys (items (extractEntities C entityKey idKey))) ->
             In k (map (identifier_key idKey) C)) /\
  (forall k, k <> "__proto__" -> In k (map (identifier_key idKey) C) ->
             In k (Props.keys (items (extractEntities C entityKey idKey)))) /\
  canonical (items (extractEntities C entityKey idKey)) /\
  List.length (Props.keys (items (extractEntities C entityKey idKey))) <=
    List.length C.
Proof.
  rewrite items_extractEntities.
  assert (K : forall k,
            In k (Props.keys (Props.own
                    (write_each (Props.has "__proto__") (identifier_key idKey)
                                (item_copy entityKey idKey) C Props.fresh))) ->
            In k (map (identifier_key idKey) C)).
  { intros k Hk. apply In_keys_write_each in Hk. destruct Hk as [Hk|[]]. exact Hk. }
  split; [exact K | split; [|split]].
  - intros k Hk Hin. apply In_keys_write_each; auto.
  - apply canonical_write_each. exact I.
  - rewrite <- (length_map (identifier_key idKey) C).
    apply NoDup_incl_length; [|exact K].
    apply NoDup_keys_write_each. constructor.
Qed.

Lemma extractEntities_items_names_witness :
  In "2" (Props.keys (items (extractEntities users_example "author" "id"))).
Proof.
  refine (proj1 (proj2 (extractEntities_items_names "author" "id" users_example))
            "2" _ _).
  - discriminate.
  - right. left. reflexivity.
Defined.

(** X12. On a collection without nested entities whose records all have a
    usable identifier, none of them named [__proto__], [extractEntities]
    is [normalize]. *)
Theorem extractEntities_plain_is_normalize (entityKey idKey : string)
    (C : list record) :
  (forall r, In r C -> has_entity idKey (get entityKey r) = false) ->
  (forall r, In r C -> has_identifier idKey r = true) ->
  (forall r, In r C -> identifier_key idKey r <> "__proto__") ->
  items (extractEntities C entityKey idKey) = normalize C idKey /\
  entities (extractEntities C entityKey idKey) = Props.empty.
Proof.
  intros Hplain Hid Hproto. split.
  - rewrite items_extractEntities_plain by assumption.
    rewrite normalize_set_each, (filter_all_true _ _ Hid).
    apply set_each_ext. intros r Hr. split; [reflexivity|].
    now apply item_copy_plain, Hplain.
  - rewrite entities_extractEntities.
    assert (E : filter (fun r => has_entity idKey (get entityKey r)) C = []).
    { clear Hid Hproto. induction C as [|r C IH]; simpl; [reflexivity|].
      rewrite (Hplain r) by now left. apply IH.
      intros x Hx. apply Hplain. now right. }
    now rewrite E.
Qed.

Lemma extractEntities_plain_is_normalize_witness :
  items (extractEntities users_example "author" "id") = normalize users_example "id" /\
  entities (extractEntities users_example "author" "id") = Props.empty.
Proof.
  apply (extractEntities_plain_is_normalize "author" "id" users_example).
  - intros r [<-|[<-|[]]]; reflexivity.
  - intros r [<-|[<-|[]]]; reflexivity.
  - intros r [<-|[<-|[]]]; discriminate.
Defined.

(** X24. For an item whose nested field holds a record that carries the
    identifier field, the filed copy has the nested field removed and a
    [<nestedFieldName>Id] field holding the nested identifier.  When the
    names of the two identifiers are not [__proto__], the copy is in the
    items map unless a later item has the same name, and the nested
    identifier has exactly one entry in the entities map however many
    items carry it, holding the nested record of the last of them. *)
Theorem extractEntities_nested_by_identifier (entityKey idKey : string)
    (l1 : list record) (r : record) (l2 : list record) (e : record) :
  get entityKey r = VObj e ->
  Props.has idKey e = true ->
  let stored :=
    Props.set (entityKey ++ "Id") (get idKey e) (Props.delete entityKey r) in
  let out := extractEntities (l1 ++ r :: l2) entityKey idKey in
  item_copy entityKey idKey r = stored /\
  Props.lookup entityKey stored = None /\
  Props.lookup (entityKey ++ "Id") stored = Some (get idKey e) /\
  (identifier_key idKey r <> "__proto__" ->
   (forall r', In r' l2 -> identifier_key idKey r' <> identifier_key idKey r) ->
   Props.lookup (identifier_key idKey r) (items out) = Some stored) /\
  (to_key (get idKey e) <> "__proto__" ->
   count_occ string_dec (Props.keys (entities out)) (to_key (get idKey e)) = 1 /\
   ((forall r', In r' l2 -> has_entity idKey (get entityKey r') = true ->
                entity_key entityKey idKey r' <> to_key (get idKey e)) ->
    Props.lookup (to_key (get idKey e)) (entities out) = Some (VObj e))).
Proof.
  intros He Hid stored out.
  assert (G : has_entity idKey (get entityKey r) = true).
  { rewrite He. now apply has_entity_record. }
  assert (Hcopy : item_copy entityKey idKey r = stored).
  { rewrite item_copy_nested by assumption. now rewrite He. }
  assert (Hk : entity_key entityKey idKey r = to_key (get idKey e)).
  { unfold entity_key. now rewrite He. }
  split; [exact Hcopy|]. split; [|split; [|split]].
  - unfold stored. rewrite PropsFacts.lookup_set_ne.
    + apply PropsFacts.lookup_delete_eq.
    + intros E. symmetry in E. revert E. apply append_ne. discriminate.
  - apply PropsFacts.lookup_set_eq.
  - intros Hp Hlast. unfold out. rewrite lookup_items_last by assumption.
    now rewrite Hcopy.
  - intros Hp. split.
    + unfold out. rewrite entities_extractEntities.
      apply NoDup_count_occ'.
      * apply NoDup_keys_write_each. constructor.
      * apply In_keys_write_each; [exact Hp|]. left. rewrite <- Hk.
        apply in_map, filter_In. split; [|exact G].
        apply in_or_app. right. now left.
    + intros Hlast. unfold out.
      rewrite entities_extractEntities, lookup_write_each by assumption.
      rewrite (find_rev_filter (fun x => has_entity idKey (get entityKey x))
                 (fun x => String.eqb (entity_key entityKey idKey x)
                                      (to_key (get idKey e)))).
      rewrite (find_rev_last _ l1 l2 r).
      * now rewrite He.
      * rewrite G, Hk. simpl. apply String.eqb_refl.
      * intros y Hy. destruct (has_entity idKey (get entityKey y)) eqn:Gy; [|reflexivity].
        simpl. apply String.eqb_neq. now apply Hlast.
Qed.

Lemma extractEntities_nested_by_identifier_witness :
  Props.lookup "2" (items (extractEntities posts_example "author" "id")) =
    Some [("id", VNum 2); ("title", VStr "P2"); ("authorId", VNum 10)] /\
  count_occ string_dec
    (Props.keys (entities (extractEntities posts_example "author" "id"))) "10" = 1.
Proof.
  destruct (extractEntities_nested_by_identifier "author" "id"
              [ [("id", VNum 1); ("title", VStr "P1"); ("author", john)] ]
              [("id", VNum 2); ("title", VStr "P2"); ("author", john)] []
              [("id", VNum 10); ("name", VStr "John")]
              eq_refl eq_refl) as (_ & _ & _ & H3 & H4).
  split.
  - apply H3; [discriminate | intros r' []].
  - apply H4. discriminate.
Defined.

(** ** Identifiers of one kind do not collide *)

Lemma to_int_nonnil (z : Z) :
  Z.to_int z <> Decimal.Pos Decimal.Nil /\ Z.to_int z <> Decimal.Neg Decimal.Nil.
Proof.
  destruct z; simpl; split; intros H; inversion H;
    eapply DecimalPos.Unsigned.to_uint_nonnil; eauto.
Qed.

Lemma to_key_number_inj (a b : Z) : to_key (VNum a) = to_key (VNum b) -> a = b.
Proof.
  simpl. intros H. apply DecimalZ.to_int_inj.
  destruct (to_int_nonnil a) as [A1 A2]. destruct (to_int_nonnil b) as [B1 B2].
  pose proof (NilZero.isi _ A1 A2) as Ia. pose proof (NilZero.isi _ B1 B2) as Ib.
  rewrite H in Ia. congruence.
Qed.

Lemma NoDup_map_inj_on {X Y Z : Type} (f : X -> Y) (g : X -> Z) (l : list X) :
  (forall x y, In x l -> In y l -> g x = g y -> f x = f y) ->
  NoDup (map f l) -> NoDup (map g l).
Proof.
  intros Hinj. induction l as [|x l IH]; simpl; intros H; [constructor|].
  inversion H as [|? ? Hni Hnd]; subst. constructor.
  - intros I. apply in_map_iff in I. destruct I as (y & E & Hy).
    apply Hni. rewrite <- (Hinj y x); [now apply in_map | now right | now left | exact E].
  - apply IH; [|exact Hnd]. intros a b Ha Hb. apply Hinj; now right.
Qed.

(** X7. When the identifiers of a collection are all numbers, or all
    strings, distinct identifier values are enough for the round trip:
    [denormalize (normalize C)] is a rearrangement of [C]. *)
Theorem normalize_roundtrip_one_kind (C : list record) (key : string) :
  (forall r, In r C -> is_number (get key r) = true) \/
  (forall r, In r C -> is_string (get key r) = true) ->
  NoDup (map (get key) C) ->
  Permutation (denormalize (normalize C key)) C.
Proof.
  intros Hkind Hnd.
  assert (Hid : forall r, In r C -> has_identifier key r = true).
  { intros r Hr. unfold has_identifier.
    destruct Hkind as [H|H]; specialize (H r Hr);
      destruct (get key r); try discriminate; reflexivity. }
  unfold denormalize. rewrite normalize_set_each, (filter_all_true _ _ Hid).
  rewrite values_set_each_Permutation; simpl; [now rewrite map_id | | reflexivity].
  apply (NoDup_map_inj_on (get key)); [|exact Hnd].
  intros x y Hx Hy. unfold identifier_key.
  destruct Hkind as [H|H]; pose proof (H x Hx) as Kx; pose proof (H y Hy) as Ky;
    destruct (get key x), (get key y); try discriminate; intros E.
  - f_equal. now apply to_key_number_inj.
  - simpl in E. congruence.
Qed.

Lemma normalize_roundtrip_one_kind_witness :
  Permutation (denormalize (normalize users_example "id")) users_example.
Proof.
  apply (normalize_roundtrip_one_kind users_example "id").
  - left. intros r [<-|[<-|[]]]; reflexivity.
  - repeat constructor; simpl; intuition discriminate.
Defined.

(** ** More about the stateful wrapper *)

Section Wrapper.
Import Props PropsFacts.


Lemma find_rev_key_none {A : Type} k (u : Props.t A) :
  lookup k u = None ->
  find (fun kv => String.eqb (fst kv) k) (rev u) = None.
Proof.
  intros H. destruct (find _ (rev u)) as [[k' v]|] eqn:E; [|reflexivity].
  apply find_some in E. destruct E as [Hin Hk]. simpl in Hk.
  apply String.eqb_eq in Hk. subst k'. apply in_rev in Hin.
  apply lookup_None_keys in H. exfalso. apply H.
  change k with (fst (k, v)). now apply in_map.
Qed.

Lemma find_rev_key_some {A : Type} k v (u : Props.t A) :
  NoDup (keys u) -> lookup k u = Some v ->
  exists k', find (fun kv => String.eqb (fst kv) k) (rev u) = Some (k', v).
Proof.
  intros Hnd H. destruct (find _ (rev u)) as [[k' v']|] eqn:E.
  - apply find_some in E. destruct E as [Hin Hk]. simpl in Hk.
    apply String.eqb_eq in Hk. subst k'. apply in_rev in Hin.
    apply (In_lookup_Some _ _ _ Hnd) in Hin. exists k. congruence.
  - exfalso. apply lookup_Some_In in H. apply in_rev in H.
    pose proof (find_none _ _ E _ H) as N. simpl in N.
    now rewrite String.eqb_refl in N.
Qed.

(** [{...o, ...u}]: a field named by [u] comes from [u], any other
    field comes from [o]. *)
Lemma lookup_assign {A : Type} (o u : Props.t A) k :
  (lookup k u = None -> lookup k (assign o u) = lookup k o) /\
  (forall v, NoDup (keys u) -> lookup k u = Some v ->
             lookup k (assign o u) = Some v).
Proof.
  change (assign o u) with (set_each fst snd u o).
  rewrite lookup_set_each. split.
  - intros H. now rewrite (find_rev_key_none _ _ H).
  - intros v Hnd H. destruct (find_rev_key_some _ _ _ Hnd H) as [k' E].
    now rewrite E.
Qed.

Lemma keys_assign_has {A : Type} (o u : Props.t A) k :
  In k (keys (assign o u)) <-> In k (keys u) \/ In k (keys o).
Proof.
  change (assign o u) with (set_each fst snd u o).
  rewrite In_keys_set_each. reflexivity.
Qed.

End Wrapper.

Lemma getEntity_own (id : value) (state : entity_map) (entity : record) :
  getEntity id state = VObj entity <-> Props.lookup (to_key id) state = Some entity.
Proof.
  unfold getEntity. destruct (Props.lookup (to_key id) state) as [x|].
  - split; intros H; inversion H; reflexivity.
  - split; [|discriminate]. destruct (prototype_member (to_key id)); discriminate.
Qed.








Lemma addEntities_plain (ents : list record) (state : entity_map) :
  (forall e, In e ents -> identifier_key "id" e <> "__proto__") ->
  addEntities ents state =
  {| Props.own := set_each (identifier_key "id") (fun e => e) ents state;
     Props.proto := None |}.
Proof.
  intros H.
  exact (write_each_plain (identifier_key "id") (fun e => e) (Props.has "__proto__")
           ents {| Props.own := state; Props.proto := None |} H).
Qed.

Lemma useNormalizedState_app (state : entity_map) (l1 l2 : list action) :
  useNormalizedState state (l1 ++ l2) =
  match useNormalizedState state l1 with
  | Some s => useNormalizedState s l2
  | None => None
  end.
Proof.
  unfold useNormalizedState. rewrite fold_left_app.
  destruct (fold_left _ l1 (Some state)) as [s|]; [reflexivity|].
  induction l2 as [|a l2 IH]; simpl; [reflexivity | exact IH].
Qed.

Lemma useNormalizedState_cons (state : entity_map) (a : action) (l : list action) :
  useNormalizedState state (a :: l) =
  match dispatch state a with
  | Some s => useNormalizedState s l
  | None => None
  end.
Proof. exact (useNormalizedState_app state [a] l). Qed.

(** X16. As long as no [id] is named [__proto__], one [addEntities] call
    leaves the state that the [addEntity] calls for the same entities,
    in the same order, leave, an object whose prototype is
    [Object.prototype]; two batches in a row leave the state that the
    batch of both leaves. *)
Theorem addEntities_as_addEntity_calls (ents ents' : list record)
    (state : entity_map) :
  (forall e, In e (ents ++ ents') -> identifier_key "id" e <> "__proto__") ->
  Props.proto (addEntities ents state) = None /\
  Some (Props.own (addEntities ents state)) =
    useNormalizedState state (map AddEntity ents) /\
  addEntities ents' (Props.own (addEntities ents state)) =
    addEntities (ents ++ ents') state.
Proof.
  intros H.
  assert (H1 : forall e, In e ents -> identifier_key "id" e <> "__proto__").
  { intros e He. apply H, in_or_app. now left. }
  assert (H2 : forall e, In e ents' -> identifier_key "id" e <> "__proto__").
  { intros e He. apply H, in_or_app. now right. }
  rewrite (addEntities_plain (ents ++ ents')) by assumption.
  rewrite (addEntities_plain ents) by assumption. simpl Props.own.
  rewrite (addEntities_plain ents') by assumption.
  split; [reflexivity | split].
  - clear H H2. revert state. induction ents as [|e ents IH]; intros state;
      [reflexivity|].
    simpl map. rewrite useNormalizedState_cons. simpl dispatch.
    apply IH. intros x Hx. apply H1. now right.
  - now rewrite set_each_app.
Qed.

Lemma addEntities_as_addEntity_calls_witness :
  Some (Props.own (addEntities users_example Props.empty)) =
  useNormalizedState Props.empty (map AddEntity users_example).
Proof.
  refine (proj1 (proj2 (addEntities_as_addEntity_calls users_example []
                          Props.empty _))).
  intros e [<-|[<-|[]]]; discriminate.
Defined.

(** X17. [addEntities] into the empty state is [normalize] on the [id] field
    when every entity has a usable [id] and none is named [__proto__];
    unlike [normalize] it skips nothing: as long as no [id] is named
    [__proto__], the names of the state are the names of all the [id]s,
    ["undefined"] for an entity without [id]. *)
Theorem addEntities_empty_is_normalize (ents : list record) :
  (forall e, In e ents -> identifier_key "id" e <> "__proto__") ->
  ((forall e, In e ents -> has_identifier "id" e = true) ->
   addEntities ents Props.empty =
     {| Props.own := normalize ents "id"; Props.proto := None |}) /\
  Props.proto (addEntities ents Props.empty) = None /\
  (forall k, In k (entityIds (Props.own (addEntities ents Props.empty))) <->
             In k (map (identifier_key "id") ents)).
Proof.
  intros P. rewrite addEntities_plain by assumption. split; [|split].
  - intros H. now rewrite normalize_set_each, (filter_all_true _ _ H).
  - reflexivity.
  - intros k. unfold entityIds. simpl Props.own.
    rewrite In_keys_set_each. simpl. tauto.
Qed.

Lemma addEntities_empty_is_normalize_witness :
  addEntities users_example Props.empty =
  {| Props.own := normalize users_example "id"; Props.proto := None |}.
Proof.
  refine (proj1 (addEntities_empty_is_normalize users_example _) _).
  - intros e [<-|[<-|[]]]; discriminate.
  - intros e [<-|[<-|[]]]; reflexivity.
Defined.

Lemma dispatch_keeps_filing (a : action) (state : entity_map) :
  keeps_filing a = true ->
  canonical state -> filed_by_id state ->
  exists s, dispatch state a = Some s /\ canonical s /\ filed_by_id s.
Proof.
  intros Ha Hc Hf. destruct a as [s'|e|ents|id|id updates|]; simpl in *;
    try discriminate.
  - eexists. split; [reflexivity|].
    unfold addEntity, Props.spread. split; [now apply canonical_set|].
    intros k x Hin. apply PropsFacts.In_set_inv in Hin.
    destruct Hin as [[-> ->]|Hin]; [reflexivity | now apply Hf].
  - rewrite addEntities_plain.
    2:{ intros e He. rewrite forallb_forall in Ha. specialize (Ha e He).
        apply negb_true_iff in Ha. now apply String.eqb_neq. }
    eexists. split; [reflexivity|].
    split; [now apply canonical_set_each|]. clear Ha.
    revert state Hc Hf. induction ents as [|e ents IH]; intros state Hc Hf; simpl;
      [exact Hf|].
    apply IH; [now apply canonical_set|].
    intros k x Hin. apply PropsFacts.In_set_inv in Hin.
    destruct Hin as [[-> ->]|Hin]; [reflexivity | now apply Hf].
  - eexists. split; [reflexivity|].
    unfold removeEntity, Props.spread. split; [now apply canonical_delete|].
    intros k x Hin. apply PropsFacts.In_delete_inv in Hin. now apply Hf.
  - eexists. split; [reflexivity|].
    apply andb_true_iff in Ha. destruct Ha as [Ha Hi].
    apply negb_true_iff in Hi. apply inherited_false in Hi.
    unfold updateEntity, getEntity, Props.spread.
    destruct (Props.lookup (to_key id) state) as [entity|] eqn:E.
    2:{ rewrite Hi. simpl. now split. }
    simpl negb. cbv iota. unfold own_properties.
    split; [now apply canonical_set|].
    intros k x Hin. apply PropsFacts.In_set_inv in Hin.
    destruct Hin as [[-> ->]|Hin]; [|now apply Hf].
    apply negb_true_iff, PropsFacts.has_false_iff in Ha.
    unfold identifier_key, get.
    rewrite (proj1 (lookup_assign entity updates "id") Ha).
    apply (Hf (to_key id) entity). now apply PropsFacts.lookup_Some_In.
  - eexists. split; [reflexivity|].
    unfold clear. split; [exact I | intros k x []].
Qed.

(** X18. An invariant of the wrapper: as long as the component neither calls
    the raw [setState], nor adds an entity whose [id] is named
    [__proto__] in a batch, nor updates the [id] field of an entity, nor
    updates under the name of a member of [Object.prototype], every call
    leaves an entity map that has no name twice and files every entity
    under its own [id], so what [getEntity id] finds there has the [id]
    that was asked for. *)
Theorem useNormalizedState_files_by_id (initialState : entity_map)
    (calls : list action) :
  canonical initialState -> filed_by_id initialState ->
  forallb keeps_filing calls = true ->
  exists state,
    useNormalizedState initialState calls = Some state /\
    canonical state /\
    filed_by_id state /\
    (forall id e, getEntity id state = VObj e -> to_key (get "id" e) = to_key id).
Proof.
  intros Hc Hf Hcalls.
  assert (H : exists state,
            useNormalizedState initialState calls = Some state /\
            canonical state /\ filed_by_id state).
  { revert initialState Hc Hf Hcalls.
    induction calls as [|a calls IH]; intros st Hc Hf Hcalls.
    - exists st. now split.
    - simpl in Hcalls. apply andb_true_iff in Hcalls. destruct Hcalls as [Ha Hrest].
      destruct (dispatch_keeps_filing a st Ha Hc Hf) as (s1 & D & Hc' & Hf').
      destruct (IH s1 Hc' Hf' Hrest) as (s2 & R & Hc2 & Hf2).
      exists s2. split; [|now split].
      rewrite useNormalizedState_cons, D. exact R. }
  destruct H as (state & R & Hc' & Hf'). exists state.
  split; [exact R | split; [exact Hc' | split; [exact Hf'|]]].
  intros id e Hget. apply getEntity_own in Hget.
  apply PropsFacts.lookup_Some_In in Hget. exact (Hf' _ _ Hget).
Qed.

Lemma useNormalizedState_files_by_id_witness :
  exists state,
    useNormalizedState Props.empty
      [AddEntities users_example;
       UpdateEntity (VNum 1) [("name", VStr "John Doe")];
       RemoveEntity (VNum 2)] = Some state /\
    canonical state /\
    filed_by_id state /\
    (forall id e, getEntity id state = VObj e -> to_key (get "id" e) = to_key id).
Proof.
  apply (useNormalizedState_files_by_id Props.empty
           [AddEntities users_example;
            UpdateEntity (VNum 1) [("name", VStr "John Doe")];
            RemoveEntity (VNum 2)]).
  - exact I.
  - intros k e [].
  - reflexivity.
Defined.

(** An update that names the [id] field breaks the filing: the entity
    stays under the old name and carries the new [id]. *)
Example updateEntity_overwrites_id :
  useNormalizedState Props.empty
    [AddEntity [("id", VNum 1); ("name", VStr "John")];
     UpdateEntity (VNum 1) [("id", VNum 2)]] =
  Some [("1", [("id", VNum 2); ("name", VStr "John")])].
Proof. reflexivity. Qed.

(** An update under a name that every object inherits adds an entry that
    is not filed under its own [id]. *)
Example updateEntity_inherited_name :
  useNormalizedState Props.empty [UpdateEntity (VStr "valueOf") [("name", VStr "Z")]] =
  Some [("valueOf", [("name", VStr "Z")])].
Proof. reflexivity. Qed.

(** A batch with an entity whose [id] is ["__proto__"] leaves a state
    whose prototype is that entity and which has no entry for it;
    [addEntity] files the same entity as an entry. *)
Example addEntities_proto :
  addEntities [ [("id", VStr "__proto__"); ("name", VStr "John")];
                [("id", VStr "x")] ] Props.empty =
    {| Props.own := [ ("x", [("id", VStr "x")]) ];
       Props.proto := Some [("id", VStr "__proto__"); ("name", VStr "John")] |} /\
  useNormalizedState Props.empty
    [AddEntity [("id", VStr "__proto__"); ("name", VStr "John")];
     AddEntity [("id", VStr "x")]] =
    Some [ ("__proto__", [("id", VStr "__proto__"); ("name", VStr "John")]);
           ("x", [("id", VStr "x")]) ].
Proof. split; reflexivity. Qed.

(** ** The posts store *)

(** X19. [addPost] then [getPost] finds the post; posts with other numeric
    identifiers are not disturbed (two different numbers never share a
    name); [removePost] makes [getPost] return nothing, and a present
    post is updated by merging. *)
Theorem posts_store_add_get_remove (post : record) (id id' : Z)
    (updates : record) (state : PostsState) :
  get "id" post = VNum id ->
  getPost id (addPost post state) = Some post /\
  (id' <> id -> getPost id' (addPost post state) = getPost id' state) /\
  getPost id (removePost id (addPost post state)) = None /\
  (id' <> id -> getPost id' (removePost id state) = getPost id' state) /\
  getPost id (updatePost id updates (addPost post state)) =
    Some (Props.assign post updates).
Proof.
  intros Hid. unfold getPost, addPost, removePost, updatePost, Props.spread. simpl.
  rewrite Hid.
  assert (Hne : id' <> id -> to_key (VNum id') <> to_key (VNum id)).
  { intros N E. apply N. now apply to_key_number_inj. }
  split; [|split; [|split; [|split]]].
  - apply PropsFacts.lookup_set_eq.
  - intros N. apply PropsFacts.lookup_set_ne. now apply Hne.
  - apply PropsFacts.lookup_delete_eq.
  - intros N. apply PropsFacts.lookup_delete_ne. now apply Hne.
  - rewrite PropsFacts.lookup_set_eq. simpl. apply PropsFacts.lookup_set_eq.
Qed.

Lemma posts_store_add_get_remove_witness :
  getPost 1 (addPost [("id", VNum 1); ("title", VStr "P1")] {| posts := Props.empty |}) =
  Some [("id", VNum 1); ("title", VStr "P1")].
Proof.
  apply (posts_store_add_get_remove [("id", VNum 1); ("title", VStr "P1")]
           1%Z 2%Z [] {| posts := Props.empty |}).
  reflexivity.
Defined.

(** ** The authentication and interface stores *)

(** X20. After any sequence of [setUser] and [logout] calls the store is
    authenticated exactly when its user is truthy; [setUser] of [null]
    (or [undefined]) leaves the flag off, as [logout] does. *)
Theorem auth_flag_tracks_user (calls : list AuthStore.call) :
  AuthStore.isAuthenticated (AuthStore.run calls) =
    truthy (AuthStore.user (AuthStore.run calls)) /\
  (forall state, AuthStore.setUser VNull state = AuthStore.logout state) /\
  (forall u, truthy u = false ->
     AuthStore.isAuthenticated (AuthStore.run (calls ++ [AuthStore.SetUser u])) = false).
Proof.
  split; [|split].
  - unfold AuthStore.run.
    induction calls as [|c calls IH] using rev_ind; [reflexivity|].
    rewrite fold_left_app. simpl. destruct c; reflexivity.
  - reflexivity.
  - intros u Hu. unfold AuthStore.run. rewrite fold_left_app. simpl. exact Hu.
Qed.

Lemma auth_flag_tracks_user_witness :
  AuthStore.isAuthenticated
    (AuthStore.run [AuthStore.SetUser (VStr "ann"); AuthStore.SetUser (VNum 0)]) = false.
Proof.
  apply (auth_flag_tracks_user [AuthStore.SetUser (VStr "ann")]).
  reflexivity.
Defined.

Lemma count_toggles_app (l1 l2 : list UIStore.call) :
  List.length (filter UIStore.is_toggle_sidebar (l1 ++ l2)) =
  List.length (filter UIStore.is_toggle_sidebar l1) +
  List.length (filter UIStore.is_toggle_sidebar l2).
Proof. now rewrite filter_app, length_app. Qed.

(** X21. The two toggles undo themselves and do not interfere with each
    other, and after any sequence of calls the sidebar is open exactly
    when [toggleSidebar] was called an even number of times (starting
    from the open sidebar). *)
Theorem ui_toggles (state : UIStore.UIState) (calls : list UIStore.call) :
  UIStore.toggleTheme (UIStore.toggleTheme state) = state /\
  UIStore.toggleSidebar (UIStore.toggleSidebar state) = state /\
  UIStore.toggleTheme (UIStore.toggleSidebar state) =
    UIStore.toggleSidebar (UIStore.toggleTheme state) /\
  UIStore.sidebarOpen (UIStore.run calls UIStore.initial) =
    Nat.even (List.length (filter UIStore.is_toggle_sidebar calls)).
Proof.
  split; [|split; [|split]].
  - destruct state as [[] b]; reflexivity.
  - destruct state as [t []]; reflexivity.
  - reflexivity.
  - unfold UIStore.run.
    induction calls as [|c calls IH] using rev_ind; [reflexivity|].
    rewrite fold_left_app, count_toggles_app. simpl fold_left.
    destruct c; simpl; rewrite ?Nat.add_0_r; try exact IH.
    rewrite IH, Nat.add_1_r, Nat.even_succ, <- Nat.negb_even. reflexivity.
Qed.

(** ** Sharing in the store *)

Section Sharing.
Variable s0 : Heap.store.

Lemma nth_error_valid {X : Type} (l : list X) n :
  n < List.length l -> exists x, nth_error l n = Some x.
Proof.
  intros H. destruct (nth_error l n) as [x|] eqn:E; [eauto|].
  apply nth_error_None in E. lia.
Qed.

Lemma normalize_step_shares xs key acc s x :
  normalize_shares s0 xs acc s -> object_ref s0 x -> In x xs ->
  exists acc' s',
    Heap.normalize_step key acc x s = Some (acc', s') /\
    normalize_shares s0 xs acc' s'.
Proof.
  intros (Hun & Hacc & ao & Hao & Hvals) (l & o & -> & Hl) Hin.
  pose proof (proj1 Hun _ _ Hl) as Hl'.
  unfold Heap.normalize_step.
  destruct (is_nullish (Heap.shallow (Heap.hget key o))) eqn:N.
  - eexists _, _. split.
    { eapply bind_run; [apply deref_run; exact Hl'|]. cbv beta zeta. rewrite N.
      eapply bind_run; [reflexivity|]. reflexivity. }
    split; [|split; [exact Hacc|]].
    + split; simpl; apply Hun.
    + exists ao. simpl. auto.
  - eexists _, _. split.
    { eapply bind_run; [apply deref_run; exact Hl'|]. cbv beta zeta. rewrite N.
      eapply bind_run; [unfold Heap.read_object; rewrite Hao; reflexivity|].
      reflexivity. }
    split; [|split].
    + split; simpl; intros; [apply nth_error_snoc_old|]; now apply Hun.
    + exact (unchanged_length s0 s Hun).
    + eexists. simpl. split; [apply nth_error_snoc_new|].
      intros v Hv. apply PropsFacts.In_values_set in Hv.
      destruct Hv as [->|Hv]; [exact Hin | now apply Hvals].
Qed.

Lemma normalize_reduce_shares xs key ys :
  Forall (object_ref s0) ys -> incl ys xs ->
  forall acc s,
    normalize_shares s0 xs acc s ->
    exists acc' s',
      Heap.reduce (Heap.normalize_step key) ys acc s = Some (acc', s') /\
      normalize_shares s0 xs acc' s'.
Proof.
  induction 1 as [|x ys Hx _ IH]; intros Hincl acc s Hinv; simpl.
  - exists acc, s. split; [reflexivity | exact Hinv].
  - destruct (normalize_step_shares xs key acc s x Hinv Hx (Hincl x (or_introl eq_refl)))
      as (acc1 & s1 & E1 & Hinv1).
    destruct (IH (fun y Hy => Hincl y (or_intror Hy)) acc1 s1 Hinv1)
      as (acc2 & s2 & E2 & Hinv2).
    exists acc2, s2. split; [|exact Hinv2].
    eapply bind_run; [exact E1 | exact E2].
Qed.

Lemma hget_ref_In k o l :
  Heap.hget k o = Heap.HRef l -> In (k, Heap.HRef l) o.
Proof.
  unfold Heap.hget. destruct (Props.lookup k o) as [v|] eqn:E.
  - intros ->. now apply PropsFacts.lookup_Some_In.
  - destruct (prototype_member k); discriminate.
Qed.

Lemma owns_nested_ref k q s :
  Heap.unchanged s0 s -> nested_ref s0 q ->
  exists b, Heap.owns k q s = Some (b, s).
Proof.
  intros Hun [(l & o & -> & Hl)| ->]; [|now exists false].
  eexists. simpl. unfold Heap.bind, Heap.read_object.
  rewrite (proj1 Hun _ _ Hl). reflexivity.
Qed.

Lemma owns_copy_ref k q s en ni :
  copy_ref s en ni q -> exists b, Heap.owns k q s = Some (b, s).
Proof.
  intros (c & -> & _ & _ & Hc). destruct (nth_error_valid _ _ Hc) as [co Hco].
  eexists. simpl. unfold Heap.bind, Heap.read_object. rewrite Hco. reflexivity.
Qed.

(** An assignment returns; it adds at most the assigned value to the
    object and to its prototype slot. *)
Lemma write_shares (P : Heap.hvalue -> Prop) l p k hv s o :
  nth_error (Heap.objects s) l = Some o ->
  (forall q, P q -> exists b, Heap.owns "__proto__" q s = Some (b, s)) ->
  slot_of P p -> P hv ->
  exists p' s',
    Heap.write l p k hv s = Some (p', s') /\
    Heap.console s' = Heap.console s /\
    Heap.arrays s' = Heap.arrays s /\
    List.length (Heap.objects s') = List.length (Heap.objects s) /\
    (forall l', l' <> l ->
                nth_error (Heap.objects s') l' = nth_error (Heap.objects s) l') /\
    (exists o', nth_error (Heap.objects s') l = Some o' /\
                forall v, In v (Props.values o') -> v = hv \/ In v (Props.values o)) /\
    slot_of P p'.
Proof.
  intros Hl Howns Hp Hv.
  assert (Hb : exists b, match p with
                         | Some q => Heap.owns "__proto__" q
                         | None => Heap.ret false
                         end s = Some (b, s)).
  { destruct p as [q|]; [now apply Howns | now exists false]. }
  destruct Hb as [b Hb].
  assert (L : l < List.length (Heap.objects s)) by (apply nth_error_Some; congruence).
  assert (E : Heap.write l p k hv s =
              if Props.sets_prototype k o && negb b
              then Some (Some hv, s)
              else Some (p, Heap.put_object l (Props.set k hv o) s)).
  { unfold Heap.write.
    eapply bind_run; [unfold Heap.read_object; rewrite Hl; reflexivity|]. cbv beta.
    eapply bind_run; [exact Hb|]. cbv beta.
    destruct (Props.sets_prototype k o && negb b); [reflexivity|].
    eapply bind_run; [|reflexivity].
    unfold Heap.write_object. apply Nat.ltb_lt in L. now rewrite L. }
  rewrite E. destruct (Props.sets_prototype k o && negb b).
  - exists (Some hv), s. repeat split; trivial. exists o. split; auto.
  - exists p, (Heap.put_object l (Props.set k hv o) s). repeat split; trivial.
    + simpl. apply length_update_nth.
    + intros l' N. now apply nth_put_ne.
    + eexists. split; [eapply nth_put_eq; exact Hl|].
      intros v Hv'. now apply PropsFacts.In_values_set in Hv'.
Qed.

Lemma extract_nested_shares entityKey idKey en ep c s1 o l :
  closed s0 -> Heap.unchanged s0 s1 ->
  nth_error (Heap.objects s0) l = Some o ->
  en <> c ->
  (exists eo, nth_error (Heap.objects s1) en = Some eo /\
              forall v, In v (Props.values eo) -> nested_ref s0 v) ->
  slot_of (nested_ref s0) ep ->
  nth_error (Heap.objects s1) c = Some o ->
  exists ep' sA,
    Heap.extract_nested entityKey idKey en ep c (Heap.hget entityKey o) s1 =
      Some (ep', sA) /\
    Heap.console sA = Heap.console s1 /\
    Heap.arrays sA = Heap.arrays s1 /\
    List.length (Heap.objects sA) = List.length (Heap.objects s1) /\
    (forall l', l' <> en -> l' <> c ->
                nth_error (Heap.objects sA) l' = nth_error (Heap.objects s1) l') /\
    (exists eo, nth_error (Heap.objects sA) en = Some eo /\
                forall v, In v (Props.values eo) -> nested_ref s0 v) /\
    slot_of (nested_ref s0) ep' /\
    (exists co, nth_error (Heap.objects sA) c = Some co).
Proof.
  intros Hclosed Hun Hl Hne (eo & Hen & Heo) Hep Hc.
  assert (Skip : exists ep' sA, Heap.ret ep s1 = Some (ep', sA) /\
    Heap.console sA = Heap.console s1 /\
    Heap.arrays sA = Heap.arrays s1 /\
    List.length (Heap.objects sA) = List.length (Heap.objects s1) /\
    (forall l', l' <> en -> l' <> c ->
                nth_error (Heap.objects sA) l' = nth_error (Heap.objects s1) l') /\
    (exists eo, nth_error (Heap.objects sA) en = Some eo /\
                forall v, In v (Props.values eo) -> nested_ref s0 v) /\
    slot_of (nested_ref s0) ep' /\
    (exists co, nth_error (Heap.objects sA) c = Some co)).
  { exists ep, s1. repeat split; eauto. }
  unfold Heap.extract_nested. rewrite guard_is_object.
  assert (Hobj : is_object (Heap.shallow (Heap.hget entityKey o)) = true ->
            nested_ref s0 (Heap.hget entityKey o) /\
            exists present hid,
              Heap.has_in idKey (Heap.hget entityKey o) s1 = Some (present, s1) /\
              Heap.read_member idKey (Heap.hget entityKey o) s1 = Some (hid, s1)).
  { destruct (Heap.hget entityKey o) as [| | | | |le|[|]] eqn:Ev;
      try discriminate; intros _.
    - pose proof (Hclosed _ _ _ _ Hl (hget_ref_In _ _ _ Ev)) as Hle.
      destruct (nth_error_valid _ _ Hle) as [e He].
      pose proof (proj1 Hun _ _ He) as He1.
      split; [left; exists le, e; now split|].
      exists (has_property idKey e), (Heap.hget idKey e). simpl.
      unfold Heap.bind, Heap.read_object. rewrite He1. now split.
    - split; [now right|].
      exists (inherited idKey), (Heap.hprototype_read idKey). now split. }
  destruct (is_object (Heap.shallow (Heap.hget entityKey o))); [|exact Skip].
  destruct (Hobj eq_refl) as (Hnested & present & hid & Hin & Hrd).
  destruct present.
  2:{ destruct Skip as (ep' & sA & E & Rest). exists ep', sA. split; [|exact Rest].
      eapply bind_run; [exact Hin|]. exact E. }
  destruct (write_shares (nested_ref s0) en ep (Heap.hkey hid)
              (Heap.hget entityKey o) s1 eo Hen
              (fun q Hq => owns_nested_ref "__proto__" q s1 Hun Hq) Hep Hnested)
    as (ep' & s2 & E2 & C2 & A2 & L2 & F2 & (eo' & Hen2 & Heo2) & Hep2).
  assert (Hc2 : nth_error (Heap.objects s2) c = Some o).
  { rewrite F2 by congruence. exact Hc. }
  set (s3 := Heap.put_object c (Props.delete entityKey o) s2).
  assert (Hc3 : nth_error (Heap.objects s3) c = Some (Props.delete entityKey o)).
  { unfold s3. eapply nth_put_eq. exact Hc2. }
  exists ep', (Heap.put_object c
                 (Props.put (entityKey ++ "Id") hid (Props.delete entityKey o)) s3).
  split.
  { eapply bind_run; [exact Hin|]. cbv beta iota.
    eapply bind_run; [exact Hrd|]. cbv beta.
    eapply bind_run; [exact E2|]. cbv beta.
    eapply bind_run; [exact (modify_run _ _ _ _ Hc2)|]. cbv beta. fold s3.
    eapply bind_run; [exact (modify_run _ _ _ _ Hc3)|]. reflexivity. }
  split; [simpl; exact C2|]. split; [simpl; exact A2|].
  split; [|split; [|split; [|split]]].
  - simpl. now rewrite !length_update_nth.
  - intros l' N1 N2. rewrite nth_put_ne by congruence.
    unfold s3. rewrite nth_put_ne by congruence. now apply F2.
  - exists eo'. split.
    + rewrite nth_put_ne by congruence. unfold s3. rewrite nth_put_ne by congruence.
      exact Hen2.
    + intros v Hv. destruct (Heo2 v Hv) as [->|Hv']; [exact Hnested | now apply Heo].
  - exact Hep2.
  - eexists. eapply nth_put_eq. exact Hc3.
Qed.

Lemma extract_step_shares entityKey idKey en ni ps s x :
  closed s0 -> extract_shares s0 en ni ps s -> object_ref s0 x ->
  exists ps' s',
    Heap.extract_step entityKey idKey en ni ps x s = Some (ps', s') /\
    extract_shares s0 en ni ps' s'.
Proof.
  intros Hclosed (Hun & Hcon & Len & Lni & Hne & (eo & Hen & Heo) & (io & Hni & Hio)
                  & Hep & Hip)
         (l & o & -> & Hl).
  pose proof (proj1 Hun _ _ Hl) as Hl'.
  pose proof (unchanged_length s0 s Hun) as Hlen.
  assert (Len' : en < List.length (Heap.objects s)) by (apply nth_error_Some; congruence).
  assert (Lni' : ni < List.length (Heap.objects s)) by (apply nth_error_Some; congruence).
  pose (c := List.length (Heap.objects s)).
  pose (s1 := {| Heap.objects := Heap.objects s ++ [o];
                 Heap.arrays := Heap.arrays s;
                 Heap.console := Heap.console s |}).
  assert (Hnew : Heap.new_object o s = Some (c, s1)) by reflexivity.
  assert (Hc : nth_error (Heap.objects s1) c = Some o) by (apply nth_error_snoc_new).
  assert (Hen1 : nth_error (Heap.objects s1) en = Some eo)
    by (now apply nth_error_snoc_old).
  assert (Hni1 : nth_error (Heap.objects s1) ni = Some io)
    by (now apply nth_error_snoc_old).
  assert (Hun1 : Heap.unchanged s0 s1).
  { split; simpl; intros; [apply nth_error_snoc_old|]; now apply Hun. }
  assert (L1 : List.length (Heap.objects s1) = S c).
  { simpl. rewrite length_app. simpl. unfold c. lia. }
  assert (Nec : en <> c) by (unfold c; lia).
  assert (Nic : ni <> c) by (unfold c; lia).
  destruct (extract_nested_shares entityKey idKey en (fst ps) c s1 o l Hclosed Hun1 Hl
              Nec (ex_intro _ eo (conj Hen1 Heo)) Hep Hc)
    as (ep' & sA & EA & CA & AA & LA & FA & (eo' & Hen' & Heo') & Hep' & (co & Hco)).
  assert (HniA : nth_error (Heap.objects sA) ni = Some io).
  { rewrite FA by congruence. exact Hni1. }
  assert (HipA : slot_of (copy_ref sA en ni) (snd ps)).
  { destruct (snd ps) as [q|]; [|exact I]. simpl in *.
    destruct Hip as (c' & -> & N1 & N2 & Hc'). exists c'. repeat split; trivial. lia. }
  destruct (write_shares (copy_ref sA en ni) ni (snd ps)
              (Heap.hkey (Heap.hget idKey o)) (Heap.HRef c) sA io HniA
              (fun q Hq => owns_copy_ref "__proto__" q sA en ni Hq) HipA)
    as (ip' & s' & E' & C' & A' & L' & F' & (io' & Hni' & Hio') & Hip').
  { exists c. repeat split; try congruence. lia. }
  exists (ep', ip'), s'. split.
  { unfold Heap.extract_step.
    eapply bind_run; [apply deref_run; exact Hl'|]. cbv beta zeta.
    eapply bind_run; [exact Hnew|]. cbv beta.
    eapply bind_run; [exact EA|]. cbv beta.
    eapply bind_run; [exact E'|]. reflexivity. }
  split; [|split; [|split; [|split; [|split; [|split; [|split; [|split]]]]]]];
    trivial.
  - split.
    + intros l' o' H.
      assert (l' < List.length (Heap.objects s0)) by (apply nth_error_Some; congruence).
      rewrite F' by lia. rewrite FA by (unfold c; lia).
      apply nth_error_snoc_old. now apply Hun.
    + intros a xs H. rewrite A', AA. simpl. now apply Hun.
  - rewrite C', CA. simpl. exact Hcon.
  - exists eo'. split; [|exact Heo']. rewrite F' by congruence. exact Hen'.
  - exists io'. split; [exact Hni'|].
    intros v Hv. destruct (Hio' v Hv) as [->|Hv']; [|now apply Hio].
    exists c. split; [reflexivity | exact Hlen].
  - simpl. destruct ip' as [q|]; [|exact I]. simpl in *.
    destruct Hip' as (c' & -> & N1 & N2 & Hc'). exists c'. repeat split; trivial. lia.
Qed.

Lemma extract_for_each_shares entityKey idKey en ni xs :
  closed s0 -> Forall (object_ref s0) xs ->
  forall ps s,
    extract_shares s0 en ni ps s ->
    exists ps' s',
      Heap.for_each xs (Heap.extract_step entityKey idKey en ni) ps s =
        Some (ps', s') /\
      extract_shares s0 en ni ps' s'.
Proof.
  intros Hclosed. induction 1 as [|x xs Hx _ IH]; intros ps s Hinv; simpl.
  - exists ps, s. split; [reflexivity | exact Hinv].
  - destruct (extract_step_shares entityKey idKey en ni ps s x Hclosed Hinv Hx)
      as (ps1 & s1 & E1 & Hinv1).
    destruct (IH ps1 s1 Hinv1) as (ps2 & s2 & E2 & Hinv2).
    exists ps2, s2. split; [|exact Hinv2]. eapply bind_run; [exact E1 | exact E2].
Qed.

End Sharing.

(** X22. [normalize] does not copy the records: whenever the members of the
    collection are objects (cyclic or not), the call returns a map
    allocated by the call whose values are the very references of the
    collection, and no object or array of the caller is changed. *)
Theorem normalize_shares_records (s0 : Heap.store) (arr : nat)
    (xs : list Heap.hvalue) (key : string) :
  nth_error (Heap.arrays s0) arr = Some xs ->
  Forall (object_ref s0) xs ->
  exists acc ao s1,
    Heap.normalize arr key s0 = Some (Heap.HRef acc, s1) /\
    Heap.unchanged s0 s1 /\
    List.length (Heap.objects s0) <= acc /\
    nth_error (Heap.objects s1) acc = Some ao /\
    (forall v, In v (Props.values ao) -> In v xs).
Proof.
  intros Harr Hxs.
  pose (s1 := {| Heap.objects := Heap.objects s0 ++ [Props.empty];
                 Heap.arrays := Heap.arrays s0;
                 Heap.console := Heap.console s0 |}).
  assert (Hn : Heap.new_object Props.empty s0 = Some (List.length (Heap.objects s0), s1))
    by reflexivity.
  assert (Hinv : normalize_shares s0 xs (List.length (Heap.objects s0)) s1).
  { split; [|split; [lia|]].
    - split; simpl; intros; [apply nth_error_snoc_old|]; assumption.
    - exists Props.empty. simpl. split; [apply nth_error_snoc_new | intros v []]. }
  destruct (normalize_reduce_shares s0 xs key xs Hxs (incl_refl xs) _ _ Hinv)
    as (acc & s' & E & Hun & Hacc & ao & Hao & Hvals).
  exists acc, ao, s'. split; [|auto].
  unfold Heap.normalize.
  eapply bind_run; [apply read_array_run; exact Harr|]. cbv beta.
  eapply bind_run; [exact Hn|]. cbv beta.
  eapply bind_run; [exact E|]. reflexivity.
Qed.

Lemma normalize_shares_records_witness :
  exists acc ao s1,
    Heap.normalize 0 "id" cyclic_store = Some (Heap.HRef acc, s1) /\
    Heap.unchanged cyclic_store s1 /\
    List.length (Heap.objects cyclic_store) <= acc /\
    nth_error (Heap.objects s1) acc = Some ao /\
    (forall v, In v (Props.values ao) -> In v [Heap.HRef 0]).
Proof.
  apply (normalize_shares_records cyclic_store 0 [Heap.HRef 0] "id").
  - reflexivity.
  - repeat constructor; eexists _, _; (split; [reflexivity|]); reflexivity.
Defined.

(** X23. [extractEntities] copies one level: in a store without dangling
    references whose collection holds objects (cyclic or not), the call
    returns; no object or array of the caller is changed and the console
    is untouched; the entities map refers to the caller's own nested
    objects (or to [Object.prototype], when that is what the nested
    field reads), and the items map refers to objects allocated by the
    call. *)
Theorem extractEntities_shares_entities (s0 : Heap.store) (arr : nat)
    (xs : list Heap.hvalue) (entityKey idKey : string) :
  nth_error (Heap.arrays s0) arr = Some xs ->
  Forall (object_ref s0) xs ->
  closed s0 ->
  exists res en ni eo io s1,
    Heap.extractEntities arr entityKey idKey s0 = Some (Heap.HRef res, s1) /\
    Heap.unchanged s0 s1 /\
    Heap.console s1 = Heap.console s0 /\
    nth_error (Heap.objects s1) res =
      Some [("items", Heap.HRef ni); ("entities", Heap.HRef en)] /\
    nth_error (Heap.objects s1) en = Some eo /\
    nth_error (Heap.objects s1) ni = Some io /\
    (forall v, In v (Props.values eo) ->
               object_ref s0 v \/ v = Heap.HBuiltin ObjectPrototype) /\
    (forall v, In v (Props.values io) -> fresh_ref s0 v).
Proof.
  intros Harr Hxs Hclosed.
  pose (en := List.length (Heap.objects s0)).
  pose (s1 := {| Heap.objects := Heap.objects s0 ++ [Props.empty];
                 Heap.arrays := Heap.arrays s0;
                 Heap.console := Heap.console s0 |}).
  pose (ni := List.length (Heap.objects s1)).
  pose (s2 := {| Heap.objects := Heap.objects s1 ++ [Props.empty];
                 Heap.arrays := Heap.arrays s1;
                 Heap.console := Heap.console s1 |}).
  assert (Hn1 : Heap.new_object Props.empty s0 = Some (en, s1)) by reflexivity.
  assert (Hn2 : Heap.new_object Props.empty s1 = Some (ni, s2)) by reflexivity.
  assert (Eni : ni = S en) by (unfold ni, en; simpl; rewrite length_app; simpl; lia).
  assert (Hinv : extract_shares s0 en ni (None, None) s2).
  { split; [|split; [|split; [|split; [|split; [|split; [|split; [|split]]]]]]];
      try (unfold en in *; lia); trivial; try exact I.
    - split; simpl; intros; trivial.
      apply nth_error_snoc_old. now apply nth_error_snoc_old.
    - exists Props.empty. split; [|intros v []]. simpl.
      apply nth_error_snoc_old. apply nth_error_snoc_new.
    - exists Props.empty. split; [|intros v []]. simpl.
      apply (nth_error_snoc_new (Heap.objects s0 ++ [Props.empty])). }
  destruct (extract_for_each_shares s0 entityKey idKey en ni xs Hclosed Hxs _ _ Hinv)
    as (ps' & s' & E & Hun & Hcon & _ & _ & _ & (eo & Hen & Heo) & (io & Hni & Hio) & _).
  pose (result := [("items", Heap.HRef ni); ("entities", Heap.HRef en)]).
  pose (s3 := {| Heap.objects := Heap.objects s' ++ [result];
                 Heap.arrays := Heap.arrays s';
                 Heap.console := Heap.console s' |}).
  exists (List.length (Heap.objects s')), en, ni, eo, io, s3.
  split.
  { unfold Heap.extractEntities.
    eapply bind_run; [apply read_array_run; exact Harr|]. cbv beta.
    eapply bind_run; [exact Hn1|]. cbv beta.
    eapply bind_run; [exact Hn2|]. cbv beta.
    eapply bind_run; [exact E|]. cbv beta.
    reflexivity. }
  split; [|split; [exact Hcon|split; [|split; [|split; [|split]]]]]; trivial.
  - split; simpl; intros; [apply nth_error_snoc_old|]; now apply Hun.
  - apply nth_error_snoc_new.
  - simpl. now apply nth_error_snoc_old.
  - simpl. now apply nth_error_snoc_old.
Qed.

Lemma posts_store_closed : closed posts_store.
Proof.
  intros l o k l' Hl Hin.
  destruct l as [|[|[|l]]]; simpl in Hl; inversion Hl; subst; simpl in Hin;
    try (destruct l; discriminate);
    repeat (destruct Hin as [Hin|Hin]; [inversion Hin; subst; simpl; lia|]);
    contradiction.
Qed.

Lemma extractEntities_shares_entities_witness :
  exists res en ni eo io s1,
    Heap.extractEntities 0 "author" "id" posts_store = Some (Heap.HRef res, s1) /\
    Heap.unchanged posts_store s1 /\
    Heap.console s1 = Heap.console posts_store /\
    nth_error (Heap.objects s1) res =
      Some [("items", Heap.HRef ni); ("entities", Heap.HRef en)] /\
    nth_error (Heap.objects s1) en = Some eo /\
    nth_error (Heap.objects s1) ni = Some io /\
    (forall v, In v (Props.values eo) ->
               object_ref posts_store v \/ v = Heap.HBuiltin ObjectPrototype) /\
    (forall v, In v (Props.values io) -> fresh_ref posts_store v).
Proof.
  apply (extractEntities_shares_entities posts_store 0
           [Heap.HRef 1; Heap.HRef 2] "author" "id").
  - reflexivity.
  - repeat constructor; eexists _, _; (split; [reflexivity|]); reflexivity.
  - exact posts_store_closed.
Defined.
